(** * TinyGo: the board engine and the streaming datasets

    A shallow embedding of [CNN/datasets.py] and [CNN/datasets_sgf.py]:
    the Go board ([GoGameState]), the replay of recorded games into
    training samples, and the train/val split and worker sharding of the
    two dataset classes. *)

From Stdlib Require Import ZArith Lia Bool.
From Stdlib Require Import Floats.SpecFloat.
From stdpp Require Import base option list gmap sets strings.

Local Open Scope Z_scope.
Set Warnings "-clear-no-such-hyp,-register-all".

(** ** Python results

    A call either returns a value or raises.  [OutOfFuel] belongs to the
    model only: the [while] loop of [_collect_group] is run with a bound on
    its number of iterations, and the bound is shown to be never reached. *)

Inductive PyExc : Type :=
  | ValueError (msg : string)
  | JSONDecodeError
  | IndexError
  | TypeError
  | OverflowError
  | OSError
  | UnicodeDecodeError.

(** [except ValueError] also catches [json.JSONDecodeError] and
    [UnicodeDecodeError], its subclasses. *)
Definition is_ValueError (e : PyExc) : bool :=
  match e with
  | ValueError _ | JSONDecodeError | UnicodeDecodeError => true
  | _ => false
  end.

Definition OccupiedPoint : PyExc := ValueError "attempt to play on occupied point".
Definition SuicideMove : PyExc := ValueError "suicide move".

Inductive Res (A : Type) : Type :=
  | Ok (a : A)
  | Raise (e : PyExc)
  | OutOfFuel.
Arguments Ok {A} a.
Arguments Raise {A} e.
Arguments OutOfFuel {A}.

#[global] Instance Res_ret : MRet Res := λ A a, Ok a.
#[global] Instance Res_bind : MBind Res := λ A B f m,
  match m with
  | Ok a => f a
  | Raise e => Raise e
  | OutOfFuel => OutOfFuel
  end.

Abbreviation Color := string.
Abbreviation coord := (Z * Z)%type.

(** ** The board *)

Module Board.

(** [self.size] and [self.board]; the numpy array is kept as its rows. *)
Record GoGameState : Type := {
  size : Z;
  board : list (list Z)
}.

(** What [__init__] establishes and every method keeps. *)
Definition wf (st : GoGameState) : Prop :=
  1 ≤ size st ≤ 25 ∧
  Z.of_nat (length (board st)) = size st ∧
  Forall (λ row, Z.of_nat (length row) = size st) (board st).

(** Index of an axis of length [n]: negative indices count from the end,
    anything outside [-n, n) is an [IndexError]. *)
Definition py_index (n i : Z) : option nat :=
  if (0 <=? i) && (i <? n) then Some (Z.to_nat i)
  else if (- n <=? i) && (i <? 0) then Some (Z.to_nat (i + n))
  else None.

Definition cell (b : list (list Z)) (y x : Z) : option Z :=
  r ← py_index (Z.of_nat (length b)) y;
  row ← b !! r;
  c ← py_index (Z.of_nat (length row)) x;
  row !! c.

Definition set_cell (b : list (list Z)) (y x v : Z) : option (list (list Z)) :=
  r ← py_index (Z.of_nat (length b)) y;
  row ← b !! r;
  c ← py_index (Z.of_nat (length row)) x;
  Some (<[r := <[c := v]> row]> b).

(** Methods run in a state and exception monad over the object; the state
    reached when an exception leaves the method is kept, as the mutations
    made before a [raise] stay. *)
Definition M (A : Type) : Type := GoGameState → Res A * GoGameState.

#[global] Instance M_ret : MRet M := λ A a st, (Ok a, st).
#[global] Instance M_bind : MBind M := λ A B f m st,
  match m st with
  | (Ok a, st') => f a st'
  | (Raise e, st') => (Raise e, st')
  | (OutOfFuel, st') => (OutOfFuel, st')
  end.

Definition raise {A} (e : PyExc) : M A := λ st, (Raise e, st).
Definition pure_call {A} (f : GoGameState → Res A) : M A := λ st, (f st, st).

(** [self.board[y, x]] *)
Definition getitem (st : GoGameState) (y x : Z) : Res Z :=
  match cell (board st) y x with
  | Some v => Ok v
  | None => Raise IndexError
  end.

(** [self.board[y, x] = v] *)
Definition setitem (y x v : Z) : M unit := λ st,
  match set_cell (board st) y x v with
  | Some b => (Ok tt, {| size := size st; board := b |})
  | None => (Raise IndexError, st)
  end.

(** [for a in l: body], with the loop-carried locals as an accumulator. *)
Fixpoint for_loop {A S} (l : list A) (body : S → A → M S) (acc : S) : M S :=
  match l with
  | [] => mret acc
  | a :: l' => acc' ← body acc a; for_loop l' body acc'
  end.

(** [GoGameState(size)] *)
Definition new (n : Z) : Res GoGameState :=
  if (n <=? 0) || (25 <? n) then Raise (ValueError "Unsupported board size")
  else Ok {| size := n;
             board := replicate (Z.to_nat n) (replicate (Z.to_nat n) 0) |}.

Definition color_value (color : Color) : Z :=
  if String.eqb color "B" then 1 else -1.

Definition in_1_size (st : GoGameState) (x y : Z) : bool :=
  (1 <=? x) && (x <=? size st) && (1 <=? y) && (y <=? size st).

Definition apply_setup (color : Color) (coords : list coord) : M unit :=
  let value := color_value color in
  for_loop coords (λ _ '(x, y),
    st ← pure_call Ok;
    if in_1_size st x y then setitem (y - 1) (x - 1) value else mret tt) tt.

Definition apply_empty (coords : list coord) : M unit :=
  for_loop coords (λ _ '(x, y),
    st ← pure_call Ok;
    if in_1_size st x y then setitem (y - 1) (x - 1) 0 else mret tt) tt.

(** The generator [_neighbors], as the list of what it yields. *)
Definition _neighbors (st : GoGameState) (x y : Z) : list coord :=
  (if 0 <? x then [(x - 1, y)] else []) ++
  (if x + 1 <? size st then [(x + 1, y)] else []) ++
  (if 0 <? y then [(x, y - 1)] else []) ++
  (if y + 1 <? size st then [(x, y + 1)] else []).

(** The locals of [_collect_group].  [stack] has the top of the Python
    list (its last element) first. *)
Record fill : Type := {
  stack : list coord;
  visited : gset coord;
  group : list coord;
  liberties : gset coord
}.

(** The body of the inner [for nx, ny in self._neighbors(cx, cy)]. *)
Definition scan (st : GoGameState) (value : Z) (f : fill) (n : coord) : Res fill :=
  let '(nx, ny) := n in
  v ← getitem st ny nx;
  if v =? 0 then
    Ok {| stack := stack f; visited := visited f; group := group f;
          liberties := {[n]} ∪ liberties f |}
  else if (v =? value) && negb (bool_decide (n ∈ visited f)) then
    Ok {| stack := n :: stack f; visited := {[n]} ∪ visited f;
          group := group f; liberties := liberties f |}
  else Ok f.

Fixpoint scan_all (st : GoGameState) (value : Z) (f : fill) (ns : list coord)
  : Res fill :=
  match ns with
  | [] => Ok f
  | n :: ns' => f' ← scan st value f n; scan_all st value f' ns'
  end.

(** [while stack: ...], at most [fuel] iterations. *)
Fixpoint collect_loop (fuel : nat) (st : GoGameState) (value : Z) (f : fill)
  : Res (list coord * Z) :=
  match stack f with
  | [] => Ok (group f, Z.of_nat (base.size (liberties f)))
  | (cx, cy) :: rest =>
      match fuel with
      | O => OutOfFuel
      | S fuel' =>
          f' ← scan_all st value
                 {| stack := rest; visited := visited f;
                    group := group f ++ [(cx, cy)]; liberties := liberties f |}
                 (_neighbors st cx cy);
          collect_loop fuel' st value f'
      end
  end.

(** Every coordinate pushed is new in [visited], and the coordinates that
    index the array lie in [-size, size) on both axes: [4 * size * size]
    pops empty the stack. *)
Definition collect_fuel (st : GoGameState) : nat :=
  Z.to_nat (4 * size st * size st).

Definition _collect_group (st : GoGameState) (x y : Z) : Res (list coord * Z) :=
  value ← getitem st y x;
  collect_loop (collect_fuel st) st value
    {| stack := [(x, y)]; visited := {[(x, y)]}; group := []; liberties := ∅ |}.

Definition play_move (color : Color) (c : coord) : M (list coord) :=
  let '(x, y) := c in
  v ← pure_call (λ st, getitem st y x);
  if negb (v =? 0) then raise OccupiedPoint else
  let value := color_value color in
  setitem y x value;;
  ns ← pure_call (λ st, Ok (_neighbors st x y));
  captured_groups ← for_loop ns (λ cg '(nx, ny),
    v ← pure_call (λ st, getitem st ny nx);
    if v =? - value then
      '(group, liberties) ← pure_call (λ st, _collect_group st nx ny);
      if liberties =? 0 then mret (cg ++ [group]) else mret cg
    else mret cg) [];
  captured_stones ← for_loop captured_groups (λ cs group,
    for_loop group (λ cs '(gx, gy),
      setitem gy gx 0;;
      mret (cs ++ [(gx, gy)])) cs) [];
  '(_, liberties) ← pure_call (λ st, _collect_group st x y);
  if liberties =? 0 then
    for_loop captured_groups (λ _ group,
      for_loop group (λ _ '(gx, gy), setitem gy gx (- value)) tt) tt;;
    setitem y x 0;;
    raise SuicideMove
  else mret captured_stones.

(** [make_features]: the three planes, [1] for [1.0] and [0] for [0.0]. *)
Definition make_features (st : GoGameState) (to_play : Color)
  : list (list (list Z)) :=
  let black := map (map (λ v, if v =? 1 then 1 else 0)) (board st) in
  let white := map (map (λ v, if v =? -1 then 1 else 0)) (board st) in
  let to_play_plane :=
    map (map (λ _, if String.eqb to_play "B" then 1 else 0)) black in
  [black; white; to_play_plane].

(** Coordinates in [0, size) on both axes. *)
Definition inb (st : GoGameState) (p : coord) : Prop :=
  0 ≤ p.1 < size st ∧ 0 ≤ p.2 < size st.

#[global] Instance inb_dec st p : Decision (inb st p).
Proof. unfold inb. apply _. Defined.

(** The content of the cell at [p = (x, y)]. *)
Definition at_ (st : GoGameState) (p : coord) : option Z :=
  cell (board st) p.2 p.1.

(** The number of stones on the board. *)
Definition stone_count (st : GoGameState) : nat :=
  length (filter (λ v, v ≠ 0) (concat (board st))).

(** A sequence of [play_move] calls that all return, none with a
    captured stone; [None] as soon as a call raises or captures. *)
Fixpoint capture_free_run (moves : list (Color * coord)) (st : GoGameState)
  : option GoGameState :=
  match moves with
  | [] => Some st
  | (color, c) :: moves' =>
      match play_move color c st with
      | (Ok [], st') => capture_free_run moves' st'
      | _ => None
      end
  end.

End Board.

(** ** Groups and liberties, as the rules of the game define them

    These follow the glossary of the specification, not the code: a group
    is a maximal set of stones of one colour connected by 4-adjacency, a
    liberty of a group is an empty cell 4-adjacent to one of its stones. *)

Module Rules.
Import Board.

Definition adjacent (p q : coord) : Prop :=
  Z.abs (p.1 - q.1) + Z.abs (p.2 - q.2) = 1.

(** [connected st p q]: [q] is reached from [p] through 4-adjacent cells
    of the board that all hold what [p] holds. *)
Inductive connected (st : GoGameState) (p : coord) : coord → Prop :=
  | connected_refl : connected st p p
  | connected_step q r :
      connected st p q → inb st r → adjacent q r → at_ st r = at_ st p →
      connected st p r.

(** [liberty st p r]: [r] is a liberty of the group of [p]. *)
Definition liberty (st : GoGameState) (p r : coord) : Prop :=
  inb st r ∧ at_ st r = Some 0 ∧ ∃ q, connected st p q ∧ adjacent q r.

Definition no_liberties (st : GoGameState) (p : coord) : Prop :=
  ∀ r, ¬ liberty st p r.

(** [placed st p w st1]: [st1] is [st] with a stone of value [w] at [p]. *)
Definition placed (st : GoGameState) (p : coord) (w : Z) (st1 : GoGameState) : Prop :=
  wf st1 ∧ size st1 = size st ∧
  ∀ q, inb st q → at_ st1 q = if decide (q = p) then Some w else at_ st q.

(** [captured st1 p w q]: the stone at [q] belongs to a group of the other
    colour that touches the stone of value [w] at [p] and has no liberty. *)
Definition captured (st1 : GoGameState) (p : coord) (w : Z) (q : coord) : Prop :=
  ∃ n, inb st1 n ∧ adjacent p n ∧ at_ st1 n = Some (- w) ∧
       no_liberties st1 n ∧ connected st1 n q.

(** [captures_removed st1 p w st2]: [st2] is [st1] without the stones
    captured by the stone at [p]. *)
Definition captures_removed (st1 : GoGameState) (p : coord) (w : Z)
    (st2 : GoGameState) : Prop :=
  wf st2 ∧ size st2 = size st1 ∧
  ∀ q, inb st1 q →
    (captured st1 p w q → at_ st2 q = Some 0) ∧
    (¬ captured st1 p w q → at_ st2 q = at_ st1 q).

End Rules.

(** ** Configuration, split and shard, shared by the two datasets *)

Module Dataset.
Import Board.

(** [val_ratio] is a Python float, that is an IEEE 754 binary64 number. *)
Definition prec : Z := 53.
Definition emax : Z := 1024.
Definition float_mul : spec_float → spec_float → spec_float := SFmul prec emax.
Definition float_valid : spec_float → bool := valid_binary prec emax.

Definition float_0 : spec_float := S754_zero false.
Definition float_1 : spec_float := S754_finite false 4503599627370496 (-52).
Definition float_1000 : spec_float := S754_finite false 8796093022208000 (-43).

(** [int(f)]: the integer part of a float, rounding toward zero. *)
Definition py_int (f : spec_float) : Res Z :=
  match f with
  | S754_zero _ => Ok 0
  | S754_finite s m e =>
      let a := if 0 <=? e then Z.pos m * 2 ^ e else Z.pos m / 2 ^ (- e) in
      Ok (if s then - a else a)
  | S754_infinity _ => Raise OverflowError
  | S754_nan => Raise (ValueError "cannot convert float NaN to integer")
  end.

(** [float(z)] of a Python integer, as the arithmetic makes it of an
    integer operand next to a float: the nearest float, [OverflowError]
    when the integer is too large. *)
Definition float_of_int (z : Z) : Res spec_float :=
  match binary_normalize prec emax z 0 false with
  | S754_infinity _ => Raise OverflowError
  | f => Ok f
  end.

(** The comparison of a float with a Python integer, which Python makes
    exactly; [None] for a NaN, with which every comparison is false. *)
Definition float_compare_int (f : spec_float) (z : Z) : option comparison :=
  match f with
  | S754_nan => None
  | S754_infinity s => Some (if s then Lt else Gt)
  | S754_zero _ => Some (0 ?= z)
  | S754_finite s m e =>
      let a := if s then Z.neg m else Z.pos m in
      Some (if 0 <=? e then a * 2 ^ e ?= z else a ?= z * 2 ^ (- e))
  end.

(** A number of Python: an [int] or a [float]. *)
Inductive number : Type :=
  | Int (z : Z)
  | Float (f : spec_float).

Definition as_float (a : number) : Res spec_float :=
  match a with
  | Int z => float_of_int z
  | Float f => Ok f
  end.

(** [a op b]: exact on two integers; otherwise the integer operand is
    converted and the operation is that of the floats. *)
Definition arith (int_op : Z → Z → Z)
    (float_op : spec_float → spec_float → spec_float) (a b : number) : Res number :=
  match a, b with
  | Int x, Int y => Ok (Int (int_op x y))
  | _, _ => fa ← as_float a; fb ← as_float b; Ok (Float (float_op fa fb))
  end.

(** [torch.tensor(action, dtype=torch.long)]: of a float, the integer
    part.  What the conversion makes of a float that is not finite is left
    to the machine (here the value x86-64 gives); the coordinates that
    reach it lie in [1, board_size]. *)
Definition tensor_long (a : number) : Z :=
  match a with
  | Int z => z
  | Float (S754_finite s m e) =>
      let a := if 0 <=? e then Z.pos m * 2 ^ e else Z.pos m / 2 ^ (- e) in
      if s then - a else a
  | Float (S754_zero _) => 0
  | Float _ => - 2 ^ 63
  end.

(** [1 <= v <= board_size] *)
Definition in_range (board_size : Z) (v : number) : bool :=
  match v with
  | Int z => (1 <=? z) && (z <=? board_size)
  | Float f =>
      match float_compare_int f 1 with
      | Some Eq | Some Gt =>
          match float_compare_int f board_size with
          | Some Lt | Some Eq => true
          | _ => false
          end
      | _ => false
      end
  end.

(** [(y - 1) * board_size + (x - 1)], as the label of the tensor. *)
Definition action_of (board_size : Z) (x y : number) : Res Z :=
  y1 ← arith Z.sub (SFsub prec emax) y (Int 1);
  row ← arith Z.mul float_mul y1 (Int board_size);
  x1 ← arith Z.sub (SFsub prec emax) x (Int 1);
  a ← arith Z.add (SFadd prec emax) row x1;
  Ok (tensor_long a).

(** [mode]: [__init__] raises on anything but ["train"] and ["val"]. *)
Inductive Mode : Type := train | val.

Record DatasetConfig (F : Type) : Type := {
  board_size : Z;
  data_files : list F;
  val_ratio : spec_float;
  limit_games : option Z
}.
Arguments board_size {F} _.
Arguments data_files {F} _.
Arguments val_ratio {F} _.
Arguments limit_games {F} _.

(** [_selected], the same text in [GoMoveDataset] and [SgfGoMoveDataset]. *)
Definition _selected {F} (cfg : DatasetConfig F) (mode : Mode) (game_index : Z)
  : Res bool :=
  if SFleb (val_ratio cfg) float_0 then
    Ok (match mode with train => true | val => false end)
  else
    let bucket := game_index mod 1000 in
    threshold ← py_int (float_mul (val_ratio cfg) float_1000);
    Ok (match mode with
        | val => bucket <? threshold
        | train => bucket >=? threshold
        end).

(** [(features, target)] *)
Abbreviation Sample := (list (list (list Z)) * Z)%type.

(** How a generator ends: it is exhausted, or an exception leaves it. *)
Inductive Outcome : Type :=
  | Finished
  | Raised (e : PyExc)
  | Diverged.

(** What the body of the loop over the games does next. *)
Inductive Control : Type :=
  | Next
  | Stop (o : Outcome).

(** The local [games_seen] and what has been yielded so far.  [examined]
    is a ghost log: the index of every game for which the body went past
    the [limit_games] test. *)
Record Progress (I : Type) : Type := {
  games_seen : Z;
  yielded : list Sample;
  examined : list I
}.
Arguments games_seen {I} _.
Arguments yielded {I} _.
Arguments examined {I} _.

Definition start {I} : Progress I :=
  {| games_seen := 0; yielded := []; examined := [] |}.

(** [worker_id] and [num_workers], from [get_worker_info()]. *)
Definition worker (worker_info : option (Z * Z)) : Z * Z :=
  match worker_info with
  | Some (id, num_workers) => (id, num_workers)
  | None => (0, 1)
  end.

(** [limit_games is not None and games_seen >= limit_games] *)
Definition limit_reached {F I} (cfg : DatasetConfig F) (p : Progress I) : bool :=
  match limit_games cfg with
  | Some limit => games_seen p >=? limit
  | None => false
  end.

(** A recorded move on the board, 0-indexed. *)
Abbreviation Move := (Color * coord)%type.

(** [play_move] on each move in turn, as long as it returns. *)
Fixpoint play_all (moves : list Move) (st : GoGameState) : option GoGameState :=
  match moves with
  | [] => Some st
  | (color, c) :: moves' =>
      match play_move color c st with
      | (Ok _, st') => play_all moves' st'
      | _ => None
      end
  end.

(** [y * size + x], the label of a move. *)
Definition action (board_size : Z) (m : Move) : Z :=
  m.2.2 * board_size + m.2.1.

(** The samples of the moves of a game replayed from [st]: each has the
    features of the board before its move. *)
Fixpoint samples_of (board_size : Z) (moves : list Move) (st : GoGameState)
  : list Sample :=
  match moves with
  | [] => []
  | m :: moves' =>
      (make_features st m.1, action board_size m)
      :: samples_of board_size moves' (play_move m.1 m.2 st).2
  end.

Definition in_board (board_size : Z) (m : Move) : Prop :=
  0 ≤ m.2.1 < board_size ∧ 0 ≤ m.2.2 < board_size.

#[global] Instance in_board_dec n m : Decision (in_board n m).
Proof. unfold in_board. apply _. Defined.

End Dataset.

(** ** [GoMoveDataset]: one JSON array per line *)

Module Compact.
Import Board Dataset.

(** What [json.loads] returns: a number without fraction or exponent is
    an [int], any other a [float] ([NaN] and [Infinity] included). *)
Inductive json : Type :=
  | JNull
  | JBool (b : bool)
  | JInt (z : Z)
  | JStr (s : string)
  | JList (l : list json)
  | JDict (l : list (string * json))
  | JFloat (f : spec_float).

(** A line of a data file, by what [line.strip()] and [json.loads] make
    of it. *)
Inductive Line : Type :=
  | Blank
  | Malformed
  | Json (moves : json).

(** A data file: [path.open] raises, or gives the lines, or gives some
    lines before the reading raises ([UnicodeDecodeError] on bytes that
    are not UTF-8, [OSError]). *)
Inductive DataFile : Type :=
  | Unreadable
  | Lines (lines : list Line)
  | Interrupted (lines : list Line) (e : PyExc).

(** An [int]: a [bool] counts as 0 or 1. *)
Definition as_int (j : json) : option Z :=
  match j with
  | JInt z => Some z
  | JBool b => Some (if b then 1 else 0)
  | _ => None
  end.

(** An operand of [<=] with an [int]: anything but a number is a
    [TypeError]. *)
Definition as_number (j : json) : option number :=
  match j with
  | JFloat f => Some (Float f)
  | _ => Int <$> as_int j
  end.

(** The characters of a string, each as a string. *)
Fixpoint characters (s : string) : list json :=
  match s with
  | EmptyString => []
  | String a s' => JStr (String a EmptyString) :: characters s'
  end.

(** What [enumerate(moves)] iterates over. *)
Definition iterate (moves : json) : Res (list json) :=
  match moves with
  | JList l => Ok l
  | JDict l => Ok (map (λ kv, JStr kv.1) l)
  | JStr s => Ok (characters s)
  | _ => Raise TypeError
  end.

(** The loop of [_game_to_samples]. *)
Fixpoint replay (board_size : Z) (moves : list json) (st : GoGameState)
  : list Sample * Outcome :=
  match moves with
  | [] => ([], Finished)
  | move :: rest =>
      match move with
      | JDict [(color, JList [x; y])] =>
          match as_number x with
          | None => ([], Raised TypeError)
          | Some xv =>
              if negb (in_range board_size xv) then replay board_size rest st
              else
                match as_number y with
                | None => ([], Raised TypeError)
                | Some yv =>
                    if negb (in_range board_size yv) then replay board_size rest st
                    else
                      let features := make_features st color in
                      match action_of board_size xv yv with
                      | Raise e => ([], Raised e)
                      | OutOfFuel => ([], Diverged)
                      | Ok action =>
                          match xv, yv with
                          | Int xz, Int yz =>
                              match play_move color (xz - 1, yz - 1) st with
                              | (Ok _, st') =>
                                  let '(out, o) := replay board_size rest st' in
                                  ((features, action) :: out, o)
                              | (Raise e, _) =>
                                  if is_ValueError e then ([(features, action)], Finished)
                                  else ([(features, action)], Raised e)
                              | (OutOfFuel, _) => ([(features, action)], Diverged)
                              end
                          | _, _ =>
                              (* a float is no index of [self.board] *)
                              ([(features, action)], Raised IndexError)
                          end
                      end
                end
          end
      | _ => replay board_size rest st
      end
  end.

Definition _game_to_samples (board_size : Z) (st : GoGameState) (moves : json)
  : list Sample * Outcome :=
  match iterate moves with
  | Ok l => replay board_size l st
  | Raise e => ([], Raised e)
  | OutOfFuel => ([], Diverged)
  end.

(** The body of [for game_index, line in enumerate(fh)].  [file_index] is
    only used by the ghost log. *)
Definition visit_line (cfg : DatasetConfig DataFile) (mode : Mode)
    (worker_id num_workers : Z) (file_index : nat) (game_index : Z) (line : Line)
    (p : Progress (nat * Z)) : Progress (nat * Z) * Control :=
  if negb (game_index mod num_workers =? worker_id) then (p, Next)
  else if limit_reached cfg p then (p, Stop Finished)
  else
    let p := {| games_seen := games_seen p + 1; yielded := yielded p;
                examined := examined p ++ [(file_index, game_index)] |} in
    match _selected cfg mode game_index with
    | Raise e => (p, Stop (Raised e))
    | OutOfFuel => (p, Stop Diverged)
    | Ok false => (p, Next)
    | Ok true =>
        match line with
        | Blank => (p, Next)
        | Malformed => (p, Stop (Raised JSONDecodeError))
        | Json moves =>
            match new (board_size cfg) with
            | Raise e => (p, Stop (Raised e))
            | OutOfFuel => (p, Stop Diverged)
            | Ok state =>
                let '(out, o) := _game_to_samples (board_size cfg) state moves in
                let p := {| games_seen := games_seen p; yielded := yielded p ++ out;
                            examined := examined p |} in
                match o with
                | Finished => (p, Next)
                | Raised e => if is_ValueError e then (p, Next) else (p, Stop (Raised e))
                | Diverged => (p, Stop Diverged)
                end
            end
        end
    end.

Fixpoint visit_lines (cfg : DatasetConfig DataFile) (mode : Mode)
    (worker_id num_workers : Z) (file_index : nat) (game_index : Z)
    (lines : list Line) (p : Progress (nat * Z)) : Progress (nat * Z) * Control :=
  match lines with
  | [] => (p, Next)
  | line :: lines' =>
      match visit_line cfg mode worker_id num_workers file_index game_index line p with
      | (p', Next) =>
          visit_lines cfg mode worker_id num_workers file_index (game_index + 1) lines' p'
      | (p', Stop o) => (p', Stop o)
      end
  end.

Fixpoint visit_files (cfg : DatasetConfig DataFile) (mode : Mode)
    (worker_id num_workers : Z) (file_index : nat) (files : list DataFile)
    (p : Progress (nat * Z)) : Progress (nat * Z) * Outcome :=
  match files with
  | [] => (p, Finished)
  | Unreadable :: _ => (p, Raised OSError)
  | Lines lines :: files' =>
      match visit_lines cfg mode worker_id num_workers file_index 0 lines p with
      | (p', Next) => visit_files cfg mode worker_id num_workers (S file_index) files' p'
      | (p', Stop o) => (p', o)
      end
  | Interrupted lines e :: _ =>
      match visit_lines cfg mode worker_id num_workers file_index 0 lines p with
      | (p', Next) => (p', Raised e)
      | (p', Stop o) => (p', o)
      end
  end.

(** [GoMoveDataset.__iter__] *)
Definition __iter__ (cfg : DatasetConfig DataFile) (mode : Mode)
    (worker_info : option (Z * Z)) : Progress (nat * Z) * Outcome :=
  let '(worker_id, num_workers) := worker worker_info in
  visit_files cfg mode worker_id num_workers 0 (data_files cfg) start.

(** The JSON of a recorded move, with its 1-indexed coordinates. *)
Definition encode (m : Move) : json :=
  let '(color, (x, y)) := m in JDict [(color, JList [JInt (x + 1); JInt (y + 1)])].

(** The games of the files, each by its file and its line number in that
    file, in the order of the iteration. *)
Definition line_positions (file_index : nat) (game_index : Z) (lines : list Line)
  : list (nat * Z) :=
  map (λ i, (file_index, i)) (seqZ game_index (Z.of_nat (length lines))).

Fixpoint positions (file_index : nat) (files : list DataFile) : list (nat * Z) :=
  match files with
  | [] => []
  | Unreadable :: files' => positions (S file_index) files'
  | Lines lines :: files' | Interrupted lines _ :: files' =>
      line_positions file_index 0 lines ++ positions (S file_index) files'
  end.

(** The number of lines in the first [file_index] files: what the line
    number in a file lacks to be the line number in the concatenation of
    the files. *)
Fixpoint stream_offset (files : list DataFile) (file_index : nat) : Z :=
  match file_index, files with
  | S k, Lines lines :: files' | S k, Interrupted lines _ :: files' =>
      Z.of_nat (length lines) + stream_offset files' k
  | S k, Unreadable :: files' => stream_offset files' k
  | _, _ => 0
  end.

End Compact.

(** ** [SgfGoMoveDataset]: one SGF file per game *)

Module Sgf.
Import Board Dataset.

(** What [node.get_move()] returns: [(None, None)], or a colour with a
    point or with [None]. *)
Abbreviation Node := (option Color * option coord)%type.

(** An SGF file: opening or parsing it raises, or gives a game with its
    size and main sequence, root node included. *)
Inductive SgfFile : Type :=
  | Unparsable (e : PyExc)
  | Game (get_size : Z) (get_main_sequence : list Node).

(** The loop over [main_sequence[1:]]. *)
Fixpoint replay (board_size : Z) (nodes : list Node) (st : GoGameState)
  : list Sample * Outcome :=
  match nodes with
  | [] => ([], Finished)
  | (None, _) :: rest => replay board_size rest st
  | (Some color, None) :: _ => ([], Raised TypeError)
  | (Some color, Some (x, y)) :: rest =>
      if negb ((0 <=? x) && (x <? board_size) && (0 <=? y) && (y <? board_size))
      then replay board_size rest st
      else
        let features := make_features st color in
        let action := y * board_size + x in
        match play_move color (x, y) st with
        | (Ok _, st') =>
            let '(out, o) := replay board_size rest st' in
            ((features, action) :: out, o)
        | (Raise e, _) =>
            if is_ValueError e then ([(features, action)], Finished)
            else ([(features, action)], Raised e)
        | (OutOfFuel, _) => ([(features, action)], Diverged)
        end
  end.

(** The body of [for file_index, sgf_path in enumerate(self.cfg.data_files)]. *)
Definition visit_file (cfg : DatasetConfig SgfFile) (mode : Mode)
    (worker_id num_workers : Z) (file_index : Z) (file : SgfFile)
    (p : Progress Z) : Progress Z * Control :=
  if negb (file_index mod num_workers =? worker_id) then (p, Next)
  else if limit_reached cfg p then (p, Stop Finished)
  else
    let p := {| games_seen := games_seen p; yielded := yielded p;
                examined := examined p ++ [file_index] |} in
    match _selected cfg mode file_index with
    | Raise e => (p, Stop (Raised e))
    | OutOfFuel => (p, Stop Diverged)
    | Ok false => (p, Next)
    | Ok true =>
        match file with
        | Unparsable _ => (p, Next)
        | Game get_size main_sequence =>
            if negb (get_size =? board_size cfg) then (p, Next)
            else
              match new (board_size cfg) with
              | Raise _ => (p, Next)
              | OutOfFuel => (p, Stop Diverged)
              | Ok state =>
                  let '(out, o) := replay (board_size cfg) (drop 1 main_sequence) state in
                  match o with
                  | Finished =>
                      ({| games_seen := games_seen p + 1; yielded := yielded p ++ out;
                          examined := examined p |}, Next)
                  | Raised _ =>
                      ({| games_seen := games_seen p; yielded := yielded p ++ out;
                          examined := examined p |}, Next)
                  | Diverged =>
                      ({| games_seen := games_seen p; yielded := yielded p ++ out;
                          examined := examined p |}, Stop Diverged)
                  end
              end
        end
    end.

Fixpoint visit_files (cfg : DatasetConfig SgfFile) (mode : Mode)
    (worker_id num_workers : Z) (file_index : Z) (files : list SgfFile)
    (p : Progress Z) : Progress Z * Outcome :=
  match files with
  | [] => (p, Finished)
  | file :: files' =>
      match visit_file cfg mode worker_id num_workers file_index file p with
      | (p', Next) => visit_files cfg mode worker_id num_workers (file_index + 1) files' p'
      | (p', Stop o) => (p', o)
      end
  end.

(** [SgfGoMoveDataset.__iter__] *)
Definition __iter__ (cfg : DatasetConfig SgfFile) (mode : Mode)
    (worker_info : option (Z * Z)) : Progress Z * Outcome :=
  let '(worker_id, num_workers) := worker worker_info in
  visit_files cfg mode worker_id num_workers 0 (data_files cfg) start.

(** The node of a recorded move. *)
Definition encode (m : Move) : Node := (Some m.1, Some m.2).

End Sgf.

(** ** [play.py]: the console player *)

Module Play.
Import Board.

(** [to_xy]: [divmod(index, size)] of Python integers raises
    [ZeroDivisionError] when [size] is 0, which is [None] here.  No board
    has size 0. *)
Definition to_xy (index size : Z) : option coord :=
  if size =? 0 then None else Some (index mod size, index / size).

Definition to_index (x y size : Z) : Z := y * size + x.

(** How a call of [human_move] ends: it returns, [SystemExit] is raised,
    or an exception of [play_move] other than [ValueError] leaves it. *)
Inductive Reply : Type :=
  | Returned (b : bool)
  | SystemExit
  | Failed (e : PyExc)
  | Endless.

Section human.
(** [move_str.strip().lower()] *)
Variable normalize : string → string.
(** [move_str.replace(",", " ").split()] *)
Variable split_parts : string → list string.
(** [int(s)], [None] when it raises [ValueError] *)
Variable parse_int : string → option Z.

Definition human_move (st : GoGameState) (color : Color) (move_str : string)
  : Reply * GoGameState :=
  let move_str := normalize move_str in
  if bool_decide (move_str ∈ ["pass"; "p"]) then (Returned true, st)
  else if bool_decide (move_str ∈ ["quit"; "exit"; "resign"]) then (SystemExit, st)
  else
    match split_parts move_str with
    | [a; b] =>
        match parse_int a with
        | None => (Returned false, st)
        | Some x =>
            match parse_int b with
            | None => (Returned false, st)
            | Some y =>
                if negb ((1 <=? x) && (x <=? size st) && (1 <=? y) && (y <=? size st))
                then (Returned false, st)
                else
                  match play_move color (x - 1, y - 1) st with
                  | (Ok _, st') => (Returned true, st')
                  | (Raise e, st') =>
                      if is_ValueError e then (Returned false, st') else (Failed e, st')
                  | (OutOfFuel, st') => (Endless, st')
                  end
            end
        end
    | _ => (Returned false, st)
    end.
End human.

(** How a search for the move of the model ends. *)
Inductive Search (P : Type) : Type :=
  | Chosen (move : option coord) (suggestions : list (Z * Z * P))
  | SearchRaised (e : PyExc)
  | SearchZeroDivision
  | SearchEndless.
Arguments Chosen {P} move suggestions.
Arguments SearchRaised {P} e.
Arguments SearchZeroDivision {P}.
Arguments SearchEndless {P}.

(** The trial of a move on a copy: [temp = GoGameState(size)],
    [temp.board = state.board.copy()], [temp.play_move(color, (x, y))].
    [None] is for a [ValueError], caught by the caller. *)
Definition try_on_copy (st : GoGameState) (color : Color) (c : coord)
  : Res (option unit) :=
  match new (size st) with
  | Ok temp =>
      match play_move color c {| size := size temp; board := board st |} with
      | (Ok _, _) => Ok (Some tt)
      | (Raise e, _) => if is_ValueError e then Ok None else Raise e
      | (OutOfFuel, _) => OutOfFuel
      end
  | Raise e => if is_ValueError e then Ok None else Raise e
  | OutOfFuel => OutOfFuel
  end.

Section ai.
(** The probabilities the model gives to the indices, of a type left
    open. *)
Variable P : Type.
Variable probs : Z → P.

(** The loop of [ai_move] over [order], the indices by decreasing
    probability. *)
Fixpoint ai_loop (st : GoGameState) (color : Color) (topk : Z) (order : list Z)
    (suggestions : list (Z * Z * P)) : Search P :=
  match order with
  | [] => Chosen None suggestions
  | idx :: rest =>
      match to_xy idx (size st) with
      | None => SearchZeroDivision
      | Some (x, y) =>
          match getitem st y x with
          | Raise e => SearchRaised e
          | OutOfFuel => SearchEndless
          | Ok v =>
              if negb (v =? 0) then ai_loop st color topk rest suggestions
              else
                let suggestions :=
                  if Z.of_nat (length suggestions) <? topk
                  then suggestions ++ [(x + 1, y + 1, probs idx)]
                  else suggestions in
                match try_on_copy st color (x, y) with
                | Ok None => ai_loop st color topk rest suggestions
                | Ok (Some _) => Chosen (Some (x, y)) suggestions
                | Raise e => SearchRaised e
                | OutOfFuel => SearchEndless
                end
          end
      end
  end.

Definition ai_move (st : GoGameState) (color : Color) (topk : Z) (order : list Z)
  : Search P :=
  ai_loop st color topk order [].
End ai.

End Play.

(** ** [go_gui.py]: the board canvas and the clicks *)

Module Gui.
Import Board.

(** The fields of [GoBoardCanvas] that hold the position shown. *)
Record Canvas : Type := {
  stones : gmap coord Z;
  last_move : option coord;
  captured_stones : list coord
}.

(** [add_stone], without the drawing and the timer of the capture marks:
    [show_capture_effect] stores the captured stones, [redraw] stores
    nothing. *)
Definition add_stone (x y color : Z) (captured : list coord) (cv : Canvas) : Canvas :=
  let stones := <[(x, y) := color]> (stones cv) in
  match captured with
  | [] => {| stones := stones; last_move := Some (x, y);
             captured_stones := captured_stones cv |}
  | _ =>
      {| stones := foldl (λ s c, match s !! c with
                                 | Some _ => delete c s
                                 | None => s
                                 end) stones captured;
         last_move := Some (x, y);
         captured_stones := captured |}
  end.

Record Game : Type := {
  board_size : Z;
  human_color : Color;
  ai_color : Color;
  current_player : Color;
  game_active : bool;
  move_count : Z;
  game_state : GoGameState;
  board_canvas : Canvas
}.

(** [_switch_player], without the status label. *)
Definition _switch_player (g : Game) : Game :=
  let current := if String.eqb (current_player g) "B" then "W" else "B" in
  {| board_size := board_size g; human_color := human_color g; ai_color := ai_color g;
     current_player := current;
     game_active := if move_count g >=? board_size g * board_size g then false
                    else game_active g;
     move_count := move_count g; game_state := game_state g;
     board_canvas := board_canvas g |}.

(** [_on_board_click], without the message boxes and the scheduling of
    the reply of the model.  The second component is the exception that
    leaves the handler, if any ([ValueError] is caught). *)
Definition _on_board_click (x y : Z) (g : Game) : Game * option (Res unit) :=
  if negb (game_active g) || negb (String.eqb (current_player g) (human_color g))
  then (g, None)
  else
    match stones (board_canvas g) !! (x, y) with
    | Some _ => (g, None)
    | None =>
        match play_move (current_player g) (x, y) (game_state g) with
        | (Ok captured, st') =>
            let cv := add_stone x y (if String.eqb (current_player g) "B" then 1 else -1)
                        captured (board_canvas g) in
            let g1 := {| board_size := board_size g; human_color := human_color g;
                         ai_color := ai_color g; current_player := current_player g;
                         game_active := game_active g; move_count := move_count g;
                         game_state := st'; board_canvas := cv |} in
            let g2 := _switch_player g1 in
            ({| board_size := board_size g2; human_color := human_color g2;
                ai_color := ai_color g2; current_player := current_player g2;
                game_active := game_active g2; move_count := move_count g2 + 1;
                game_state := game_state g2; board_canvas := board_canvas g2 |}, None)
        | (Raise e, st') =>
            let g1 := {| board_size := board_size g; human_color := human_color g;
                         ai_color := ai_color g; current_player := current_player g;
                         game_active := game_active g; move_count := move_count g;
                         game_state := st'; board_canvas := board_canvas g |} in
            if is_ValueError e then (g1, None) else (g1, Some (Raise e))
        | (OutOfFuel, st') => (g, Some OutOfFuel)
        end
    end.

(** [self.move_count += 1] *)
Definition count_move (g : Game) : Game :=
  {| board_size := board_size g; human_color := human_color g; ai_color := ai_color g;
     current_player := current_player g; game_active := game_active g;
     move_count := move_count g + 1; game_state := game_state g;
     board_canvas := board_canvas g |}.

(** [self.game_active = False] *)
Definition stop_game (g : Game) : Game :=
  {| board_size := board_size g; human_color := human_color g; ai_color := ai_color g;
     current_player := current_player g; game_active := false;
     move_count := move_count g; game_state := game_state g;
     board_canvas := board_canvas g |}.

(** [_human_pass], without the scheduling of the reply of the model. *)
Definition _human_pass (g : Game) : Game :=
  if negb (game_active g) || negb (String.eqb (current_player g) (human_color g))
  then g
  else count_move (_switch_player g).

(** [_restart_game], without the drawing and the timers: [GoGameState]
    can raise. *)
Definition _restart_game (g : Game) : Res Game :=
  match new (board_size g) with
  | Ok st =>
      Ok {| board_size := board_size g; human_color := human_color g;
            ai_color := ai_color g; current_player := "B"; game_active := true;
            move_count := 0; game_state := st;
            board_canvas := {| stones := ∅; last_move := None; captured_stones := [] |} |}
  | Raise e => Raise e
  | OutOfFuel => OutOfFuel
  end.

Section ai.
Variable P : Type.
Variable probs : Z → P.

(** The loop of [_get_ai_move]: every empty point is a suggestion, and
    the points are tried as long as no move was found. *)
Fixpoint get_ai_loop (st : GoGameState) (color : Color) (n : Z) (order : list Z)
    (best_move : option coord) (suggestions : list (Z * Z * P)) : Play.Search P :=
  match order with
  | [] => Play.Chosen best_move suggestions
  | idx :: rest =>
      match Play.to_xy idx n with
      | None => Play.SearchZeroDivision
      | Some (x, y) =>
          match getitem st y x with
          | Raise e => Play.SearchRaised e
          | OutOfFuel => Play.SearchEndless
          | Ok v =>
              if negb (v =? 0) then get_ai_loop st color n rest best_move suggestions
              else
                let suggestions := suggestions ++ [(x + 1, y + 1, probs idx)] in
                match best_move with
                | Some _ => get_ai_loop st color n rest best_move suggestions
                | None =>
                    match new n with
                    | Ok temp =>
                        match play_move color (x, y)
                                {| size := size temp; board := board st |} with
                        | (Ok _, _) =>
                            get_ai_loop st color n rest (Some (x, y)) suggestions
                        | (Raise e, _) =>
                            if is_ValueError e
                            then get_ai_loop st color n rest None suggestions
                            else Play.SearchRaised e
                        | (OutOfFuel, _) => Play.SearchEndless
                        end
                    | Raise e =>
                        if is_ValueError e
                        then get_ai_loop st color n rest None suggestions
                        else Play.SearchRaised e
                    | OutOfFuel => Play.SearchEndless
                    end
                end
          end
      end
  end.

(** [_get_ai_move] of a game: the board size is [self.board_size], the
    board that of [self.game_state]. *)
Definition _get_ai_move (g : Game) (order : list Z) : Play.Search P :=
  get_ai_loop (game_state g) (current_player g) (board_size g) order None [].

(** [_ai_move]: the move of [_get_ai_move] is played, or the turn is
    passed when there is none; [except Exception] stops the game.  [order]
    is what [np.argsort] gives for the output of the model, whose call is
    not part of this model.  [None] is for a call that does not end. *)
Definition _ai_move (g : Game) (order : list Z) : option Game :=
  if negb (game_active g) || negb (String.eqb (current_player g) (ai_color g))
  then Some g
  else
    match _get_ai_move g order with
    | Play.Chosen None _ => Some (count_move (_switch_player g))
    | Play.Chosen (Some (x, y)) _ =>
        match play_move (current_player g) (x, y) (game_state g) with
        | (Ok captured, st') =>
            let cv := add_stone x y (if String.eqb (current_player g) "B" then 1 else -1)
                        captured (board_canvas g) in
            Some (count_move (_switch_player
              {| board_size := board_size g; human_color := human_color g;
                 ai_color := ai_color g; current_player := current_player g;
                 game_active := game_active g; move_count := move_count g;
                 game_state := st'; board_canvas := cv |}))
        | (Raise e, st') =>
            Some (stop_game
              {| board_size := board_size g; human_color := human_color g;
                 ai_color := ai_color g; current_player := current_player g;
                 game_active := game_active g; move_count := move_count g;
                 game_state := st'; board_canvas := board_canvas g |})
        | (OutOfFuel, _) => None
        end
    | Play.SearchRaised _ | Play.SearchZeroDivision => Some (stop_game g)
    | Play.SearchEndless => None
    end.
End ai.

End Gui.

(** * Properties *)

Module BoardFacts.
Import Board Rules.

(** ** Array indexing *)

Definition square (n : Z) (b : list (list Z)) : Prop :=
  Z.of_nat (length b) = n ∧ Forall (λ row, Z.of_nat (length row) = n) b.

Lemma wf_square st : wf st → square (size st) (board st).
Proof. intros (_ & ? & ?). by split. Qed.

Lemma py_index_lt n i r : py_index n i = Some r → (Z.of_nat r < n).
Proof.
  unfold py_index. intros H.
  destruct (0 <=? i) eqn:E1, (i <? n) eqn:E2; simpl in H;
    try (injection H as <-; lia);
    destruct (- n <=? i) eqn:E3, (i <? 0) eqn:E4; simpl in H;
    try discriminate; injection H as <-; lia.
Qed.

Lemma py_index_nonneg n i : 0 ≤ i < n → py_index n i = Some (Z.to_nat i).
Proof.
  intros H. unfold py_index.
  destruct (0 <=? i) eqn:E1; [|lia]. destruct (i <? n) eqn:E2; [done|lia].
Qed.

Lemma square_row n b r row : square n b → b !! r = Some row → Z.of_nat (length row) = n.
Proof.
  intros [_ Hrows] Hr. rewrite Forall_forall in Hrows.
  apply Hrows. by eapply list_elem_of_lookup_2.
Qed.

Lemma square_lookup n b r : square n b → Z.of_nat r < n → is_Some (b !! r).
Proof. intros [Hlen _] Hr. apply lookup_lt_is_Some. lia. Qed.

(** On a square array, reading and writing go through the two indices. *)
Lemma cell_idx n b y x r c :
  square n b → py_index n y = Some r → py_index n x = Some c →
  cell b y x = b !! r ≫= (.!! c).
Proof.
  intros Hsq Hy Hx. unfold cell. destruct Hsq as [Hlen Hrows].
  rewrite Hlen, Hy. simpl.
  destruct (b !! r) as [row|] eqn:Hr; simpl; [|done].
  rewrite (square_row n b r row); [|by split|done]. by rewrite Hx.
Qed.

Lemma cell_is_Some n b y x r c :
  square n b → py_index n y = Some r → py_index n x = Some c →
  is_Some (cell b y x).
Proof.
  intros Hsq Hy Hx. rewrite (cell_idx n b y x r c) by done.
  destruct (square_lookup n b r Hsq (py_index_lt _ _ _ Hy)) as [row Hrow].
  rewrite Hrow. simpl. apply lookup_lt_is_Some.
  pose proof (square_row _ _ _ _ Hsq Hrow). pose proof (py_index_lt _ _ _ Hx). lia.
Qed.

Lemma set_cell_idx n b y x v r c :
  square n b → py_index n y = Some r → py_index n x = Some c →
  ∃ row, b !! r = Some row ∧ set_cell b y x v = Some (<[r := <[c := v]> row]> b).
Proof.
  intros Hsq Hy Hx.
  destruct (square_lookup n b r Hsq (py_index_lt _ _ _ Hy)) as [row Hrow].
  exists row. split; [done|]. unfold set_cell.
  destruct Hsq as [Hlen Hrows]. rewrite Hlen, Hy. simpl. rewrite Hrow. simpl.
  rewrite (square_row n b r row); [|by split|done]. by rewrite Hx.
Qed.

Lemma square_insert n b r c v row :
  square n b → b !! r = Some row → square n (<[r := <[c := v]> row]> b).
Proof.
  intros Hsq Hrow. pose proof (square_row _ _ _ _ Hsq Hrow) as Hl.
  destruct Hsq as [Hlen Hrows]. split.
  - by rewrite length_insert.
  - apply Forall_insert; [done|]. by rewrite length_insert.
Qed.

Lemma lookup_insert_cell (b : list (list Z)) (r c : nat) (v : Z) (row : list Z)
    (r' c' : nat) :
  b !! r = Some row → (c < length row)%nat →
  <[r := <[c := v]> row]> b !! r' ≫= (.!! c')
  = if decide ((r, c) = (r', c')) then Some v else b !! r' ≫= (.!! c').
Proof.
  intros Hrow Hc. pose proof (lookup_lt_Some _ _ _ Hrow) as Hr.
  destruct (decide (r = r')) as [<-|Hne].
  - rewrite list_lookup_insert_eq by done. simpl. rewrite Hrow. simpl.
    destruct (decide (c = c')) as [<-|Hnc].
    + rewrite list_lookup_insert_eq by done. by rewrite decide_True.
    + rewrite list_lookup_insert_ne by done. rewrite decide_False; [done|congruence].
  - rewrite list_lookup_insert_ne by done. rewrite decide_False; [done|congruence].
Qed.

Lemma elem_of_concat {A} (x : A) (ls : list (list A)) :
  x ∈ concat ls ↔ ∃ l, x ∈ l ∧ l ∈ ls.
Proof.
  induction ls as [|l ls IH]; simpl.
  - split; [by intros ?%elem_of_nil|]. by intros (l & _ & ?%elem_of_nil).
  - rewrite elem_of_app, IH. split.
    + intros [Hx|(l' & Hx & Hl')]; [exists l|exists l'];
        (split; [done|]); [left|by right].
    + intros (l' & Hx & [->|Hl']%elem_of_cons); [by left|right; eauto].
Qed.

(** ** Running the monad *)

Lemma bind_run {A B} (m : M A) (k : A → M B) st :
  (m ≫= k) st =
  match m st with
  | (Ok a, st') => k a st'
  | (Raise e, st') => (Raise e, st')
  | (OutOfFuel, st') => (OutOfFuel, st')
  end.
Proof. reflexivity. Qed.

Lemma for_loop_cons {A S} (a : A) l (body : S → A → M S) acc st :
  for_loop (a :: l) body acc st =
  match body acc a st with
  | (Ok acc', st') => for_loop l body acc' st'
  | (Raise e, st') => (Raise e, st')
  | (OutOfFuel, st') => (OutOfFuel, st')
  end.
Proof. reflexivity. Qed.

Lemma for_loop_nil {A S} (body : S → A → M S) acc st :
  for_loop [] body acc st = (Ok acc, st).
Proof. reflexivity. Qed.

(** ** Cells of a well-formed state *)

Lemma at_nat st p :
  wf st → inb st p →
  at_ st p = board st !! Z.to_nat p.2 ≫= (.!! Z.to_nat p.1).
Proof.
  intros Hwf [Hx Hy]. unfold at_.
  apply (cell_idx (size st)); auto using wf_square, py_index_nonneg.
Qed.

Lemma at_is_Some st p : wf st → inb st p → is_Some (at_ st p).
Proof.
  intros Hwf [Hx Hy]. unfold at_.
  eapply (cell_is_Some (size st)); eauto using wf_square, py_index_nonneg.
Qed.

Lemma getitem_at st x y : getitem st y x = from_option Ok (Raise IndexError) (at_ st (x, y)).
Proof. unfold getitem, at_. simpl. by destruct (cell _ _ _). Qed.

Lemma getitem_Ok st x y v : at_ st (x, y) = Some v → getitem st y x = Ok v.
Proof. intros H. by rewrite getitem_at, H. Qed.

(** Writing an in-range cell: no exception, the shape is kept, and only
    that cell changes. *)
Lemma setitem_spec st x y v :
  wf st → inb st (x, y) →
  ∃ st', setitem y x v st = (Ok tt, st') ∧ wf st' ∧ size st' = size st ∧
         ∀ q, inb st q → at_ st' q = if decide (q = (x, y)) then Some v else at_ st q.
Proof.
  intros Hwf [Hx Hy]. simpl in Hx, Hy.
  pose proof (wf_square _ Hwf) as Hsq.
  destruct (set_cell_idx (size st) (board st) y x v _ _ Hsq
              (py_index_nonneg _ _ Hy) (py_index_nonneg _ _ Hx)) as (row & Hrow & Hset).
  eexists. unfold setitem. rewrite Hset. split; [done|].
  pose proof (square_insert _ _ _ (Z.to_nat x) v _ Hsq Hrow) as [Hlen' Hrows'].
  assert (Hwf' : wf {| size := size st;
                       board := <[Z.to_nat y := <[Z.to_nat x := v]> row]> (board st) |}).
  { destruct Hwf as (Hs & _). by split. }
  split; [done|]. split; [done|].
  intros [qx qy] Hq. rewrite (at_nat _ _ Hwf') by done. rewrite (at_nat _ _ Hwf Hq).
  simpl. rewrite (lookup_insert_cell _ _ _ _ row) by
    (try done; pose proof (square_row _ _ _ _ Hsq Hrow); lia).
  destruct Hq as [Hqx Hqy]; simpl in *.
  repeat case_decide; simplify_eq; try done; exfalso;
    match goal with H : _ ≠ _ |- _ => apply H end; f_equal; lia.
Qed.

(** Two well-formed states of one size with the same cells are equal. *)
Lemma state_ext st st' :
  wf st → wf st' → size st = size st' →
  (∀ q, inb st q → at_ st q = at_ st' q) → st = st'.
Proof.
  intros Hwf Hwf' Hsz Hat.
  destruct st as [n b], st' as [n' b']. simpl in *. subst n'. f_equal.
  pose proof (wf_square _ Hwf) as Hsq. pose proof (wf_square _ Hwf') as Hsq'.
  simpl in *. apply list_eq. intros r.
  destruct (decide (Z.of_nat r < n)) as [Hr|Hr].
  - destruct (square_lookup _ _ _ Hsq Hr) as [row Hrow].
    destruct (square_lookup _ _ _ Hsq' Hr) as [row' Hrow'].
    rewrite Hrow, Hrow'. f_equal. apply list_eq. intros c.
    destruct (decide (Z.of_nat c < n)) as [Hc|Hc].
    + specialize (Hat (Z.of_nat c, Z.of_nat r)).
      rewrite (at_nat _ _ Hwf), (at_nat _ _ Hwf') in Hat by (split; simpl; lia).
      simpl in Hat. rewrite !Nat2Z.id, Hrow, Hrow' in Hat. simpl in Hat.
      apply Hat. split; simpl; lia.
    + pose proof (square_row _ _ _ _ Hsq Hrow). pose proof (square_row _ _ _ _ Hsq' Hrow').
      rewrite !lookup_ge_None_2; [done|lia|lia].
  - destruct Hsq as [Hl _], Hsq' as [Hl' _].
    rewrite !lookup_ge_None_2; [done|lia|lia].
Qed.

(** ** Neighbours *)

Lemma elem_of_neighbors_cases st x y q :
  q ∈ _neighbors st x y ↔
    (0 < x ∧ q = (x - 1, y)) ∨ (x + 1 < size st ∧ q = (x + 1, y)) ∨
    (0 < y ∧ q = (x, y - 1)) ∨ (y + 1 < size st ∧ q = (x, y + 1)).
Proof.
  unfold _neighbors. rewrite !elem_of_app.
  destruct (Z.ltb_spec 0 x), (Z.ltb_spec (x + 1) (size st)),
    (Z.ltb_spec 0 y), (Z.ltb_spec (y + 1) (size st));
    rewrite ?elem_of_nil, ?list_elem_of_singleton; intuition lia.
Qed.

Lemma elem_of_neighbors st p q :
  inb st p → q ∈ _neighbors st p.1 p.2 ↔ inb st q ∧ adjacent p q.
Proof.
  destruct p as [x y], q as [a b]. unfold inb, adjacent. simpl.
  intros [Hx Hy]. rewrite elem_of_neighbors_cases. split.
  - intros [[? E]|[[? E]|[[? E]|[? E]]]]; injection E as -> ->; lia.
  - intros [[? ?] ?].
    assert (a = x - 1 ∧ b = y ∨ a = x + 1 ∧ b = y ∨
            a = x ∧ b = y - 1 ∨ a = x ∧ b = y + 1) as Hc by lia.
    destruct Hc as [[-> ->]|[[-> ->]|[[-> ->]|[-> ->]]]].
    + left. split; [lia|done].
    + right; left. split; [lia|done].
    + right; right; left. split; [lia|done].
    + right; right; right. split; [lia|done].
Qed.

Lemma adjacent_sym p q : adjacent p q → adjacent q p.
Proof. unfold adjacent. lia. Qed.

Lemma neighbors_inb st p q : inb st p → q ∈ _neighbors st p.1 p.2 → inb st q.
Proof. intros Hp Hq. by apply (elem_of_neighbors st p q Hp) in Hq as [? _]. Qed.

(** ** The flood fill *)

Lemma connected_inb st p q : inb st p → connected st p q → inb st q.
Proof. intros Hp H. by destruct H. Qed.

Lemma connected_at st p q : connected st p q → at_ st q = at_ st p.
Proof. intros H. by destruct H. Qed.

Section flood_fill.
Variable st : GoGameState.
Variable p : coord.
Variable v : Z.
Hypothesis Hwf : wf st.
Hypothesis Hp : inb st p.
Hypothesis Hv : at_ st p = Some v.
Hypothesis Hv0 : v ≠ 0.

(** One neighbour: a liberty, a new stone of the group, or nothing. *)
Lemma scan_spec f n :
  inb st n →
  ∃ f', scan st v f n = Ok f' ∧ group f' = group f ∧
    liberties f' = (if decide (at_ st n = Some 0) then {[n]} ∪ liberties f
                    else liberties f) ∧
    visited f' = (if decide (at_ st n = Some v) then {[n]} ∪ visited f
                  else visited f) ∧
    stack f' = (if decide (at_ st n = Some v ∧ n ∉ visited f) then n :: stack f
                else stack f).
Proof.
  intros Hn. destruct (at_is_Some st n Hwf Hn) as [w Hw].
  destruct n as [nx ny]. unfold scan. rewrite (getitem_Ok _ _ _ _ Hw). simpl.
  rewrite Hw. destruct (Z.eqb_spec w 0) as [->|Hw0]; simpl.
  - eexists. split; [done|]. simpl.
    repeat case_decide; simplify_eq; try done; naive_solver.
  - destruct (Z.eqb_spec w v) as [->|Hwv]; simpl.
    + destruct (decide ((nx, ny) ∈ visited f)) as [Hin|Hin];
        [rewrite bool_decide_true by done|rewrite bool_decide_false by done];
        simpl; (eexists; split; [done|]); simpl;
        repeat case_decide; simplify_eq; try done; try naive_solver.
      repeat split. set_solver.
    + eexists. split; [done|].
      repeat case_decide; simplify_eq; try done; naive_solver.
Qed.

(** All the neighbours of one stone. *)
Lemma scan_all_spec ns f :
  (∀ n, n ∈ ns → inb st n) →
  ∃ f' new, scan_all st v f ns = Ok f' ∧ group f' = group f ∧
    stack f' = new ++ stack f ∧ NoDup new ∧
    (∀ r, r ∈ new ↔ r ∈ ns ∧ at_ st r = Some v ∧ r ∉ visited f) ∧
    (∀ r, r ∈ visited f' ↔ r ∈ visited f ∨ (r ∈ ns ∧ at_ st r = Some v)) ∧
    (∀ r, r ∈ liberties f' ↔ r ∈ liberties f ∨ (r ∈ ns ∧ at_ st r = Some 0)).
Proof.
  revert f. induction ns as [|n ns IH]; intros f Hns.
  - exists f, []. simpl. repeat split; try done; try constructor; set_solver.
  - destruct (scan_spec f n) as (f1 & Hscan & Hg1 & Hl1 & Hv1 & Hs1);
      [apply Hns; left|].
    destruct (IH f1) as (f' & new & Hall & Hg & Hs & Hnd & Hnew & Hvis & Hlib);
      [intros; apply Hns; by right|].
    simpl. rewrite Hscan. simpl. rewrite Hall. clear IH Hscan Hall Hns.
    exists f'.
    exists (if decide (at_ st n = Some v ∧ n ∉ visited f) then new ++ [n] else new).
    split; [done|]. split; [congruence|].
    rewrite Hs, Hs1. clear Hs Hs1 Hg Hg1.
    assert (Hl1' : ∀ r, r ∈ liberties f1 ↔
                        r ∈ liberties f ∨ (r = n ∧ at_ st n = Some 0)).
    { intros r. rewrite Hl1. destruct (decide (at_ st n = Some 0)).
      - rewrite elem_of_union, elem_of_singleton. tauto.
      - tauto. }
    assert (Hv1' : ∀ r, r ∈ visited f1 ↔
                        r ∈ visited f ∨ (r = n ∧ at_ st n = Some v)).
    { intros r. rewrite Hv1. destruct (decide (at_ st n = Some v)).
      - rewrite elem_of_union, elem_of_singleton. tauto.
      - tauto. }
    clear Hl1 Hv1.
    destruct (decide (at_ st n = Some v ∧ n ∉ visited f)) as [Hc|Hc].
    + split; [by rewrite <- app_assoc|]. split; [|split; [|split]].
      * apply NoDup_app. split; [done|]. split; [|apply NoDup_singleton].
        intros r Hr ->%list_elem_of_singleton. apply Hnew in Hr as (_ & _ & Hr).
        apply Hr, Hv1'. tauto.
      * intros r. rewrite elem_of_cons, elem_of_app, list_elem_of_singleton.
        rewrite Hnew, Hv1'. destruct (decide (r = n)) as [->|Hne]; tauto.
      * intros r. rewrite Hvis, Hv1', elem_of_cons.
        destruct (decide (r = n)) as [->|Hne]; tauto.
      * intros r. rewrite Hlib, Hl1', elem_of_cons.
        destruct (decide (r = n)) as [->|Hne]; tauto.
    + split; [done|]. split; [done|]. split; [|split].
      * intros r. rewrite elem_of_cons, Hnew, Hv1'.
        destruct (decide (r = n)) as [->|Hne]; [|tauto].
        destruct (decide (n ∈ visited f)); tauto.
      * intros r. rewrite Hvis, Hv1', elem_of_cons.
        destruct (decide (r = n)) as [->|Hne]; tauto.
      * intros r. rewrite Hlib, Hl1', elem_of_cons.
        destruct (decide (r = n)) as [->|Hne]; tauto.
Qed.

(** What holds of the locals each time the [while] test is evaluated. *)
Record Inv (f : fill) : Prop := {
  inv_visited : ∀ q, q ∈ visited f ↔ q ∈ stack f ∨ q ∈ group f;
  inv_nodup : NoDup (stack f ++ group f);
  inv_sound : ∀ q, q ∈ visited f → connected st p q;
  inv_closed : ∀ q r, q ∈ group f → inb st r → adjacent q r →
                      at_ st r = Some v → r ∈ visited f;
  inv_libs : ∀ r, r ∈ liberties f ↔
                  inb st r ∧ at_ st r = Some 0 ∧ ∃ q, q ∈ group f ∧ adjacent q r;
  inv_start : p ∈ visited f
}.

Lemma Inv_init :
  Inv {| stack := [p]; visited := {[p]}; group := []; liberties := ∅ |}.
Proof.
  split; simpl.
  - intros q. rewrite elem_of_singleton, list_elem_of_singleton, elem_of_nil. tauto.
  - apply NoDup_singleton.
  - intros q ->%elem_of_singleton. constructor.
  - intros q r Hq. by apply elem_of_nil in Hq.
  - intros r. split; [set_solver|]. intros (_ & _ & q & Hq & _).
    by apply elem_of_nil in Hq.
  - set_solver.
Qed.

Lemma Inv_inb f q : Inv f → q ∈ visited f → inb st q ∧ at_ st q = Some v.
Proof.
  intros HI Hq. apply (inv_sound f HI) in Hq. split.
  - by apply (connected_inb st p).
  - by rewrite (connected_at st p q Hq).
Qed.

(** One iteration of the [while] loop. *)
Lemma Inv_step f c rest :
  Inv f → stack f = c :: rest →
  ∃ f', scan_all st v
          {| stack := rest; visited := visited f;
             group := group f ++ [c]; liberties := liberties f |}
          (_neighbors st c.1 c.2) = Ok f' ∧
        Inv f' ∧ group f' = group f ++ [c].
Proof.
  intros HI Hst.
  assert (Hc : c ∈ visited f) by (apply (inv_visited f HI); rewrite Hst; left; left).
  destruct (Inv_inb f c HI Hc) as [Hcin Hcv].
  pose proof (inv_sound f HI c Hc) as Hcc.
  set (f0 := {| stack := rest; visited := visited f;
                group := group f ++ [c]; liberties := liberties f |}).
  destruct (scan_all_spec (_neighbors st c.1 c.2) f0)
    as (f' & new & Hall & Hg & Hs & Hnd & Hnew & Hvis & Hlib).
  { intros n Hn. by apply (neighbors_inb st c). }
  simpl in *. exists f'. split; [done|]. split; [|done].
  pose proof (inv_nodup f HI) as Hnd0. rewrite Hst in Hnd0.
  split.
  - intros q. rewrite Hvis, Hs, Hg, !elem_of_app, Hnew, list_elem_of_singleton.
    pose proof (inv_visited f HI q) as Hq'. rewrite Hst, elem_of_cons in Hq'.
    destruct (decide (q ∈ visited f)) as [Hq|Hq]; tauto.
  - rewrite Hs, Hg. simpl in Hnd0.
    apply NoDup_cons in Hnd0 as [Hc' Hnd0]. apply NoDup_app in Hnd0 as (? & Hd & ?).
    rewrite elem_of_app in Hc'.
    rewrite <- app_assoc. apply NoDup_app. split; [done|]. split.
    + intros q Hq. apply Hnew in Hq as (_ & _ & Hq). intros Hq'. apply Hq.
      apply (inv_visited f HI). rewrite Hst, elem_of_cons.
      rewrite !elem_of_app, list_elem_of_singleton in Hq'. tauto.
    + apply NoDup_app. split; [done|]. split.
      * intros q Hq. rewrite elem_of_app, list_elem_of_singleton.
        intros [Hq'| ->]; [by eapply Hd|tauto].
      * apply NoDup_app. split; [done|]. split; [|apply NoDup_singleton].
        intros q Hq ->%list_elem_of_singleton. tauto.
  - intros q. rewrite Hvis. intros [Hq|[Hq Hqv]]; [by apply (inv_sound f HI)|].
    apply (elem_of_neighbors st c q Hcin) in Hq as [Hqin Hadj].
    apply (connected_step st p c q); [done..|congruence].
  - intros q r. rewrite Hg, elem_of_app, list_elem_of_singleton, Hvis.
    intros [Hq| ->] Hr Hadj Hrv.
    + left. by apply (inv_closed f HI q r).
    + right. split; [|done]. by apply (elem_of_neighbors st c r Hcin).
  - intros r. rewrite Hlib, (inv_libs f HI r), Hg. split.
    + intros [(? & ? & q & Hq & ?)|[Hr ?]].
      * split; [done|]. split; [done|]. exists q. rewrite elem_of_app. tauto.
      * apply (elem_of_neighbors st c r Hcin) in Hr as [? ?].
        split; [done|]. split; [done|]. exists c.
        rewrite elem_of_app, list_elem_of_singleton. tauto.
    + intros (? & ? & q & Hq & ?).
      rewrite elem_of_app, list_elem_of_singleton in Hq. destruct Hq as [Hq| ->].
      * left. eauto.
      * right. split; [|done]. by apply (elem_of_neighbors st c r Hcin).
  - apply Hvis. left. apply (inv_start f HI).
Qed.

(** The in-range coordinates, to bound the number of iterations. *)
Definition all_cells : list coord :=
  list_prod (seqZ 0 (size st)) (seqZ 0 (size st)).

Lemma all_cells_length :
  length all_cells = (Z.to_nat (size st) * Z.to_nat (size st))%nat.
Proof.
  unfold all_cells. rewrite List.length_prod.
  by rewrite !length_seqZ.
Qed.

Lemma inb_all_cells q : inb st q → q ∈ all_cells.
Proof.
  intros [H1 H2]. unfold all_cells.
  destruct q as [qx qy]. apply list_elem_of_In, in_prod_iff.
  rewrite <- !list_elem_of_In, !elem_of_seqZ. simpl in *. lia.
Qed.

Lemma Inv_bound f :
  Inv f →
  (length (stack f) + length (group f)
   ≤ Z.to_nat (size st) * Z.to_nat (size st))%nat.
Proof.
  intros HI. rewrite <- length_app, <- all_cells_length.
  apply submseteq_length, NoDup_submseteq; [apply (inv_nodup f HI)|].
  intros q Hq. apply inb_all_cells.
  apply (Inv_inb f q HI), (inv_visited f HI). by apply elem_of_app.
Qed.

(** When the stack is empty, [group] is the group of [p] and
    [liberties] the set of its liberties. *)
Lemma Inv_exit f :
  Inv f → stack f = [] →
  NoDup (group f) ∧ (∀ q, q ∈ group f ↔ connected st p q) ∧
  (∀ r, r ∈ liberties f ↔ liberty st p r).
Proof.
  intros HI Hst.
  assert (Hvg : ∀ q, q ∈ visited f ↔ q ∈ group f).
  { intros q. rewrite (inv_visited f HI q), Hst, elem_of_nil. tauto. }
  assert (Hgc : ∀ q, q ∈ group f ↔ connected st p q).
  { intros q. split.
    - intros Hq. by apply (inv_sound f HI), Hvg.
    - induction 1 as [|q r Hpq IH Hr Hadj Hat].
      + apply Hvg, (inv_start f HI).
      + apply Hvg. apply (inv_closed f HI q r); [done..|congruence]. }
  split; [|split; [done|]].
  - pose proof (inv_nodup f HI) as Hnd. by rewrite Hst in Hnd.
  - intros r. rewrite (inv_libs f HI r). unfold liberty.
    split; intros (? & ? & q & Hq & ?); (split; [done|]); (split; [done|]);
      exists q; (split; [by apply Hgc|done]).
Qed.

Lemma collect_loop_spec fuel f :
  Inv f →
  (Z.to_nat (size st) * Z.to_nat (size st) ≤ fuel + length (group f))%nat →
  ∃ g (L : gset coord), collect_loop fuel st v f = Ok (g, Z.of_nat (base.size L)) ∧
    NoDup g ∧ (∀ q, q ∈ g ↔ connected st p q) ∧ (∀ r, r ∈ L ↔ liberty st p r).
Proof.
  revert f. induction fuel as [|fuel IH]; intros f HI Hfuel.
  - destruct (stack f) as [|c rest] eqn:Hst.
    + exists (group f), (liberties f). simpl. rewrite Hst.
      split; [done|]. by apply Inv_exit.
    + pose proof (Inv_bound f HI) as Hb. rewrite Hst in Hb. simpl in Hb. lia.
  - destruct (stack f) as [|c rest] eqn:Hst.
    + exists (group f), (liberties f). simpl. rewrite Hst.
      split; [done|]. by apply Inv_exit.
    + destruct (Inv_step f c rest HI Hst) as (f' & Hall & HI' & Hg).
      destruct (IH f' HI') as (g & L & Hloop & Hpost).
      { rewrite Hg, length_app. simpl. lia. }
      exists g, L. split; [|done].
      simpl. rewrite Hst. destruct c as [cx cy]. simpl in Hall.
      rewrite Hall. simpl. exact Hloop.
Qed.

End flood_fill.

(** [_collect_group] on a stone returns, without duplicates, the stones of
    its group, and the number of liberties of the group. *)
Lemma _collect_group_spec st x y v :
  wf st → inb st (x, y) → at_ st (x, y) = Some v → v ≠ 0 →
  ∃ g (L : gset coord), _collect_group st x y = Ok (g, Z.of_nat (base.size L)) ∧
    NoDup g ∧ (∀ q, q ∈ g ↔ connected st (x, y) q) ∧
    (∀ r, r ∈ L ↔ liberty st (x, y) r).
Proof.
  intros Hwf Hp Hv Hv0. unfold _collect_group.
  rewrite (getitem_Ok _ _ _ _ Hv). simpl.
  apply (collect_loop_spec st (x, y) v Hwf Hp Hv Hv0).
  - by apply Inv_init.
  - simpl. unfold collect_fuel. destruct Hwf as (? & _). nia.
Qed.

(** [g] lists the group of [n], each stone once. *)
Definition is_group (st : GoGameState) (n : coord) (g : list coord) : Prop :=
  NoDup g ∧ ∀ q, q ∈ g ↔ connected st n q.

Lemma _collect_group_cases st n v :
  wf st → inb st n → at_ st n = Some v → v ≠ 0 →
  ∃ g k, _collect_group st n.1 n.2 = Ok (g, k) ∧ is_group st n g ∧
         (k = 0 ↔ no_liberties st n).
Proof.
  intros Hwf Hn Hv Hv0. destruct n as [x y].
  destruct (_collect_group_spec st x y v Hwf Hn Hv Hv0) as (g & L & Hc & Hnd & Hg & HL).
  exists g, (Z.of_nat (base.size L)). split; [done|]. split; [by split|].
  unfold no_liberties. split.
  - intros Hk r Hr. apply HL in Hr.
    assert (base.size L = 0%nat) as HL0%size_empty_iff by lia. set_solver.
  - intros Hno. assert (L ≡ ∅) as ->%size_empty_iff; [|done].
    apply elem_of_equiv_empty. intros r Hr%HL. by apply (Hno r).
Qed.

Lemma is_group_inb st n g q : inb st n → is_group st n g → q ∈ g → inb st q.
Proof. intros Hn [_ Hg] Hq%Hg. by apply (connected_inb st n). Qed.

Lemma is_group_at st n g q : is_group st n g → q ∈ g → at_ st q = at_ st n.
Proof. intros [_ Hg] Hq%Hg. by apply connected_at. Qed.

(** ** The loops of [play_move] *)

Ltac name_body :=
  match goal with |- context [for_loop _ ?b _ _] => set (body := b) end.

(** The loop over the neighbours of the stone just placed: it collects
    the groups of the other colour that are left without a liberty. *)
Lemma capture_loop_spec st value ns cg :
  wf st → value ≠ 0 → (∀ n, n ∈ ns → inb st n) →
  ∃ cgs, for_loop ns (λ cg '(nx, ny),
           v ← pure_call (λ st, getitem st ny nx);
           if v =? - value then
             '(group, liberties) ← pure_call (λ st, _collect_group st nx ny);
             if liberties =? 0 then mret (cg ++ [group]) else mret cg
           else mret cg) cg st
         = (Ok (cg ++ cgs), st) ∧
    (∀ g, g ∈ cgs → ∃ n, n ∈ ns ∧ at_ st n = Some (- value) ∧
                         no_liberties st n ∧ is_group st n g) ∧
    (∀ n, n ∈ ns → at_ st n = Some (- value) → no_liberties st n →
          ∃ g, g ∈ cgs ∧ is_group st n g).
Proof.
  intros Hwf Hval. name_body. revert cg. induction ns as [|[nx ny] ns IH]; intros cg Hns.
  - exists []. rewrite for_loop_nil, app_nil_r. split; [done|]. split.
    + intros g Hg. by apply elem_of_nil in Hg.
    + intros n Hn. by apply elem_of_nil in Hn.
  - assert (Hn : inb st (nx, ny)) by (apply Hns; left).
    assert (Hns' : ∀ n, n ∈ ns → inb st n) by (intros; apply Hns; by right).
    destruct (at_is_Some st _ Hwf Hn) as [w Hw].
    rewrite for_loop_cons. unfold body at 1. rewrite bind_run.
    unfold pure_call at 1. rewrite (getitem_Ok _ _ _ _ Hw).
    destruct (Z.eqb_spec w (- value)) as [->|Hne].
    + destruct (_collect_group_cases st (nx, ny) (- value) Hwf Hn Hw)
        as (g & k & Hc & Hg & Hk); [lia|].
      simpl in Hc. rewrite bind_run. unfold pure_call at 1. rewrite Hc.
      destruct (Z.eqb_spec k 0) as [->|Hk0].
      * unfold mret at 1, M_ret. destruct (IH (cg ++ [g]) Hns') as (cgs & Hloop & H1 & H2).
        exists (g :: cgs). rewrite Hloop, <- app_assoc. split; [done|]. split.
        -- intros g' [->|Hg']%elem_of_cons.
           ++ exists (nx, ny). split; [left|]. split; [done|]. split; [tauto|done].
           ++ destruct (H1 g' Hg') as (n & ? & ?). exists n. split; [by right|done].
        -- intros n [->|Hn']%elem_of_cons Hat Hno.
           ++ exists g. split; [left|done].
           ++ destruct (H2 n Hn' Hat Hno) as (g' & ? & ?). exists g'. split; [by right|done].
      * unfold mret at 1, M_ret. destruct (IH cg Hns') as (cgs & Hloop & H1 & H2).
        exists cgs. split; [done|]. split.
        -- intros g' Hg'. destruct (H1 g' Hg') as (n & ? & ?).
           exists n. split; [by right|done].
        -- intros n [->|Hn']%elem_of_cons Hat Hno; [tauto|by apply H2].
    + unfold mret at 1, M_ret. destruct (IH cg Hns') as (cgs & Hloop & H1 & H2).
      exists cgs. split; [done|]. split.
      * intros g' Hg'. destruct (H1 g' Hg') as (n & ? & ?).
        exists n. split; [by right|done].
      * intros n [->|Hn']%elem_of_cons Hat Hno; [congruence|by apply H2].
Qed.

Lemma inb_size st st' q : size st' = size st → inb st' q ↔ inb st q.
Proof. intros E. unfold inb. by rewrite E. Qed.

(** [st'] is [st] with the cells of [l] set to [w]. *)
Definition cells_set (st st' : GoGameState) (l : list coord) (w : Z) : Prop :=
  wf st' ∧ size st' = size st ∧
  ∀ q, inb st q → at_ st' q = if decide (q ∈ l) then Some w else at_ st q.

Lemma cells_set_cons st st1 st' c l w :
  wf st1 → size st1 = size st →
  (∀ q, inb st q → at_ st1 q = if decide (q = c) then Some w else at_ st q) →
  cells_set st1 st' l w → cells_set st st' (c :: l) w.
Proof.
  intros Hwf1 Hsz1 Hat1 (Hwf' & Hsz' & Hat'). split; [done|]. split; [congruence|].
  intros q Hq. rewrite Hat' by (by apply (inb_size st)). rewrite Hat1 by done.
  repeat case_decide; try done; set_solver.
Qed.

Lemma cells_set_app st st1 st' l k w :
  cells_set st st1 l w → cells_set st1 st' k w → cells_set st st' (l ++ k) w.
Proof.
  intros (Hwf1 & Hsz1 & Hat1) (Hwf' & Hsz' & Hat'). split; [done|]. split; [congruence|].
  intros q Hq. rewrite Hat' by (by apply (inb_size st)). rewrite Hat1 by done.
  repeat case_decide; try done; set_solver.
Qed.

Lemma cells_set_nil st w : wf st → cells_set st st [] w.
Proof.
  intros Hwf. split; [done|]. split; [done|]. intros q _.
  case_decide; [set_solver|done].
Qed.

(** The inner loop that empties one captured group. *)
Lemma remove_group_spec st l cs :
  wf st → (∀ q, q ∈ l → inb st q) →
  ∃ st', for_loop l (λ cs '(gx, gy), setitem gy gx 0;; mret (cs ++ [(gx, gy)])) cs st
         = (Ok (cs ++ l), st') ∧ cells_set st st' l 0.
Proof.
  name_body. revert st cs. induction l as [|[gx gy] l IH]; intros st cs Hwf Hl.
  - exists st. rewrite for_loop_nil, app_nil_r. split; [done|]. by apply cells_set_nil.
  - destruct (setitem_spec st gx gy 0 Hwf) as (st1 & Hset & Hwf1 & Hsz1 & Hat1);
      [apply Hl; left|].
    destruct (IH st1 (cs ++ [(gx, gy)]) Hwf1) as (st' & Hloop & Hcs).
    { intros q Hq. apply (inb_size st); [done|]. apply Hl. by right. }
    exists st'. split; [|by eapply cells_set_cons].
    rewrite for_loop_cons. unfold body at 1. rewrite bind_run, Hset.
    unfold mret at 1, M_ret. rewrite Hloop. by rewrite <- app_assoc.
Qed.

(** The loop that empties all the captured groups. *)
Lemma remove_groups_spec st gs cs :
  wf st → (∀ g q, g ∈ gs → q ∈ g → inb st q) →
  ∃ st', for_loop gs (λ cs group,
           for_loop group (λ cs '(gx, gy), setitem gy gx 0;; mret (cs ++ [(gx, gy)])) cs)
           cs st
         = (Ok (cs ++ concat gs), st') ∧ cells_set st st' (concat gs) 0.
Proof.
  name_body. revert st cs. induction gs as [|g gs IH]; intros st cs Hwf Hgs.
  - exists st. rewrite for_loop_nil. simpl. rewrite app_nil_r.
    split; [done|]. by apply cells_set_nil.
  - destruct (remove_group_spec st g cs Hwf) as (st1 & Hg & Hcs1).
    { intros q Hq. apply (Hgs g); [left|done]. }
    destruct Hcs1 as (Hwf1 & Hsz1 & Hat1).
    destruct (IH st1 (cs ++ g) Hwf1) as (st' & Hloop & Hcs).
    { intros g' q Hg' Hq. apply (inb_size st); [done|]. apply (Hgs g'); [by right|done]. }
    exists st'. split; [|by eapply cells_set_app].
    rewrite for_loop_cons. unfold body at 1. rewrite Hg, Hloop. simpl.
    by rewrite <- app_assoc.
Qed.

(** The loops of the suicide branch, which put the captured stones back. *)
Lemma restore_group_spec st l w :
  wf st → (∀ q, q ∈ l → inb st q) →
  ∃ st', for_loop l (λ _ '(gx, gy), setitem gy gx w) tt st = (Ok tt, st') ∧
         cells_set st st' l w.
Proof.
  name_body. revert st. induction l as [|[gx gy] l IH]; intros st Hwf Hl.
  - exists st. split; [done|]. by apply cells_set_nil.
  - destruct (setitem_spec st gx gy w Hwf) as (st1 & Hset & Hwf1 & Hsz1 & Hat1);
      [apply Hl; left|].
    destruct (IH st1 Hwf1) as (st' & Hloop & Hcs).
    { intros q Hq. apply (inb_size st); [done|]. apply Hl. by right. }
    exists st'. split; [|by eapply cells_set_cons].
    rewrite for_loop_cons. unfold body at 1. by rewrite Hset.
Qed.

Lemma restore_groups_spec st gs w :
  wf st → (∀ g q, g ∈ gs → q ∈ g → inb st q) →
  ∃ st', for_loop gs (λ _ group, for_loop group (λ _ '(gx, gy), setitem gy gx w) tt)
           tt st
         = (Ok tt, st') ∧ cells_set st st' (concat gs) w.
Proof.
  name_body. revert st. induction gs as [|g gs IH]; intros st Hwf Hgs.
  - exists st. split; [done|]. by apply cells_set_nil.
  - destruct (restore_group_spec st g w Hwf) as (st1 & Hg & Hcs1).
    { intros q Hq. apply (Hgs g); [left|done]. }
    destruct Hcs1 as (Hwf1 & Hsz1 & Hat1).
    destruct (IH st1 Hwf1) as (st' & Hloop & Hcs).
    { intros g' q Hg' Hq. apply (inb_size st); [done|]. apply (Hgs g'); [by right|done]. }
    exists st'. split; [|by eapply cells_set_app].
    rewrite for_loop_cons. unfold body at 1. by rewrite Hg.
Qed.

(** ** [play_move] on an empty in-range cell *)

Lemma color_value_cases color : color_value color = 1 ∨ color_value color = -1.
Proof. unfold color_value. destruct (String.eqb color "B"); auto. Qed.

Lemma play_move_run st color x y :
  wf st → inb st (x, y) → at_ st (x, y) = Some 0 →
  ∃ st1 st2 caps,
    placed st (x, y) (color_value color) st1 ∧
    captures_removed st1 (x, y) (color_value color) st2 ∧
    (∀ q, q ∈ caps ↔ captured st1 (x, y) (color_value color) q) ∧
    ((no_liberties st2 (x, y) ∧ play_move color (x, y) st = (Raise SuicideMove, st)) ∨
     (¬ no_liberties st2 (x, y) ∧ play_move color (x, y) st = (Ok caps, st2))).
Proof.
  intros Hwf Hp H0. set (w := color_value color).
  assert (Hw : w ≠ 0) by (destruct (color_value_cases color); lia).
  destruct (setitem_spec st x y w Hwf Hp) as (st1 & Hset & Hwf1 & Hsz1 & Hat1).
  assert (Hp1 : inb st1 (x, y)) by (by apply (inb_size st)).
  destruct (capture_loop_spec st1 w (_neighbors st1 x y) [] Hwf1 Hw)
    as (cgs & Hcap & Hcg1 & Hcg2).
  { intros n Hn. by apply (neighbors_inb st1 (x, y)). }
  assert (Hmem : ∀ q, q ∈ concat cgs ↔ captured st1 (x, y) w q).
  { intros q. rewrite elem_of_concat. split.
    - intros (g & Hq & Hg). destruct (Hcg1 g Hg) as (n & Hn & Hatn & Hno & Hgrp).
      apply (elem_of_neighbors st1 (x, y) n Hp1) in Hn as [Hn Hadj].
      exists n. do 4 (split; [done|]). by apply Hgrp.
    - intros (n & Hn & Hadj & Hatn & Hno & Hc).
      destruct (Hcg2 n) as (g & Hg & Hgrp); [|done|done|].
      { by apply (elem_of_neighbors st1 (x, y) n Hp1). }
      exists g. split; [by apply Hgrp|done]. }
  assert (Hcapat : ∀ q, q ∈ concat cgs → inb st1 q ∧ at_ st1 q = Some (- w)).
  { intros q (n & Hn & _ & Hatn & _ & Hc)%Hmem. split.
    - by apply (connected_inb st1 n).
    - by rewrite (connected_at st1 n q Hc). }
  destruct (remove_groups_spec st1 cgs [] Hwf1) as (st2 & Hrem & Hwf2 & Hsz2 & Hat2).
  { intros g q Hg Hq. apply Hcapat, elem_of_concat. eauto. }
  assert (Hp2 : inb st2 (x, y)) by (by apply (inb_size st1)).
  assert (Hatp1 : at_ st1 (x, y) = Some w).
  { rewrite Hat1 by done. by rewrite decide_True. }
  assert (Hatp2 : at_ st2 (x, y) = Some w).
  { rewrite Hat2 by done. rewrite decide_False; [done|].
    intros [_ Hq]%Hcapat. rewrite Hatp1 in Hq. injection Hq. lia. }
  destruct (_collect_group_cases st2 (x, y) w Hwf2 Hp2 Hatp2 Hw)
    as (g & k & Hown & _ & Hk).
  exists st1, st2, (concat cgs).
  split; [by split|]. split.
  { split; [done|]. split; [done|]. intros q Hq. rewrite Hat2 by done. split.
    - intros Hc%Hmem. by rewrite decide_True.
    - intros Hc. rewrite decide_False; [done|]. by rewrite Hmem. }
  split; [done|].
  assert (Hrun : play_move color (x, y) st =
    if k =? 0 then
      (_ ← for_loop cgs (λ _ group,
             for_loop group (λ _ '(gx, gy), setitem gy gx (- w)) tt) tt;
       _ ← setitem y x 0; raise SuicideMove) st2
    else (Ok (concat cgs), st2)).
  { unfold play_move. rewrite bind_run. unfold pure_call at 1.
    rewrite (getitem_Ok _ _ _ _ H0), Z.eqb_refl. cbv zeta. cbn [negb]. fold w.
    rewrite bind_run, Hset.
    rewrite bind_run. unfold pure_call at 1.
    rewrite bind_run, Hcap. cbn [app].
    rewrite bind_run, Hrem. cbn [app].
    rewrite bind_run. unfold pure_call at 1. simpl in Hown. rewrite Hown.
    by destruct (k =? 0). }
  destruct (Z.eqb_spec k 0) as [->|Hk0].
  - left. split; [tauto|]. rewrite Hrun.
    destruct (restore_groups_spec st2 cgs (- w) Hwf2) as (st3 & Hres & Hwf3 & Hsz3 & Hat3).
    { intros g' q Hg Hq. apply (inb_size st1); [done|].
      apply Hcapat, elem_of_concat. eauto. }
    destruct (setitem_spec st3 x y 0 Hwf3) as (st4 & Hset4 & Hwf4 & Hsz4 & Hat4).
    { by apply (inb_size st2). }
    unfold mbind at 1, M_bind. rewrite Hres.
    unfold mbind at 1, M_bind. rewrite Hset4. unfold raise. f_equal.
    apply state_ext; [done|done|congruence|].
    intros q Hq4.
    assert (Hq3 : inb st3 q) by (by apply (inb_size st4)).
    assert (Hq2 : inb st2 q) by (by apply (inb_size st3)).
    assert (Hq1 : inb st1 q) by (by apply (inb_size st2)).
    assert (Hq : inb st q) by (by apply (inb_size st1)).
    rewrite Hat4, Hat3, Hat2, Hat1 by done.
    destruct (decide (q = (x, y))) as [->|Hne]; [done|].
    destruct (decide (q ∈ concat cgs)) as [Hin|Hin]; [|done].
    destruct (Hcapat q Hin) as [_ Hq']. rewrite Hat1 in Hq' by done.
    by rewrite decide_False in Hq' by done.
  - right. split; [tauto|]. by rewrite Hrun.
Qed.

Lemma placed_unique st p w a b : placed st p w a → placed st p w b → a = b.
Proof.
  intros (Hwa & Hsa & Ha) (Hwb & Hsb & Hb).
  apply state_ext; [done|done|congruence|].
  intros q Hq%(inb_size st); [|done]. by rewrite Ha, Hb.
Qed.

Lemma captures_removed_unique st1 p w (caps : list coord) a b :
  (∀ q, q ∈ caps ↔ captured st1 p w q) →
  captures_removed st1 p w a → captures_removed st1 p w b → a = b.
Proof.
  intros Hcaps (Hwa & Hsa & Ha) (Hwb & Hsb & Hb).
  apply state_ext; [done|done|congruence|].
  intros q Hq%(inb_size st1); [|done].
  destruct (Ha q Hq) as [Ha1 Ha2], (Hb q Hq) as [Hb1 Hb2].
  destruct (decide (q ∈ caps)) as [Hin|Hin].
  - apply Hcaps in Hin. by rewrite Ha1, Hb1.
  - rewrite Hcaps in Hin. by rewrite Ha2, Hb2.
Qed.

(** ** Checking the rule-level predicates on a given board *)

#[global] Instance wf_dec st : Decision (wf st).
Proof. unfold wf. apply _. Defined.

Lemma placed_setitem st x y w st1 :
  wf st → inb st (x, y) → setitem y x w st = (Ok tt, st1) → placed st (x, y) w st1.
Proof.
  intros Hwf Hp Hset.
  destruct (setitem_spec st x y w Hwf Hp) as (st1' & Hset' & ? & ? & ?).
  rewrite Hset in Hset'. injection Hset' as <-. by split.
Qed.

Lemma no_liberties_check st n v g :
  wf st → inb st n → at_ st n = Some v → v ≠ 0 →
  _collect_group st n.1 n.2 = Ok (g, 0) → no_liberties st n.
Proof.
  intros Hwf Hn Hv Hv0 Hc.
  destruct (_collect_group_cases st n v Hwf Hn Hv Hv0) as (g' & k & Hc' & _ & Hk).
  rewrite Hc in Hc'. injection Hc' as _ <-. by apply Hk.
Qed.

(** Whether the stone at [q] is captured by the stone of value [w] at [p],
    computed with [_collect_group]. *)
Definition capturedb (st1 : GoGameState) (p : coord) (w : Z) (q : coord) : bool :=
  existsb (λ n,
    bool_decide (at_ st1 n = Some (- w)) &&
    match _collect_group st1 n.1 n.2 with
    | Ok (g, k) => (k =? 0) && bool_decide (q ∈ g)
    | _ => false
    end) (_neighbors st1 p.1 p.2).

Lemma capturedb_spec st1 p w q :
  wf st1 → inb st1 p → w ≠ 0 → capturedb st1 p w q = true ↔ captured st1 p w q.
Proof.
  intros Hwf Hp Hw. unfold capturedb, captured. rewrite existsb_exists. split.
  - intros (n & Hn%list_elem_of_In & Hb). apply andb_true_iff in Hb as [Hat Hb].
    apply bool_decide_eq_true in Hat.
    apply (elem_of_neighbors st1 p n Hp) in Hn as [Hn Hadj].
    destruct (_collect_group_cases st1 n (- w) Hwf Hn Hat) as (g & k & Hc & Hg & Hk);
      [lia|].
    rewrite Hc in Hb. apply andb_true_iff in Hb as [Hk0%Z.eqb_eq Hq].
    apply bool_decide_eq_true in Hq.
    exists n. do 3 (split; [done|]). split; [by apply Hk|by apply Hg].
  - intros (n & Hn & Hadj & Hat & Hno & Hc). exists n. split.
    + apply list_elem_of_In. by apply (elem_of_neighbors st1 p n Hp).
    + apply andb_true_iff. split; [by apply bool_decide_eq_true|].
      destruct (_collect_group_cases st1 n (- w) Hwf Hn Hat) as (g & k & Hc' & Hg & Hk);
        [lia|].
      rewrite Hc'. apply andb_true_iff. split.
      * apply Z.eqb_eq. by apply Hk.
      * apply bool_decide_eq_true. by apply Hg.
Qed.

Lemma captures_removed_check st1 p w st2 :
  wf st1 → inb st1 p → w ≠ 0 → wf st2 → size st2 = size st1 →
  forallb (λ q, bool_decide
     (at_ st2 q = if capturedb st1 p w q then Some 0 else at_ st1 q))
    (all_cells st1) = true →
  captures_removed st1 p w st2.
Proof.
  intros Hwf Hp Hw Hwf2 Hsz Hall. split; [done|]. split; [done|].
  intros q Hq. rewrite forallb_forall in Hall.
  specialize (Hall q). rewrite <- list_elem_of_In in Hall.
  specialize (Hall (inb_all_cells st1 q Hq)). apply bool_decide_eq_true in Hall.
  pose proof (capturedb_spec st1 p w q Hwf Hp Hw) as Hspec.
  destruct (capturedb st1 p w q).
  - split; [done|]. intros Hn. exfalso. apply Hn. by apply Hspec.
  - split; [|done]. intros Hc%Hspec. discriminate.
Qed.

(** ** What a returning [play_move] did, on any board and coordinates *)

Lemma capture_loop_state value ns cg st r st' :
  for_loop ns (λ cg '(nx, ny),
    v ← pure_call (λ st, getitem st ny nx);
    if v =? - value then
      '(group, liberties) ← pure_call (λ st, _collect_group st nx ny);
      if liberties =? 0 then mret (cg ++ [group]) else mret cg
    else mret cg) cg st = (r, st') →
  st' = st.
Proof.
  name_body. revert cg. induction ns as [|[nx ny] ns IH]; intros cg.
  - rewrite for_loop_nil. by intros [= _ <-].
  - rewrite for_loop_cons. unfold body at 1. rewrite bind_run. unfold pure_call at 1.
    destruct (getitem st ny nx) as [v|e|]; [|by intros [= _ <-]..].
    destruct (v =? - value).
    + rewrite bind_run. unfold pure_call at 1.
      destruct (_collect_group st nx ny) as [[g k]|e|]; [|by intros [= _ <-]..].
      destruct (k =? 0); unfold mret at 1, M_ret; apply IH.
    + unfold mret at 1, M_ret. apply IH.
Qed.

Lemma remove_group_Ok l cs st r st' :
  for_loop l (λ cs '(gx, gy), setitem gy gx 0;; mret (cs ++ [(gx, gy)])) cs st
    = (Ok r, st') →
  r = cs ++ l.
Proof.
  name_body. revert cs st. induction l as [|[gx gy] l IH]; intros cs st.
  - rewrite for_loop_nil, app_nil_r. by intros [= <- _].
  - rewrite for_loop_cons. unfold body at 1. rewrite bind_run.
    destruct (setitem gy gx 0 st) as [[[]|e|] st1]; [|discriminate..].
    unfold mret at 1, M_ret. intros ->%IH. by rewrite <- app_assoc.
Qed.

Lemma remove_groups_Ok gs cs st r st' :
  for_loop gs (λ cs group,
    for_loop group (λ cs '(gx, gy), setitem gy gx 0;; mret (cs ++ [(gx, gy)])) cs)
    cs st = (Ok r, st') →
  r = cs ++ concat gs ∧ (concat gs = [] → st' = st).
Proof.
  name_body. revert cs st. induction gs as [|g gs IH]; intros cs st.
  - rewrite for_loop_nil. intros [= <- <-]. simpl. by rewrite app_nil_r.
  - rewrite for_loop_cons. unfold body at 1.
    destruct (for_loop g _ cs st) as [[cs1|e|] st1] eqn:Hg; [|discriminate..].
    intros [-> Hst]%IH. apply remove_group_Ok in Hg as Hcs1. subst cs1.
    simpl. rewrite <- app_assoc. split; [done|].
    intros [-> Hnil]%app_eq_nil. rewrite for_loop_nil in Hg.
    injection Hg as _ <-. by apply Hst.
Qed.

(** A call that returns has read an empty cell, written the stone there,
    and removed exactly the stones it returns. *)
Lemma play_move_Ok_inv color x y st caps st' :
  play_move color (x, y) st = (Ok caps, st') →
  cell (board st) y x = Some 0 ∧
  ∃ st1, setitem y x (color_value color) st = (Ok tt, st1) ∧
         (caps = [] → st' = st1).
Proof.
  unfold play_move. rewrite bind_run. unfold pure_call at 1. unfold getitem.
  destruct (cell (board st) y x) as [v|]; [|discriminate].
  destruct (Z.eqb_spec v 0) as [->|]; [|discriminate].
  cbn [negb]. cbv zeta. rewrite bind_run.
  destruct (setitem y x (color_value color) st) as [[[]|e|] st1]; [|discriminate..].
  rewrite bind_run. unfold pure_call at 1. rewrite bind_run.
  destruct (for_loop (_neighbors st1 x y) _ [] st1) as [[cgs|e|] st1'] eqn:Hcap;
    [|discriminate..].
  apply capture_loop_state in Hcap as ->.
  rewrite bind_run.
  destruct (for_loop cgs _ [] st1) as [[cs|e|] st2] eqn:Hrem; [|discriminate..].
  apply remove_groups_Ok in Hrem as [-> Hst2]. simpl in *.
  rewrite bind_run. unfold pure_call at 1.
  destruct (_collect_group st2 x y) as [[g k]|e|]; [|discriminate..].
  destruct (k =? 0).
  - rewrite bind_run.
    destruct (for_loop cgs _ tt st2) as [[[]|e|] st3]; [|discriminate..].
    rewrite bind_run. by destruct (setitem y x 0 st3) as [[[]|e|] st4].
  - intros [= <- <-]. split; [done|]. exists st1. split; [done|]. by intros ->%Hst2.
Qed.

(** ** Counting stones *)

Lemma stones_insert (row : list Z) c v :
  row !! c = Some 0 → v ≠ 0 →
  length (filter (λ v, v ≠ 0) (<[c := v]> row)) = S (length (filter (λ v, v ≠ 0) row)).
Proof.
  intros Hc Hv. pose proof (lookup_lt_Some _ _ _ Hc) as Hlt.
  rewrite insert_take_drop by done.
  rewrite <- (take_drop_middle row c 0 Hc) at 3.
  rewrite !filter_app, !length_app, !filter_cons.
  rewrite decide_True by done. rewrite decide_False by (intros H; by apply H).
  simpl. lia.
Qed.

Lemma stone_count_set_cell st y x v st1 :
  cell (board st) y x = Some 0 → v ≠ 0 →
  setitem y x v st = (Ok tt, st1) →
  stone_count st1 = S (stone_count st).
Proof.
  unfold cell, setitem, set_cell, stone_count. intros Hc Hv.
  destruct (py_index _ y) as [r|]; [|discriminate]. simpl in *.
  destruct (board st !! r) as [row|] eqn:Hr; [|discriminate]. simpl in *.
  destruct (py_index _ x) as [c|]; [|discriminate]. simpl in *.
  intros [= <-]. simpl. pose proof (lookup_lt_Some _ _ _ Hr) as Hlt.
  rewrite insert_take_drop by done.
  rewrite <- (take_drop_middle (board st) r row Hr) at 3.
  rewrite !concat_app, !concat_cons, !filter_app, !length_app.
  rewrite (stones_insert row c v Hc Hv). lia.
Qed.

Lemma capture_free_run_count moves st st' :
  capture_free_run moves st = Some st' →
  stone_count st' = (stone_count st + length moves)%nat.
Proof.
  revert st. induction moves as [|[color [x y]] moves IH]; intros st;
    cbn [capture_free_run length].
  - intros [= <-]. lia.
  - destruct (play_move color (x, y) st) as [[caps|e|] st1] eqn:Hrun; [|discriminate..].
    destruct caps; [|discriminate]. intros Hrest%IH.
    apply play_move_Ok_inv in Hrun as (Hc & st1' & Hset & Heq).
    rewrite (Heq eq_refl) in Hrest.
    assert (Hw : color_value color ≠ 0) by (destruct (color_value_cases color); lia).
    rewrite (stone_count_set_cell st y x _ st1' Hc Hw Hset) in Hrest. lia.
Qed.

Lemma stone_count_new n st : new n = Ok st → stone_count st = 0%nat.
Proof.
  unfold new. destruct (_ || _); [discriminate|]. intros [= <-].
  unfold stone_count. simpl.
  assert (Hrow : ∀ m, filter (λ v : Z, v ≠ 0) (replicate m 0) = []).
  { induction m as [|m IH]; [done|]. simpl.
    rewrite filter_cons, decide_False by (intros H; by apply H). done. }
  generalize (Z.to_nat n) at 1. intros k. induction k as [|k IH]; [done|].
  simpl. by rewrite filter_app, length_app, Hrow, IH.
Qed.

(** ** [apply_setup] and [apply_empty] *)

Definition in_1_size_coord (st : GoGameState) (c : coord) : Prop :=
  1 ≤ c.1 ≤ size st ∧ 1 ≤ c.2 ≤ size st.

#[global] Instance in_1_size_coord_dec st c : Decision (in_1_size_coord st c).
Proof. unfold in_1_size_coord. apply _. Defined.

Lemma in_1_size_spec st x y : in_1_size st x y = true ↔ in_1_size_coord st (x, y).
Proof. unfold in_1_size, in_1_size_coord. simpl. rewrite !andb_true_iff. lia. Qed.

(** The loop shared by the two methods, writing [w]. *)
Lemma setup_loop_spec st w coords :
  wf st →
  ∃ st', for_loop coords (λ _ '(x, y),
           st ← pure_call Ok;
           if in_1_size st x y then setitem (y - 1) (x - 1) w else mret tt) tt st
         = (Ok tt, st') ∧
    wf st' ∧ size st' = size st ∧
    ∀ q, inb st q →
      at_ st' q = if decide ((q.1 + 1, q.2 + 1) ∈ coords) then Some w else at_ st q.
Proof.
  name_body. revert st. induction coords as [|[x y] coords IH]; intros st Hwf.
  - exists st. split; [done|]. split; [done|]. split; [done|]. intros q _.
    rewrite decide_False; [done|]. by intros ?%elem_of_nil.
  - rewrite for_loop_cons. unfold body at 1. rewrite bind_run. unfold pure_call at 1.
    destruct (in_1_size st x y) eqn:Hin.
    + apply in_1_size_spec in Hin as [Hx Hy]. simpl in Hx, Hy.
      destruct (setitem_spec st (x - 1) (y - 1) w Hwf) as (st1 & Hset & Hwf1 & Hsz1 & Hat1).
      { split; simpl; lia. }
      rewrite Hset. destruct (IH st1 Hwf1) as (st' & Hloop & Hwf' & Hsz' & Hat').
      exists st'. split; [done|]. split; [done|]. split; [congruence|].
      intros q Hq. rewrite Hat' by (by apply (inb_size st)). rewrite Hat1 by done.
      destruct q as [qx qy]. simpl.
      destruct (decide ((qx + 1, qy + 1) ∈ coords)) as [Hm|Hm].
      * rewrite decide_True; [done|]. by right.
      * destruct (decide ((qx, qy) = (x - 1, y - 1))) as [[= -> ->]|Hne].
        -- rewrite decide_True; [done|]. replace (x - 1 + 1) with x by lia.
           replace (y - 1 + 1) with y by lia. left.
        -- rewrite decide_False; [done|]. intros [[= <- <-]|?]%elem_of_cons; [|done].
           apply Hne. f_equal; lia.
    + unfold mret at 1, M_ret. destruct (IH st Hwf) as (st' & Hloop & Hwf' & Hsz' & Hat').
      exists st'. split; [done|]. split; [done|]. split; [done|].
      intros q Hq. rewrite Hat' by done. destruct q as [qx qy]. simpl.
      destruct (decide ((qx + 1, qy + 1) ∈ coords)) as [Hm|Hm].
      * rewrite decide_True; [done|]. by right.
      * rewrite decide_False; [done|]. intros [[= <- <-]|?]%elem_of_cons; [|done].
        assert (in_1_size st (qx + 1) (qy + 1) = true); [|congruence].
        apply in_1_size_spec. destruct Hq; split; simpl in *; lia.
Qed.

(** Entries outside [1, size] do nothing: the loop runs as on the list
    without them. *)
Lemma setup_loop_filter st w coords :
  for_loop coords (λ _ '(x, y),
    st ← pure_call Ok;
    if in_1_size st x y then setitem (y - 1) (x - 1) w else mret tt) tt st
  = for_loop (filter (in_1_size_coord st) coords) (λ _ '(x, y),
      st ← pure_call Ok;
      if in_1_size st x y then setitem (y - 1) (x - 1) w else mret tt) tt st.
Proof.
  name_body. revert st.
  assert (Hsz : ∀ y x st r st', setitem y x w st = (r, st') → size st' = size st).
  { intros y x st r st'. unfold setitem. destruct (set_cell _ _ _ _).
    - by intros [= _ <-].
    - by intros [= _ <-]. }
  induction coords as [|[x y] coords IH]; intros st; [done|].
  rewrite filter_cons. destruct (decide (in_1_size_coord st (x, y))) as [Hin|Hin].
  - rewrite !for_loop_cons. unfold body at 1 3. rewrite !bind_run. unfold pure_call.
    apply in_1_size_spec in Hin. rewrite Hin.
    destruct (setitem (y - 1) (x - 1) w st) as [[[]|e|] st1] eqn:Hset; [|done..].
    rewrite IH. apply Hsz in Hset.
    assert (filter (in_1_size_coord st1) coords = filter (in_1_size_coord st) coords)
      as ->; [|done].
    apply list_filter_iff. intros c. unfold in_1_size_coord. by rewrite Hset.
  - rewrite for_loop_cons. unfold body at 1. rewrite bind_run. unfold pure_call at 1.
    rewrite <- in_1_size_spec in Hin. apply not_true_is_false in Hin. rewrite Hin.
    unfold mret at 1, M_ret. apply IH.
Qed.

End BoardFacts.

(** ** [play_move]: suicide, capture, occupied point *)

Module PlayMove.
Import Board Rules BoardFacts.

(** C1.  On a well-formed board, a move onto an in-range empty cell whose
    own group, once the stone is placed and the captured groups of the other
    colour are taken off, has no liberty, raises [ValueError("suicide move")]
    and leaves the board equal to what it was before the call. *)
Theorem play_move_suicide_restores st color x y st1 st2 :
  wf st → inb st (x, y) → at_ st (x, y) = Some 0 →
  placed st (x, y) (color_value color) st1 →
  captures_removed st1 (x, y) (color_value color) st2 →
  no_liberties st2 (x, y) →
  play_move color (x, y) st = (Raise SuicideMove, st).
Proof.
  intros Hwf Hp H0 Hpl Hrm Hno.
  destruct (play_move_run st color x y Hwf Hp H0)
    as (st1' & st2' & caps & Hpl' & Hrm' & Hcaps & Hrun).
  assert (st1' = st1) as -> by (by eapply placed_unique).
  assert (st2' = st2) as -> by (by eapply captures_removed_unique).
  by destruct Hrun as [[_ Hrun]|[Hyes _]].
Qed.

Definition suicide_board : GoGameState :=
  {| size := 3; board := [[0; 1; 0]; [1; 0; 0]; [0; 0; 0]] |}.
Definition suicide_board_placed : GoGameState :=
  {| size := 3; board := [[-1; 1; 0]; [1; 0; 0]; [0; 0; 0]] |}.

Lemma play_move_suicide_restores_witness :
  play_move "W" (0, 0) suicide_board = (Raise SuicideMove, suicide_board).
Proof.
  assert (Hwf : wf suicide_board) by (apply (bool_decide_unpack _); reflexivity).
  assert (Hwf1 : wf suicide_board_placed)
    by (apply (bool_decide_unpack _); reflexivity).
  assert (Hp : inb suicide_board (0, 0)) by (apply (bool_decide_unpack _); reflexivity).
  apply (play_move_suicide_restores suicide_board "W" 0 0
           suicide_board_placed suicide_board_placed).
  - exact Hwf.
  - exact Hp.
  - reflexivity.
  - apply placed_setitem; [exact Hwf|exact Hp|reflexivity].
  - apply captures_removed_check;
      [exact Hwf1|exact Hp|discriminate|exact Hwf1|reflexivity|vm_compute; reflexivity].
  - apply (no_liberties_check suicide_board_placed (0, 0) (-1) [(0, 0)]);
      [exact Hwf1|exact Hp|reflexivity|discriminate|vm_compute; reflexivity].
Defined.

(** C2.  On a well-formed board, a move onto an in-range empty cell next
    to a group of the other colour that the new stone leaves without a
    liberty succeeds, whatever the liberties of the mover's own group were:
    every stone of every such group is taken off the board, the other cells
    are as after the placement, and the returned coordinates are exactly
    those of the stones that were on the board and are no longer. *)
Theorem play_move_capture_succeeds st color x y st1 :
  wf st → inb st (x, y) → at_ st (x, y) = Some 0 →
  placed st (x, y) (color_value color) st1 →
  (∃ n, inb st1 n ∧ adjacent (x, y) n ∧
        at_ st1 n = Some (- color_value color) ∧ no_liberties st1 n) →
  ∃ caps st',
    play_move color (x, y) st = (Ok caps, st') ∧
    captures_removed st1 (x, y) (color_value color) st' ∧
    (∀ n q, inb st1 n → adjacent (x, y) n →
            at_ st1 n = Some (- color_value color) → no_liberties st1 n →
            connected st1 n q → at_ st' q = Some 0) ∧
    (∀ q, q ∈ caps ↔ captured st1 (x, y) (color_value color) q) ∧
    (∀ q, q ∈ caps ↔ inb st q ∧ at_ st q ≠ Some 0 ∧ at_ st' q = Some 0).
Proof.
  intros Hwf Hp H0 Hpl (n & Hn & Hadj & Hat & Hno).
  destruct (play_move_run st color x y Hwf Hp H0)
    as (st1' & st2 & caps & Hpl' & Hrm & Hcaps & Hrun).
  assert (st1' = st1) as -> by (by eapply placed_unique).
  set (w := color_value color) in *.
  assert (Hw : w ≠ 0) by (destruct (color_value_cases color); unfold w; lia).
  destruct Hpl as (Hwf1 & Hsz1 & Hat1). destruct Hrm as (Hwf2 & Hsz2 & Hat2).
  assert (Hp1 : inb st1 (x, y)) by (by apply (inb_size st)).
  assert (Hcn : captured st1 (x, y) w n).
  { exists n. do 4 (split; [done|]). constructor. }
  assert (Hlib : liberty st2 (x, y) n).
  { split; [by apply (inb_size st1)|]. split; [by apply (Hat2 n Hn)|].
    exists (x, y). split; [constructor|done]. }
  destruct Hrun as [[Hsu _]|[_ Hrun]]; [by destruct (Hsu n)|].
  exists caps, st2. split; [done|]. split; [by split|]. split; [|split; [done|]].
  - intros m q Hm Hadjm Hatm Hnom Hc.
    assert (Hq : inb st1 q) by (by apply (connected_inb st1 m)).
    apply (Hat2 q Hq). exists m. by do 4 (split; [done|]).
  - intros q. rewrite Hcaps. split.
    + intros Hc. pose proof Hc as (m & Hm & Hadjm & Hatm & Hnom & Hcm).
      assert (Hq1 : inb st1 q) by (by apply (connected_inb st1 m)).
      assert (Hq : inb st q) by (by apply (inb_size st1)).
      split; [done|]. split; [|by apply (Hat2 q Hq1)].
      pose proof (connected_at st1 m q Hcm) as Hatq. rewrite Hatm, Hat1 in Hatq by done.
      destruct (decide (q = (x, y))) as [->|Hne].
      * injection Hatq. lia.
      * rewrite Hatq. intros [= ?]. lia.
    + intros (Hq & Hne0 & Hq0).
      assert (Hq1 : inb st1 q) by (by apply (inb_size st)).
      destruct (decide (q ∈ caps)) as [Hin|Hin]; [by apply Hcaps|].
      rewrite Hcaps in Hin. destruct (Hat2 q Hq1) as [_ Hsame].
      rewrite (Hsame Hin), Hat1 in Hq0 by done.
      destruct (decide (q = (x, y))) as [->|Hne]; [injection Hq0; lia|done].
Qed.

Definition capture_board : GoGameState :=
  {| size := 3; board := [[0; -1; 1]; [-1; 1; 0]; [1; 0; 0]] |}.
Definition capture_board_placed : GoGameState :=
  {| size := 3; board := [[1; -1; 1]; [-1; 1; 0]; [1; 0; 0]] |}.
Definition capture_board_after : GoGameState :=
  {| size := 3; board := [[1; 0; 1]; [0; 1; 0]; [1; 0; 0]] |}.

Lemma play_move_capture_succeeds_witness :
  ∃ caps st',
    play_move "B" (0, 0) capture_board = (Ok caps, st') ∧
    captures_removed capture_board_placed (0, 0) 1 st' ∧
    (∀ n q, inb capture_board_placed n → adjacent (0, 0) n →
            at_ capture_board_placed n = Some (- 1) →
            no_liberties capture_board_placed n →
            connected capture_board_placed n q → at_ st' q = Some 0) ∧
    (∀ q, q ∈ caps ↔ captured capture_board_placed (0, 0) 1 q) ∧
    (∀ q, q ∈ caps ↔ inb capture_board q ∧ at_ capture_board q ≠ Some 0 ∧
                      at_ st' q = Some 0).
Proof.
  assert (Hwf : wf capture_board) by (apply (bool_decide_unpack _); reflexivity).
  assert (Hwf1 : wf capture_board_placed)
    by (apply (bool_decide_unpack _); reflexivity).
  assert (Hp : inb capture_board (0, 0)) by (apply (bool_decide_unpack _); reflexivity).
  apply (play_move_capture_succeeds capture_board "B" 0 0 capture_board_placed).
  - exact Hwf.
  - exact Hp.
  - reflexivity.
  - apply placed_setitem; [exact Hwf|exact Hp|reflexivity].
  - exists (1, 0).
    split; [apply (bool_decide_unpack _); reflexivity|].
    split; [reflexivity|]. split; [reflexivity|].
    apply (no_liberties_check capture_board_placed (1, 0) (-1) [(1, 0)]);
      [exact Hwf1|apply (bool_decide_unpack _); reflexivity|reflexivity
      |discriminate|vm_compute; reflexivity].
Defined.

(** C9.  Playing on an in-range cell that holds a stone raises
    [ValueError("attempt to play on occupied point")], and the board is the
    one before the call: the test comes before any write. *)
Theorem play_move_occupied st color x y v :
  inb st (x, y) → at_ st (x, y) = Some v → v ≠ 0 →
  play_move color (x, y) st = (Raise OccupiedPoint, st).
Proof.
  intros _ Hv Hv0. unfold play_move. rewrite bind_run. unfold pure_call at 1.
  rewrite (getitem_Ok _ _ _ _ Hv).
  destruct (Z.eqb_spec v 0) as [->|_]; [done|reflexivity].
Qed.

Lemma play_move_occupied_witness :
  play_move "W" (1, 0) suicide_board = (Raise OccupiedPoint, suicide_board).
Proof.
  apply (play_move_occupied suicide_board "W" 1 0 1).
  - apply (bool_decide_unpack _); reflexivity.
  - reflexivity.
  - discriminate.
Defined.

(** C8.  After any sequence of [play_move] calls on a new board that all
    return and capture nothing, the number of stones on the board is the
    number of calls. *)
Theorem stone_count_placements n st0 moves st' :
  new n = Ok st0 → capture_free_run moves st0 = Some st' →
  stone_count st' = length moves.
Proof.
  intros Hnew Hrun. rewrite (capture_free_run_count moves st0 st' Hrun).
  by rewrite (stone_count_new n st0 Hnew).
Qed.

Lemma stone_count_placements_witness :
  stone_count {| size := 3; board := [[1; 0; 0]; [0; -1; 0]; [0; 0; 0]] |} = 2%nat.
Proof.
  apply (stone_count_placements 3
           {| size := 3; board := [[0; 0; 0]; [0; 0; 0]; [0; 0; 0]] |}
           [("B", (0, 0)); ("W", (1, 1))]).
  - reflexivity.
  - vm_compute. reflexivity.
Defined.

(** C10.  [apply_setup] and [apply_empty] on a well-formed board never
    raise; entries with a coordinate outside [1, size] are skipped, the run
    being that on the list without them; and a cell [(cx, cy)] keeps its
    content unless [(cx + 1, cy + 1)] is listed. *)
Theorem apply_setup_empty_frame st color coords :
  wf st →
  (∃ st', apply_setup color coords st = (Ok tt, st') ∧ wf st' ∧
     apply_setup color (filter (in_1_size_coord st) coords) st = (Ok tt, st') ∧
     ∀ q, inb st q → (q.1 + 1, q.2 + 1) ∉ coords → at_ st' q = at_ st q) ∧
  (∃ st', apply_empty coords st = (Ok tt, st') ∧ wf st' ∧
     apply_empty (filter (in_1_size_coord st) coords) st = (Ok tt, st') ∧
     ∀ q, inb st q → (q.1 + 1, q.2 + 1) ∉ coords → at_ st' q = at_ st q).
Proof.
  intros Hwf. split.
  - destruct (setup_loop_spec st (color_value color) coords Hwf)
      as (st' & Hloop & Hwf' & _ & Hat).
    exists st'. unfold apply_setup. cbv zeta. rewrite <- setup_loop_filter.
    split; [done|]. split; [done|]. split; [done|].
    intros q Hq Hnot. rewrite Hat by done. by rewrite decide_False.
  - destruct (setup_loop_spec st 0 coords Hwf) as (st' & Hloop & Hwf' & _ & Hat).
    exists st'. unfold apply_empty. rewrite <- setup_loop_filter.
    split; [done|]. split; [done|]. split; [done|].
    intros q Hq Hnot. rewrite Hat by done. by rewrite decide_False.
Qed.

Definition setup_coords : list coord := [(1, 1); (0, 2); (4, 1); (2, -1); (3, 2)].

Lemma apply_setup_empty_frame_witness :
  (∃ st', apply_setup "B" setup_coords suicide_board = (Ok tt, st') ∧ wf st' ∧
     apply_setup "B" (filter (in_1_size_coord suicide_board) setup_coords)
       suicide_board = (Ok tt, st') ∧
     ∀ q, inb suicide_board q → (q.1 + 1, q.2 + 1) ∉ setup_coords →
          at_ st' q = at_ suicide_board q) ∧
  (∃ st', apply_empty setup_coords suicide_board = (Ok tt, st') ∧ wf st' ∧
     apply_empty (filter (in_1_size_coord suicide_board) setup_coords)
       suicide_board = (Ok tt, st') ∧
     ∀ q, inb suicide_board q → (q.1 + 1, q.2 + 1) ∉ setup_coords →
          at_ st' q = at_ suicide_board q).
Proof.
  apply (apply_setup_empty_frame suicide_board "B" setup_coords).
  apply (bool_decide_unpack _). reflexivity.
Defined.

Example apply_setup_skips_out_of_range :
  apply_setup "B" setup_coords suicide_board
  = (Ok tt, {| size := 3; board := [[1; 1; 0]; [1; 0; 1]; [0; 0; 0]] |}).
Proof. reflexivity. Qed.

Example play_move_capture_example :
  play_move "B" (0, 0) capture_board = (Ok [(1, 0); (0, 1)], capture_board_after).
Proof. vm_compute. reflexivity. Qed.

(** One group reached from two neighbours of the new stone is collected
    twice: the returned list then names each of its stones twice. *)
Example play_move_capture_twice :
  play_move "B" (0, 0)
    {| size := 3; board := [[0; -1; 1]; [-1; -1; 1]; [1; 1; 0]] |}
  = (Ok [(1, 0); (1, 1); (0, 1); (0, 1); (1, 1); (1, 0)],
     {| size := 3; board := [[1; 0; 1]; [0; 0; 1]; [1; 1; 0]] |}).
Proof. vm_compute. reflexivity. Qed.

End PlayMove.

(** ** Replaying a game with an illegal move *)

Module Replay.
Import Board Dataset.

Lemma samples_of_length n ms st : length (samples_of n ms st) = length ms.
Proof. revert st. induction ms as [|m ms IH]; intros st; simpl; [done|]. by rewrite IH. Qed.

Lemma compact_replay_step n c x y rest st :
  0 ≤ x < n → 0 ≤ y < n →
  Compact.replay n (Compact.encode (c, (x, y)) :: rest) st =
  match play_move c (x, y) st with
  | (Ok _, st') =>
      let '(out, o) := Compact.replay n rest st' in
      ((make_features st c, action n (c, (x, y))) :: out, o)
  | (Raise e, _) =>
      if is_ValueError e then ([(make_features st c, action n (c, (x, y)))], Finished)
      else ([(make_features st c, action n (c, (x, y)))], Raised e)
  | (OutOfFuel, _) => ([(make_features st c, action n (c, (x, y)))], Diverged)
  end.
Proof.
  intros Hx Hy. unfold action. cbn [Compact.replay Compact.encode fst snd].
  change (Compact.as_number (Compact.JInt (x + 1))) with (Some (Int (x + 1))).
  change (Compact.as_number (Compact.JInt (y + 1))) with (Some (Int (y + 1))).
  cbn [in_range].
  destruct (Z.leb_spec 1 (x + 1)); [|lia]. destruct (Z.leb_spec (x + 1) n); [|lia].
  destruct (Z.leb_spec 1 (y + 1)); [|lia]. destruct (Z.leb_spec (y + 1) n); [|lia].
  cbn [andb negb].
  change (action_of n (Int (x + 1)) (Int (y + 1)))
    with (Ok ((y + 1 - 1) * n + (x + 1 - 1)) : Res Z).
  cbv iota beta. replace (x + 1 - 1) with x by lia. replace (y + 1 - 1) with y by lia.
  reflexivity.
Qed.

Lemma sgf_replay_step n c x y rest st :
  0 ≤ x < n → 0 ≤ y < n →
  Sgf.replay n (Sgf.encode (c, (x, y)) :: rest) st =
  match play_move c (x, y) st with
  | (Ok _, st') =>
      let '(out, o) := Sgf.replay n rest st' in
      ((make_features st c, action n (c, (x, y))) :: out, o)
  | (Raise e, _) =>
      if is_ValueError e then ([(make_features st c, action n (c, (x, y)))], Finished)
      else ([(make_features st c, action n (c, (x, y)))], Raised e)
  | (OutOfFuel, _) => ([(make_features st c, action n (c, (x, y)))], Diverged)
  end.
Proof.
  intros Hx Hy. unfold action. cbn [Sgf.replay Sgf.encode fst snd].
  destruct (Z.leb_spec 0 x); [|lia]. destruct (Z.ltb_spec x n); [|lia].
  destruct (Z.leb_spec 0 y); [|lia]. destruct (Z.ltb_spec y n); [|lia].
  reflexivity.
Qed.

(** Both replay loops stop at the first move that [play_move] refuses,
    after the sample of that move. *)
Lemma replay_until_illegal n ms k st stk c p e stk' :
  Forall (in_board n) ms →
  play_all (take k ms) st = Some stk → ms !! k = Some (c, p) →
  play_move c p stk = (Raise e, stk') → is_ValueError e = true →
  Compact.replay n (map Compact.encode ms) st
    = (samples_of n (take (S k) ms) st, Finished) ∧
  Sgf.replay n (map Sgf.encode ms) st
    = (samples_of n (take (S k) ms) st, Finished).
Proof.
  intros Hin. revert k st. induction Hin as [|[c0 [x y]] ms [Hx Hy] Hin IH];
    intros k st Hplay Hk Hfail He; [done|].
  simpl in Hx, Hy. cbn [map]. rewrite compact_replay_step, sgf_replay_step by done.
  destruct k as [|k].
  - simpl in Hplay, Hk. injection Hplay as <-. injection Hk as -> ->.
    rewrite Hfail, He. done.
  - cbn [take play_all] in Hplay. simpl in Hk.
    destruct (play_move c0 (x, y) st) as [[caps|e0|] st1] eqn:Hmove; [|done..].
    destruct (IH k st1 Hplay Hk Hfail He) as [-> ->].
    cbn [take samples_of fst snd]. by rewrite Hmove.
Qed.

(** C5, as the code has it.  When the move of index [k] (from 0) of a
    game of in-range moves is the first that [play_move] refuses, both
    replay loops end normally having yielded [k + 1] samples, those of the
    moves of index [0] to [k]: the refused move has its sample, yielded
    before the move is tried. *)
Theorem replay_stops_after_illegal_move n st0 ms k stk c p e stk' :
  new n = Ok st0 → Forall (in_board n) ms →
  play_all (take k ms) st0 = Some stk → ms !! k = Some (c, p) →
  play_move c p stk = (Raise e, stk') → is_ValueError e = true →
  ∃ samples,
    Compact._game_to_samples n st0 (Compact.JList (map Compact.encode ms))
      = (samples, Finished) ∧
    Sgf.replay n (map Sgf.encode ms) st0 = (samples, Finished) ∧
    samples = samples_of n (take (S k) ms) st0 ∧
    length samples = S k ∧
    map snd samples = map (action n) (take (S k) ms).
Proof.
  intros _ Hin Hplay Hk Hfail He.
  destruct (replay_until_illegal n ms k st0 stk c p e stk' Hin Hplay Hk Hfail He)
    as [Hc Hs].
  exists (samples_of n (take (S k) ms) st0).
  split; [exact Hc|]. split; [exact Hs|]. split; [done|]. split.
  - rewrite samples_of_length, length_take.
    apply lookup_lt_Some in Hk. lia.
  - generalize (take (S k) ms) st0. intros l. induction l as [|m l IH]; intros st; [done|].
    simpl. by rewrite IH.
Qed.

Definition illegal_game : list Move := [("B", (0, 0)); ("W", (0, 0)); ("B", (1, 1))].
Definition empty_3 : GoGameState :=
  {| size := 3; board := [[0; 0; 0]; [0; 0; 0]; [0; 0; 0]] |}.

Lemma replay_stops_after_illegal_move_witness :
  ∃ samples,
    Compact._game_to_samples 3 empty_3 (Compact.JList (map Compact.encode illegal_game))
      = (samples, Finished) ∧
    Sgf.replay 3 (map Sgf.encode illegal_game) empty_3 = (samples, Finished) ∧
    samples = samples_of 3 (take 2 illegal_game) empty_3 ∧
    length samples = 2%nat ∧
    map snd samples = map (action 3) (take 2 illegal_game).
Proof.
  apply (replay_stops_after_illegal_move 3 empty_3 illegal_game 1
           {| size := 3; board := [[1; 0; 0]; [0; 0; 0]; [0; 0; 0]] |}
           "W" (0, 0) OccupiedPoint
           {| size := 3; board := [[1; 0; 0]; [0; 0; 0]; [0; 0; 0]] |}).
  - reflexivity.
  - apply (bool_decide_unpack _). reflexivity.
  - vm_compute. reflexivity.
  - reflexivity.
  - vm_compute. reflexivity.
  - reflexivity.
Defined.

(** C5 as the specification words it: the samples yielded number the index
    of the refused move.  It fails on a game whose second move is played on
    the stone of the first. *)
Definition samples_number_illegal_index (n : Z) (ms : list Move) : Prop :=
  ∀ st0 k stk c p e stk',
    new n = Ok st0 → Forall (in_board n) ms →
    play_all (take k ms) st0 = Some stk → ms !! k = Some (c, p) →
    play_move c p stk = (Raise e, stk') → is_ValueError e = true →
    length (Compact._game_to_samples n st0 (Compact.JList (map Compact.encode ms))).1 = k ∧
    length (Sgf.replay n (map Sgf.encode ms) st0).1 = k.

Lemma replay_illegal_move_counterexample :
  ¬ samples_number_illegal_index 3 illegal_game.
Proof.
  intros H.
  destruct (H empty_3 1%nat
              {| size := 3; board := [[1; 0; 0]; [0; 0; 0]; [0; 0; 0]] |}
              "W" (0, 0) OccupiedPoint
              {| size := 3; board := [[1; 0; 0]; [0; 0; 0]; [0; 0; 0]] |}) as [Hc _].
  - reflexivity.
  - apply (bool_decide_unpack _). reflexivity.
  - vm_compute. reflexivity.
  - reflexivity.
  - vm_compute. reflexivity.
  - reflexivity.
  - vm_compute in Hc. discriminate.
Qed.

End Replay.

(** ** Sharding, the cap on the games, and corrupt records *)

Module Iteration.
Import Board Dataset.

Lemma limit_reached_None {F I} (cfg : DatasetConfig F) (p : Progress I) :
  limit_games cfg = None → limit_reached cfg p = false.
Proof. intros H. unfold limit_reached. by rewrite H. Qed.

(** *** The compact format *)

(** Whatever a line holds, the body logs it exactly when its line number
    is the worker's modulo [num_workers]. *)
Lemma compact_visit_line_examined cfg mode w n fi gi line p p' c :
  limit_games cfg = None →
  Compact.visit_line cfg mode w n fi gi line p = (p', c) →
  examined p' = examined p ++ (if decide (gi mod n = w) then [(fi, gi)] else []) ∧
  c ≠ Stop Finished.
Proof.
  intros Hlim. unfold Compact.visit_line. rewrite (limit_reached_None cfg p Hlim).
  destruct (Z.eqb_spec (gi mod n) w) as [Heq|Hne]; cbn [negb].
  - rewrite decide_True by done.
    destruct (_selected cfg mode gi) as [[]|e|]; [|by intros [= <- <-]..].
    destruct line as [| |moves]; [by intros [= <- <-]..|].
    destruct (new (board_size cfg)) as [state|e|]; [|by intros [= <- <-]..].
    destruct (Compact._game_to_samples _ _ _) as [out [|e|]]; [by intros [= <- <-]| |by intros [= <- <-]].
    destruct (is_ValueError e); by intros [= <- <-].
  - rewrite decide_False by done. intros [= <- <-]. by rewrite app_nil_r.
Qed.

Lemma compact_visit_lines_examined cfg mode w n fi gi lines p p' c :
  limit_games cfg = None →
  Compact.visit_lines cfg mode w n fi gi lines p = (p', c) →
  c ≠ Stop Finished ∧
  (c = Next →
   examined p' = examined p ++
     filter (λ pos, pos.2 mod n = w) (Compact.line_positions fi gi lines)).
Proof.
  intros Hlim. revert gi p. induction lines as [|line lines IH]; intros gi p.
  - cbn. intros [= <- <-]. split; [done|]. intros _. by rewrite app_nil_r.
  - cbn [Compact.visit_lines].
    destruct (Compact.visit_line cfg mode w n fi gi line p) as [p1 c1] eqn:Hline.
    apply (compact_visit_line_examined _ _ _ _ _ _ _ _ _ _ Hlim) in Hline as [Hex Hc1].
    destruct c1 as [|o].
    + intros [Hc Hrest]%IH. split; [done|]. intros ->. rewrite (Hrest eq_refl), Hex.
      unfold Compact.line_positions. cbn [length]. rewrite Nat2Z.inj_succ, (seqZ_cons gi) by lia.
      cbn [map]. rewrite filter_cons. cbn [snd].
      replace (Z.succ gi) with (gi + 1) by lia.
      replace (Z.pred (Z.succ (Z.of_nat (length lines)))) with (Z.of_nat (length lines)) by lia.
      rewrite <- app_assoc. by destruct (decide (gi mod n = w)).
    + intros [= <- <-]. split; [done|]. done.
Qed.

Lemma compact_visit_files_examined cfg mode w n fi files p p' :
  limit_games cfg = None →
  Compact.visit_files cfg mode w n fi files p = (p', Finished) →
  examined p' = examined p ++
    filter (λ pos, pos.2 mod n = w) (Compact.positions fi files).
Proof.
  intros Hlim. revert fi p. induction files as [|[|lines|lines e] files IH]; intros fi p.
  - cbn. intros [= <-]. by rewrite app_nil_r.
  - cbn. discriminate.
  - cbn [Compact.visit_files Compact.positions].
    destruct (Compact.visit_lines cfg mode w n fi 0 lines p) as [p1 c1] eqn:Hlines.
    apply (compact_visit_lines_examined _ _ _ _ _ _ _ _ _ _ Hlim) in Hlines as [Hc1 Hex].
    destruct c1 as [|o].
    + intros ->%IH. rewrite (Hex eq_refl), filter_app. by rewrite <- app_assoc.
    + intros [= <- ->]. done.
  - cbn [Compact.visit_files].
    destruct (Compact.visit_lines cfg mode w n fi 0 lines p) as [p1 c1] eqn:Hlines.
    apply (compact_visit_lines_examined _ _ _ _ _ _ _ _ _ _ Hlim) in Hlines as [Hc1 Hex].
    destruct c1 as [|o]; [discriminate|]. intros [= <- ->]. done.
Qed.

(** *** The SGF format *)

Lemma sgf_visit_file_examined cfg mode w n i file p p' c :
  limit_games cfg = None →
  Sgf.visit_file cfg mode w n i file p = (p', c) →
  examined p' = examined p ++ (if decide (i mod n = w) then [i] else []) ∧
  c ≠ Stop Finished.
Proof.
  intros Hlim. unfold Sgf.visit_file. rewrite (limit_reached_None cfg p Hlim).
  destruct (Z.eqb_spec (i mod n) w) as [Heq|Hne]; cbn [negb].
  - rewrite decide_True by done.
    destruct (_selected cfg mode i) as [[]|e|]; [|by intros [= <- <-]..].
    destruct file as [e|sz nodes]; [by intros [= <- <-]|].
    destruct (negb (sz =? board_size cfg)); [by intros [= <- <-]|].
    destruct (new (board_size cfg)) as [state|e|]; [|by intros [= <- <-]..].
    destruct (Sgf.replay _ _ _) as [out [|e|]]; by intros [= <- <-].
  - rewrite decide_False by done. intros [= <- <-]. by rewrite app_nil_r.
Qed.

Lemma sgf_visit_files_examined cfg mode w n i files p p' :
  limit_games cfg = None →
  Sgf.visit_files cfg mode w n i files p = (p', Finished) →
  examined p' = examined p ++
    filter (λ j, j mod n = w) (seqZ i (Z.of_nat (length files))).
Proof.
  intros Hlim. revert i p. induction files as [|file files IH]; intros i p.
  - cbn. intros [= <-]. by rewrite app_nil_r.
  - cbn [Sgf.visit_files].
    destruct (Sgf.visit_file cfg mode w n i file p) as [p1 c1] eqn:Hfile.
    apply (sgf_visit_file_examined _ _ _ _ _ _ _ _ _ Hlim) in Hfile as [Hex Hc1].
    destruct c1 as [|o].
    + intros ->%IH. rewrite Hex. cbn [length].
      rewrite Nat2Z.inj_succ, (seqZ_cons i) by lia. rewrite filter_cons.
      replace (Z.succ i) with (i + 1) by lia.
      replace (Z.pred (Z.succ (Z.of_nat (length files)))) with (Z.of_nat (length files)) by lia.
      rewrite <- app_assoc. by destruct (decide (i mod n = w)).
    + intros [= <- ->]. done.
Qed.

Lemma compact_examined_iff cfg mode w n p :
  limit_games cfg = None →
  Compact.__iter__ cfg mode (Some (w, n)) = (p, Finished) →
  examined p = filter (λ pos, pos.2 mod n = w) (Compact.positions 0 (data_files cfg)) ∧
  ∀ fi gi, (fi, gi) ∈ examined p ↔
           (fi, gi) ∈ Compact.positions 0 (data_files cfg) ∧ gi mod n = w.
Proof.
  intros Hlim Hrun. unfold Compact.__iter__ in Hrun. cbn [worker] in Hrun.
  apply (compact_visit_files_examined _ _ _ _ _ _ _ _ Hlim) in Hrun.
  cbn [start examined app] in Hrun. split; [done|].
  intros fi gi. rewrite Hrun, list_elem_of_filter. cbn [snd]. tauto.
Qed.

Lemma sgf_examined_iff cfg mode w n p :
  limit_games cfg = None →
  Sgf.__iter__ cfg mode (Some (w, n)) = (p, Finished) →
  examined p = filter (λ i, i mod n = w) (seqZ 0 (Z.of_nat (length (data_files cfg)))) ∧
  ∀ i, i ∈ examined p ↔ 0 ≤ i < Z.of_nat (length (data_files cfg)) ∧ i mod n = w.
Proof.
  intros Hlim Hrun. unfold Sgf.__iter__ in Hrun. cbn [worker] in Hrun.
  apply (sgf_visit_files_examined _ _ _ _ _ _ _ _ Hlim) in Hrun.
  cbn [start examined app] in Hrun. split; [done|].
  intros i. rewrite Hrun, list_elem_of_filter, elem_of_seqZ. intuition lia.
Qed.

(** C4, as the code has it.  With no [limit_games], a worker whose
    iteration ends normally has gone through exactly the games whose index
    is its [worker_id] modulo [num_workers], where the index of a game is
    its line number in its own file (from 0 in each file) for the compact
    format, and the index of its file in the file list for the SGF format;
    two workers share no game, and every game goes to the worker of its
    index modulo [num_workers]. *)
Theorem shard_by_index (cfgc : DatasetConfig Compact.DataFile)
    (cfgs : DatasetConfig Sgf.SgfFile) mode w n pc ps :
  1 ≤ n → limit_games cfgc = None → limit_games cfgs = None →
  Compact.__iter__ cfgc mode (Some (w, n)) = (pc, Finished) →
  Sgf.__iter__ cfgs mode (Some (w, n)) = (ps, Finished) →
  (∀ fi gi, (fi, gi) ∈ examined pc ↔
            (fi, gi) ∈ Compact.positions 0 (data_files cfgc) ∧ gi mod n = w) ∧
  (∀ i, i ∈ examined ps ↔ 0 ≤ i < Z.of_nat (length (data_files cfgs)) ∧ i mod n = w) ∧
  (∀ w' pc' ps',
     Compact.__iter__ cfgc mode (Some (w', n)) = (pc', Finished) →
     Sgf.__iter__ cfgs mode (Some (w', n)) = (ps', Finished) →
     (w' ≠ w → (∀ pos, pos ∈ examined pc → pos ∉ examined pc') ∧
               (∀ i, i ∈ examined ps → i ∉ examined ps')) ∧
     (∀ fi gi, (fi, gi) ∈ Compact.positions 0 (data_files cfgc) → w' = gi mod n →
               (fi, gi) ∈ examined pc') ∧
     (∀ i, 0 ≤ i < Z.of_nat (length (data_files cfgs)) → w' = i mod n →
           i ∈ examined ps') ∧
     (∀ i, 0 ≤ i mod n < n)).
Proof.
  intros Hn Hlc Hls Hc Hs.
  destruct (compact_examined_iff cfgc mode w n pc Hlc Hc) as [_ Hci].
  destruct (sgf_examined_iff cfgs mode w n ps Hls Hs) as [_ Hsi].
  split; [done|]. split; [done|].
  intros w' pc' ps' Hc' Hs'.
  destruct (compact_examined_iff cfgc mode w' n pc' Hlc Hc') as [_ Hci'].
  destruct (sgf_examined_iff cfgs mode w' n ps' Hls Hs') as [_ Hsi'].
  split; [|split; [|split]].
  - intros Hne. split.
    + intros [fi gi] [_ H1]%Hci [_ H2]%Hci'. congruence.
    + intros i [_ H1]%Hsi [_ H2]%Hsi'. congruence.
  - intros fi gi Hpos ->. by apply Hci'.
  - intros i Hi ->. by apply Hsi'.
  - intros i. apply Z.mod_pos_bound. lia.
Qed.

Definition one_move_game : Compact.json :=
  Compact.JList [Compact.encode ("B", (1, 1))].

Definition shard_files : DatasetConfig Compact.DataFile :=
  {| board_size := 3;
     data_files := [Compact.Lines [Compact.Blank; Compact.Json one_move_game];
                    Compact.Lines [Compact.Json one_move_game]];
     val_ratio := float_0; limit_games := None |}.

Definition shard_sgf_files : DatasetConfig Sgf.SgfFile :=
  {| board_size := 3;
     data_files := [Sgf.Game 3 [(None, None); Sgf.encode ("B", (1, 1))];
                    Sgf.Unparsable OSError;
                    Sgf.Game 3 [(None, None); Sgf.encode ("W", (0, 0))]];
     val_ratio := float_0; limit_games := None |}.

Lemma shard_by_index_witness :
  let pc := (Compact.__iter__ shard_files train (Some (1, 2))).1 in
  let ps := (Sgf.__iter__ shard_sgf_files train (Some (1, 2))).1 in
  (∀ fi gi, (fi, gi) ∈ examined pc ↔
            (fi, gi) ∈ Compact.positions 0 (data_files shard_files) ∧ gi mod 2 = 1) ∧
  (∀ i, i ∈ examined ps ↔
        0 ≤ i < Z.of_nat (length (data_files shard_sgf_files)) ∧ i mod 2 = 1) ∧
  (∀ w' pc' ps',
     Compact.__iter__ shard_files train (Some (w', 2)) = (pc', Finished) →
     Sgf.__iter__ shard_sgf_files train (Some (w', 2)) = (ps', Finished) →
     (w' ≠ 1 → (∀ pos, pos ∈ examined pc → pos ∉ examined pc') ∧
               (∀ i, i ∈ examined ps → i ∉ examined ps')) ∧
     (∀ fi gi, (fi, gi) ∈ Compact.positions 0 (data_files shard_files) → w' = gi mod 2 →
               (fi, gi) ∈ examined pc') ∧
     (∀ i, 0 ≤ i < Z.of_nat (length (data_files shard_sgf_files)) → w' = i mod 2 →
           i ∈ examined ps') ∧
     (∀ i, 0 ≤ i mod 2 < 2)).
Proof.
  apply (shard_by_index shard_files shard_sgf_files train 1 2).
  - lia.
  - reflexivity.
  - reflexivity.
  - vm_compute. reflexivity.
  - vm_compute. reflexivity.
Defined.

(** C4 as the specification words it for the compact format: the index
    that is sharded is the line number in the concatenation of the files.
    With two files of one line each and two workers, the line of the second
    file has index 1 in the concatenation, yet worker 1 gets no game (and
    worker 0 both): [enumerate] starts again from 0 in each file. *)
Definition sharded_by_stream_index (cfg : DatasetConfig Compact.DataFile)
    (n w : Z) : Prop :=
  ∀ mode p, Compact.__iter__ cfg mode (Some (w, n)) = (p, Finished) →
    ∀ fi gi, (fi, gi) ∈ Compact.positions 0 (data_files cfg) →
      ((fi, gi) ∈ examined p ↔
       (Compact.stream_offset (data_files cfg) fi + gi) mod n = w).

Definition two_files : DatasetConfig Compact.DataFile :=
  {| board_size := 3;
     data_files := [Compact.Lines [Compact.Json one_move_game];
                    Compact.Lines [Compact.Json one_move_game]];
     val_ratio := float_0; limit_games := None |}.

Lemma shard_by_stream_index_counterexample :
  ¬ sharded_by_stream_index two_files 2 1.
Proof.
  intros H.
  specialize (H train (Compact.__iter__ two_files train (Some (1, 2))).1).
  assert (Hin : (1%nat, 0) ∈ examined (Compact.__iter__ two_files train (Some (1, 2))).1).
  { apply (H eq_refl 1%nat 0); [|reflexivity].
    vm_compute. right. left. }
  vm_compute in Hin. by apply elem_of_nil in Hin.
Qed.

Example two_files_worker_0 :
  examined (Compact.__iter__ two_files train (Some (0, 2))).1 = [(0%nat, 0); (1%nat, 0)].
Proof. vm_compute. reflexivity. Qed.

(** *** Corrupt records *)

(** In the compact format [json.loads] is called before the [try]: on a
    malformed line that the worker owns, within the cap and in the split,
    the [JSONDecodeError] leaves [__iter__]. *)
Lemma compact_malformed_line_raises cfg mode w n fi gi p :
  gi mod n = w → limit_reached cfg p = false → _selected cfg mode gi = Ok true →
  ∃ p', Compact.visit_line cfg mode w n fi gi Compact.Malformed p
        = (p', Stop (Raised JSONDecodeError)) ∧ yielded p' = yielded p.
Proof.
  intros Hw Hlim Hsel. unfold Compact.visit_line.
  rewrite (proj2 (Z.eqb_eq _ _) Hw), Hlim, Hsel. cbn [negb]. eauto.
Qed.

(** In the SGF format the file is read and parsed inside
    [try ... except Exception]: a file that cannot be read or parsed, or
    whose size is not the board size, yields nothing, leaves [games_seen]
    as it is, and the loop goes on with the next file. *)
Lemma sgf_bad_file_skipped cfg mode w n i file p :
  (match file with
   | Sgf.Unparsable _ => True
   | Sgf.Game sz _ => sz ≠ board_size cfg
   end) →
  i mod n = w → limit_reached cfg p = false → _selected cfg mode i = Ok true →
  ∃ p', Sgf.visit_file cfg mode w n i file p = (p', Next) ∧
        yielded p' = yielded p ∧ games_seen p' = games_seen p.
Proof.
  intros Hbad Hw Hlim Hsel. unfold Sgf.visit_file.
  rewrite (proj2 (Z.eqb_eq _ _) Hw), Hlim, Hsel. cbn [negb].
  destruct file as [e|sz nodes]; [eauto|].
  destruct (Z.eqb_spec sz (board_size cfg)); [done|]. cbn [negb]. eauto.
Qed.

Definition corrupt_line_file : DatasetConfig Compact.DataFile :=
  {| board_size := 3;
     data_files := [Compact.Lines [Compact.Malformed; Compact.Json one_move_game]];
     val_ratio := float_0; limit_games := None |}.

(** C6, the compact format: a file whose first line is not JSON and whose
    second line is a game.  The iteration ends with the [JSONDecodeError]
    of the first line, and the game of the second line is never replayed. *)
Theorem compact_malformed_line_propagates :
  Compact.__iter__ corrupt_line_file train None
  = ({| games_seen := 1; yielded := []; examined := [(0%nat, 0)] |},
     Raised JSONDecodeError).
Proof. vm_compute. reflexivity. Qed.

(** The same games behind SGF files: the corrupt one is skipped, the next
    one replayed. *)
Example sgf_corrupt_file_skipped :
  let r := Sgf.__iter__
    {| board_size := 3;
       data_files := [Sgf.Unparsable (ValueError "bad sgf");
                      Sgf.Game 3 [(None, None); Sgf.encode ("B", (1, 1))]];
       val_ratio := float_0; limit_games := None |} train None in
  r.2 = Finished ∧ examined r.1 = [0; 1] ∧ games_seen r.1 = 1 ∧
  map snd (yielded r.1) = [4].
Proof. vm_compute. by repeat split. Qed.

(** *** The cap on the games *)

(** In the compact format [games_seen] counts every game the worker goes
    through, and never exceeds [limit_games]. *)
Lemma compact_visit_line_cap cfg mode w n fi gi line l p p' c :
  limit_games cfg = Some l →
  games_seen p = Z.of_nat (length (examined p)) → games_seen p ≤ Z.max l 0 →
  Compact.visit_line cfg mode w n fi gi line p = (p', c) →
  games_seen p' = Z.of_nat (length (examined p')) ∧ games_seen p' ≤ Z.max l 0.
Proof.
  intros Hlim Hlen Hle. unfold Compact.visit_line, limit_reached. rewrite Hlim.
  destruct (negb (gi mod n =? w)); [by intros [= <- <-]|].
  destruct (Z.geb_spec (games_seen p) l) as [Hge|Hlt]; [by intros [= <- <-]|].
  assert (Hp : ∀ y,
    games_seen {| games_seen := games_seen p + 1; yielded := y;
                  examined := examined p ++ [(fi, gi)] |}
    = Z.of_nat (length (examined {| games_seen := games_seen p + 1; yielded := y;
                                    examined := examined p ++ [(fi, gi)] |}))
    ∧ games_seen {| games_seen := games_seen p + 1; yielded := y;
                    examined := examined p ++ [(fi, gi)] |} ≤ Z.max l 0).
  { intros y. cbn. rewrite length_app. cbn. lia. }
  destruct (_selected cfg mode gi) as [[]|e|]; [|intros [= <- <-]; apply Hp..].
  destruct line as [| |moves]; [intros [= <- <-]; apply Hp..|].
  destruct (new (board_size cfg)) as [state|e|]; [|intros [= <- <-]; apply Hp..].
  destruct (Compact._game_to_samples _ _ _) as [out [|e|]];
    [intros [= <- <-]; apply Hp| |intros [= <- <-]; apply Hp].
  destruct (is_ValueError e); intros [= <- <-]; apply Hp.
Qed.

Lemma compact_visit_lines_cap cfg mode w n fi gi lines l p p' c :
  limit_games cfg = Some l →
  games_seen p = Z.of_nat (length (examined p)) → games_seen p ≤ Z.max l 0 →
  Compact.visit_lines cfg mode w n fi gi lines p = (p', c) →
  games_seen p' = Z.of_nat (length (examined p')) ∧ games_seen p' ≤ Z.max l 0.
Proof.
  intros Hlim. revert gi p. induction lines as [|line lines IH]; intros gi p Hlen Hle.
  - cbn. by intros [= <- <-].
  - cbn [Compact.visit_lines].
    destruct (Compact.visit_line cfg mode w n fi gi line p) as [p1 c1] eqn:Hline.
    destruct (compact_visit_line_cap _ _ _ _ _ _ _ _ _ _ _ Hlim Hlen Hle Hline).
    destruct c1 as [|o]; [by apply IH|by intros [= <- <-]].
Qed.

(** The compact iteration goes through at most [limit_games] games. *)
Lemma compact_cap cfg mode info l p o :
  limit_games cfg = Some l →
  Compact.__iter__ cfg mode info = (p, o) →
  games_seen p = Z.of_nat (length (examined p)) ∧
  Z.of_nat (length (examined p)) ≤ Z.max l 0.
Proof.
  intros Hlim. unfold Compact.__iter__. destruct (worker info) as [w n].
  assert (H0 : games_seen (@start (nat * Z)) = Z.of_nat (length (examined (@start (nat * Z)))))
    by done.
  assert (H1 : games_seen (@start (nat * Z)) ≤ Z.max l 0) by (cbn; lia).
  revert H0 H1. generalize (@start (nat * Z)) 0%nat.
  induction (data_files cfg) as [|[|lines|lines e] files IH]; intros p0 fi H0 H1.
  - cbn. intros [= <- <-]. split; [done|]. by rewrite <- H0.
  - cbn. intros [= <- <-]. split; [done|]. by rewrite <- H0.
  - cbn [Compact.visit_files].
    destruct (Compact.visit_lines cfg mode w n fi 0 lines p0) as [p1 c1] eqn:Hlines.
    destruct (compact_visit_lines_cap _ _ _ _ _ _ _ _ _ _ _ Hlim H0 H1 Hlines) as [H0' H1'].
    destruct c1 as [|o1]; [by apply IH|].
    intros [= <- <-]. split; [done|]. by rewrite <- H0'.
  - cbn [Compact.visit_files].
    destruct (Compact.visit_lines cfg mode w n fi 0 lines p0) as [p1 c1] eqn:Hlines.
    destruct (compact_visit_lines_cap _ _ _ _ _ _ _ _ _ _ _ Hlim H0 H1 Hlines) as [H0' H1'].
    destruct c1 as [|o1]; intros [= <- <-]; (split; [done|]); by rewrite <- H0'.
Qed.

Definition capped_sgf_files : DatasetConfig Sgf.SgfFile :=
  {| board_size := 3;
     data_files := [Sgf.Unparsable OSError;
                    Sgf.Game 9 [(None, None); Sgf.encode ("B", (4, 4))];
                    Sgf.Game 3 [(None, None); Sgf.encode ("B", (1, 1))];
                    Sgf.Game 3 [(None, None); Sgf.encode ("W", (0, 0))]];
     val_ratio := float_0; limit_games := Some 1 |}.

(** C7, the SGF format: with [limit_games = 1] the single worker goes
    through three files, an unreadable one, one of another board size and a
    good one, before the cap stops it at the fourth: [games_seen] is only
    incremented at the end of the [try] block, after a game was replayed. *)
Theorem sgf_cap_counts_replayed_games :
  ∃ p, Sgf.__iter__ capped_sgf_files train None = (p, Finished) ∧
       examined p = [0; 1; 2] ∧ games_seen p = 1 ∧ length (yielded p) = 1%nat.
Proof. eexists. split; [vm_compute; reflexivity|]. by repeat split. Qed.

End Iteration.

(** ** The train/val split *)

Module Split.
Import Dataset.

(** *** The product of a float of [0, 1] and [1000.0] is finite *)

Lemma digits2_pos_spec p :
  2 ^ (Z.pos (digits2_pos p) - 1) ≤ Z.pos p < 2 ^ Z.pos (digits2_pos p).
Proof.
  induction p as [p IH|p IH|]; cbn [digits2_pos].
  - rewrite Pos2Z.inj_succ.
    replace (Z.succ (Z.pos (digits2_pos p)) - 1) with (Z.succ (Z.pos (digits2_pos p) - 1))
      by lia.
    rewrite !Z.pow_succ_r by lia. lia.
  - rewrite Pos2Z.inj_succ.
    replace (Z.succ (Z.pos (digits2_pos p)) - 1) with (Z.succ (Z.pos (digits2_pos p) - 1))
      by lia.
    rewrite !Z.pow_succ_r by lia. lia.
  - cbn. lia.
Qed.

Lemma Zdigits2_le m k : 0 ≤ m < 2 ^ k → 0 ≤ k → Zdigits2 m ≤ k.
Proof.
  intros [Hm Hlt] Hk. destruct m as [|p|p]; cbn [Zdigits2]; [lia| |lia].
  destruct (digits2_pos_spec p) as [Hlo _].
  destruct (Z.le_gt_cases (Z.pos (digits2_pos p)) k) as [|Hgt]; [done|].
  assert (2 ^ k ≤ 2 ^ (Z.pos (digits2_pos p) - 1)) by (apply Z.pow_le_mono_r; lia).
  lia.
Qed.

Lemma shr_1_bounds mrs : 0 ≤ shr_m mrs → 0 ≤ shr_m (shr_1 mrs) ≤ shr_m mrs.
Proof. destruct mrs as [[|[p|p|]|p] r s]; cbn; lia. Qed.

Lemma iter_shr_1_bounds p mrs :
  0 ≤ shr_m mrs → 0 ≤ shr_m (SpecFloat.iter_pos shr_1 p mrs) ≤ shr_m mrs.
Proof.
  revert mrs. induction p as [p IH|p IH|]; intros mrs Hm; cbn [SpecFloat.iter_pos].
  - pose proof (shr_1_bounds mrs Hm) as H1.
    pose proof (IH (shr_1 mrs) (proj1 H1)) as H2.
    pose proof (IH _ (proj1 H2)) as H3. lia.
  - pose proof (IH mrs Hm) as H2. pose proof (IH _ (proj1 H2)) as H3. lia.
  - by apply shr_1_bounds.
Qed.

Lemma shr_fexp_bounds m e l mrs' e' :
  0 ≤ m → shr_fexp prec emax m e l = (mrs', e') →
  0 ≤ shr_m mrs' ≤ m ∧ e' = Z.max e (fexp prec emax (Zdigits2 m + e)).
Proof.
  intros Hm. unfold shr_fexp, shr.
  assert (Hrec : shr_m (shr_record_of_loc m l) = m) by (by destruct l as [|[]]).
  destruct (fexp prec emax (Zdigits2 m + e) - e) as [|n|n] eqn:Hn.
  - intros [= <- <-]. rewrite Hrec. lia.
  - intros [= <- <-].
    pose proof (iter_shr_1_bounds n (shr_record_of_loc m l)) as Hb.
    rewrite Hrec in Hb. split; [by apply Hb|]. lia.
  - intros [= <- <-]. rewrite Hrec. lia.
Qed.

Lemma round_nearest_even_bounds m l : m ≤ round_nearest_even m l ≤ m + 1.
Proof. destruct l as [|[]]; cbn; [lia| |lia|lia]. destruct (Z.even m); lia. Qed.

Lemma binary_round_aux_finite M E :
  0 < M < 2 ^ 106 → E ≤ -95 →
  binary_round_aux prec emax false M E loc_Exact = S754_zero false ∨
  ∃ m e, binary_round_aux prec emax false M E loc_Exact = S754_finite false m e.
Proof.
  intros HM HE. unfold binary_round_aux.
  destruct (shr_fexp prec emax M E loc_Exact) as [mrs1 e1] eqn:H1.
  apply shr_fexp_bounds in H1 as [Hm1 He1]; [|lia].
  pose proof (round_nearest_even_bounds (shr_m mrs1) (loc_of_shr_record mrs1)) as Hr.
  set (m1 := round_nearest_even (shr_m mrs1) (loc_of_shr_record mrs1)) in *.
  destruct (shr_fexp prec emax m1 e1 loc_Exact) as [mrs2 e2] eqn:H2.
  apply shr_fexp_bounds in H2 as [Hm2 He2]; [|lia].
  assert (Hd : Zdigits2 M ≤ 106) by (apply Zdigits2_le; lia).
  assert (Hd1 : Zdigits2 m1 ≤ 107).
  { apply Zdigits2_le; [|lia]. change (2 ^ 107) with (2 * 2 ^ 106). lia. }
  unfold fexp, emin, prec, emax in He1, He2.
  destruct (shr_m mrs2) as [|m|m] eqn:Hm; [by left| |lia].
  right. exists m, e2. unfold prec, emax.
  destruct (Z.leb_spec e2 (1024 - 53)); [done|lia].
Qed.

Lemma float_unit_interval v :
  float_valid v = true → SFleb float_0 v = true → SFleb v float_1 = true →
  SFleb v float_0 = false →
  ∃ m e, v = S754_finite false m e ∧ Z.pos m < 2 ^ 53 ∧ e ≤ -52.
Proof.
  intros Hvalid H0 H1 Hpos. destruct v as [s|s| |s m e]; try done.
  - by destruct s.
  - cbn in H0. destruct s; [done|]. exists m, e. split; [done|].
    unfold float_valid, valid_binary, bounded, canonical_mantissa in Hvalid.
    apply andb_true_iff in Hvalid as [Hc _]. apply Z.eqb_eq in Hc.
    unfold fexp, emin, prec, emax in Hc.
    destruct (digits2_pos_spec m) as [_ Hhi]. split.
    + assert (2 ^ Z.pos (digits2_pos m) ≤ 2 ^ 53) by (apply Z.pow_le_mono_r; lia). lia.
    + unfold SFleb, SFcompare, float_1 in H1.
      destruct (Z.compare_spec e (-52)); [lia|lia|done].
Qed.

(** [int(val_ratio * 1000)] returns, and is not negative. *)
Lemma threshold_defined v :
  float_valid v = true → SFleb float_0 v = true → SFleb v float_1 = true →
  SFleb v float_0 = false →
  ∃ threshold, py_int (float_mul v float_1000) = Ok threshold ∧ 0 ≤ threshold.
Proof.
  intros Hvalid H0 H1 Hpos.
  destruct (float_unit_interval v Hvalid H0 H1 Hpos) as (m & e & -> & Hm & He).
  unfold float_mul, float_1000, SFmul. cbn [xorb].
  destruct (binary_round_aux_finite (Z.pos (m * 8796093022208000)) (e + -43))
    as [->|(m' & e' & ->)].
  - rewrite Pos2Z.inj_mul. change (2 ^ 106) with (2 ^ 53 * 2 ^ 53).
    change (2 ^ 53) with 9007199254740992 in *. nia.
  - lia.
  - exists 0. by split.
  - cbn [py_int]. eexists. split; [done|]. cbv zeta.
    destruct (Z.leb_spec 0 e').
    + apply Z.mul_nonneg_nonneg; [lia|]. apply Z.pow_nonneg. lia.
    + apply Z.div_pos; [lia|]. apply Z.pow_pos_nonneg; lia.
Qed.

(** *** The threshold and the exact product *)

(** The value of a float that is not negative is
    [numerator / denominator]. *)
Definition numerator (v : spec_float) : Z :=
  match v with
  | S754_finite false m e => if 0 <=? e then Z.pos m * 2 ^ e else Z.pos m
  | _ => 0
  end.

Definition denominator (v : spec_float) : Z :=
  match v with
  | S754_finite false m e => if 0 <=? e then 1 else 2 ^ (- e)
  | _ => 1
  end.

(** [floor(val_ratio * 1000)], the product being that of the numbers. *)
Definition exact_floor (v : spec_float) : Z :=
  (numerator v * 1000) / denominator v.










(** [0.1] *)
Definition float_0_1 : spec_float := S754_finite false 7205759403792794 (-56).



(** The float nearest to [0.29], which is below [0.29]. *)
Definition float_0_29 : spec_float := S754_finite false 5224175567749775 (-54).

Definition twenty_nine_percent : DatasetConfig unit :=
  {| board_size := 19; data_files := []; val_ratio := float_0_29; limit_games := None |}.



Example exact_floor_0_29 :
  exact_floor float_0_29 = 289 ∧
  py_int (float_mul float_0_29 float_1000) = Ok 290 ∧
  _selected twenty_nine_percent val 289 = Ok true.
Proof. vm_compute. by repeat split. Qed.

(** With [val_ratio = 0.1] the exact product is just above 100, and the
    threshold is 100. *)
Example exact_floor_0_1 : exact_floor float_0_1 = 100.
Proof. vm_compute. reflexivity. Qed.

(** With [val_ratio = 0.1] the threshold is 100. *)
Example threshold_ten_percent : py_int (float_mul float_0_1 float_1000) = Ok 100.
Proof. vm_compute. reflexivity. Qed.

(** The product is the float product: the float nearest to [0.29] is
    below [0.29], and its product with [1000.0] rounds to [290.0]. *)
Example threshold_rounds :
  py_int (float_mul (S754_finite false 5224175567749775 (-54)) float_1000) = Ok 290.
Proof. vm_compute. reflexivity. Qed.

End Split.

(** ** More facts on the board, shared by the properties below *)

Module MoreFacts.
Import Board Rules BoardFacts.

(** What [play_move] does on a well-formed board at an in-range point. *)
Lemma play_move_cases st color x y :
  wf st → inb st (x, y) →
  (∃ v, at_ st (x, y) = Some v ∧ v ≠ 0 ∧
        play_move color (x, y) st = (Raise OccupiedPoint, st)) ∨
  (at_ st (x, y) = Some 0 ∧
   ∃ st1 st2 caps,
     placed st (x, y) (color_value color) st1 ∧
     captures_removed st1 (x, y) (color_value color) st2 ∧
     (∀ q, q ∈ caps ↔ captured st1 (x, y) (color_value color) q) ∧
     ((no_liberties st2 (x, y) ∧ play_move color (x, y) st = (Raise SuicideMove, st)) ∨
      (¬ no_liberties st2 (x, y) ∧ play_move color (x, y) st = (Ok caps, st2)))).
Proof.
  intros Hwf Hp. destruct (at_is_Some st (x, y) Hwf Hp) as [v Hv].
  destruct (decide (v = 0)) as [->|Hv0].
  - right. split; [done|]. by apply play_move_run.
  - left. exists v. split; [done|]. split; [done|].
    unfold play_move. rewrite bind_run. unfold pure_call at 1.
    rewrite (getitem_Ok _ _ _ _ Hv).
    destruct (Z.eqb_spec v 0) as [->|_]; [done|reflexivity].
Qed.

(** In short: it returns or raises a [ValueError], and the board it
    leaves is well-formed, the one before the call when it raises. *)
Lemma play_move_result st color x y :
  wf st → inb st (x, y) →
  ∃ r st', play_move color (x, y) st = (r, st') ∧ wf st' ∧ size st' = size st ∧
    ((∃ caps, r = Ok caps) ∨
     (∃ e, r = Raise e ∧ is_ValueError e = true ∧ st' = st)).
Proof.
  intros Hwf Hp.
  destruct (play_move_cases st color x y Hwf Hp)
    as [(v & _ & _ & Hrun)|(_ & st1 & st2 & caps & Hpl & Hrm & _ & [[_ Hrun]|[_ Hrun]])].
  - exists (Raise OccupiedPoint), st. split; [done|]. split; [done|]. split; [done|].
    right. by exists OccupiedPoint.
  - exists (Raise SuicideMove), st. split; [done|]. split; [done|]. split; [done|].
    right. by exists SuicideMove.
  - exists (Ok caps), st2. split; [done|].
    destruct Hpl as (_ & Hs1 & _), Hrm as (Hwf2 & Hs2 & _).
    split; [done|]. split; [congruence|]. left. by exists caps.
Qed.

Lemma new_wf n st : new n = Ok st → wf st ∧ size st = n.
Proof.
  unfold new. destruct (Z.leb_spec n 0); [discriminate|].
  destruct (Z.ltb_spec 25 n); [discriminate|]. cbn [orb]. intros [= <-].
  split; [|done]. split; [cbn; lia|]. cbn [size board]. split.
  - rewrite length_replicate. lia.
  - apply Forall_replicate. rewrite length_replicate. lia.
Qed.

Lemma new_at n st q : new n = Ok st → inb st q → at_ st q = Some 0.
Proof.
  intros Hnew Hq. destruct (new_wf n st Hnew) as [Hwf Hsz].
  rewrite (at_nat st q Hwf Hq). revert Hnew. unfold new.
  destruct (_ || _); [discriminate|]. intros [= <-]. cbn [board].
  destruct Hq as [Hx Hy]. cbn [size] in Hx, Hy.
  rewrite lookup_replicate_2 by lia. cbn. by rewrite lookup_replicate_2 by lia.
Qed.

End MoreFacts.

(** ** The board: construction, neighbours, groups, moves *)

Module BoardExtras.
Import Board Rules BoardFacts MoreFacts.

(** [GoGameState(size)] raises [ValueError] outside [1, 25]; inside, it
    gives a well-formed board of that size with every cell empty and no
    stone. *)
Theorem new_board n :
  (1 ≤ n ≤ 25 →
     ∃ st, new n = Ok st ∧ wf st ∧ size st = n ∧ stone_count st = 0%nat ∧
           ∀ q, inb st q → at_ st q = Some 0) ∧
  (¬ 1 ≤ n ≤ 25 → new n = Raise (ValueError "Unsupported board size")).
Proof.
  split.
  - intros Hn. destruct (new n) as [st|e|] eqn:Hnew.
    + exists st. destruct (new_wf n st Hnew). split; [done|]. split; [done|].
      split; [done|]. split; [by eapply stone_count_new|].
      intros q. by apply (new_at n).
    + exfalso. revert Hnew. unfold new.
      destruct (Z.leb_spec n 0); [lia|]. by destruct (Z.ltb_spec 25 n); [lia|].
    + exfalso. revert Hnew. unfold new. by destruct (_ || _).
  - intros Hn. unfold new.
    destruct (Z.leb_spec n 0); [done|]. destruct (Z.ltb_spec 25 n); [done|lia].
Qed.

Lemma new_board_witness :
  ∃ st, new 19 = Ok st ∧ wf st ∧ size st = 19 ∧ stone_count st = 0%nat ∧
        ∀ q, inb st q → at_ st q = Some 0.
Proof. apply (proj1 (new_board 19)). lia. Defined.

(** [_neighbors] of an in-range point yields exactly the in-range points
    at distance 1, each once and at most four; the relation is symmetric. *)
Theorem neighbors_spec st p :
  inb st p →
  (∀ q, q ∈ _neighbors st p.1 p.2 ↔ inb st q ∧ adjacent p q) ∧
  NoDup (_neighbors st p.1 p.2) ∧
  (length (_neighbors st p.1 p.2) ≤ 4)%nat ∧
  (∀ q, q ∈ _neighbors st p.1 p.2 → p ∈ _neighbors st q.1 q.2).
Proof.
  intros Hp. split; [intros q; by apply elem_of_neighbors|]. split; [|split].
  - destruct p as [x y]. unfold _neighbors. cbn [fst snd].
    destruct (0 <? x), (x + 1 <? size st), (0 <? y), (y + 1 <? size st); cbn;
      repeat (apply NoDup_cons; split;
              [rewrite ?elem_of_cons, ?elem_of_nil; intros H;
               repeat (destruct H as [H|H]); try done; injection H; lia|]);
      apply NoDup_nil_2.
  - destruct p as [x y]. unfold _neighbors. cbn [fst snd].
    destruct (0 <? x), (x + 1 <? size st), (0 <? y), (y + 1 <? size st); cbn; lia.
  - intros q Hq. apply (elem_of_neighbors st p q Hp) in Hq as [Hq Hadj].
    apply (elem_of_neighbors st q p Hq). split; [done|]. by apply adjacent_sym.
Qed.

Lemma neighbors_spec_witness :
  (∀ q, q ∈ _neighbors PlayMove.suicide_board 0 0 ↔
        inb PlayMove.suicide_board q ∧ adjacent (0, 0) q) ∧
  NoDup (_neighbors PlayMove.suicide_board 0 0) ∧
  (length (_neighbors PlayMove.suicide_board 0 0) ≤ 4)%nat ∧
  (∀ q, q ∈ _neighbors PlayMove.suicide_board 0 0 →
        (0, 0) ∈ _neighbors PlayMove.suicide_board q.1 q.2).
Proof.
  apply (neighbors_spec PlayMove.suicide_board (0, 0)).
  apply (bool_decide_unpack _). reflexivity.
Defined.

(** [_collect_group] on a stone of a well-formed board returns: it lists
    each stone of the 4-connected group of that stone once, and counts the
    distinct empty cells next to the group. *)
Theorem collect_group_correct st x y v :
  wf st → inb st (x, y) → at_ st (x, y) = Some v → v ≠ 0 →
  ∃ g (L : gset coord),
    _collect_group st x y = Ok (g, Z.of_nat (base.size L)) ∧
    NoDup g ∧
    (∀ q, q ∈ g ↔ connected st (x, y) q) ∧
    (∀ q, q ∈ g → inb st q ∧ at_ st q = Some v) ∧
    (∀ r, r ∈ L ↔ liberty st (x, y) r).
Proof.
  intros Hwf Hp Hv Hv0.
  destruct (_collect_group_spec st x y v Hwf Hp Hv Hv0) as (g & L & Hrun & Hnd & Hg & HL).
  exists g, L. split; [done|]. split; [done|]. split; [done|]. split; [|done].
  intros q Hq%Hg. split.
  - by apply (connected_inb st (x, y)).
  - by rewrite (connected_at st (x, y) q Hq).
Qed.

Lemma collect_group_correct_witness :
  ∃ g (L : gset coord),
    _collect_group PlayMove.capture_board 1 1 = Ok (g, Z.of_nat (base.size L)) ∧
    NoDup g ∧
    (∀ q, q ∈ g ↔ connected PlayMove.capture_board (1, 1) q) ∧
    (∀ q, q ∈ g → inb PlayMove.capture_board q ∧ at_ PlayMove.capture_board q = Some 1) ∧
    (∀ r, r ∈ L ↔ liberty PlayMove.capture_board (1, 1) r).
Proof.
  apply (collect_group_correct PlayMove.capture_board 1 1 1).
  - apply (bool_decide_unpack _). reflexivity.
  - apply (bool_decide_unpack _). reflexivity.
  - reflexivity.
  - discriminate.
Defined.

(** [play_move] at an in-range point of a well-formed board returns, or
    raises one of its two [ValueError]s leaving the board as it was; it
    never raises [IndexError] and its flood fills end.  The board stays
    well-formed, and after a return the new stone is on the board. *)
Theorem play_move_outcomes st color x y :
  wf st → inb st (x, y) →
  ∃ r st', play_move color (x, y) st = (r, st') ∧ wf st' ∧ size st' = size st ∧
    ((r = Raise OccupiedPoint ∧ st' = st) ∨
     (r = Raise SuicideMove ∧ st' = st) ∨
     (∃ caps, r = Ok caps ∧ at_ st (x, y) = Some 0 ∧
              at_ st' (x, y) = Some (color_value color))).
Proof.
  intros Hwf Hp.
  destruct (play_move_cases st color x y Hwf Hp)
    as [(v & _ & _ & Hrun)|(H0 & st1 & st2 & caps & Hpl & Hrm & _ & [[_ Hrun]|[_ Hrun]])].
  - exists (Raise OccupiedPoint), st. by auto 10.
  - exists (Raise SuicideMove), st. by auto 10.
  - exists (Ok caps), st2. destruct Hpl as (Hwf1 & Hs1 & Hat1), Hrm as (Hwf2 & Hs2 & Hat2).
    split; [done|]. split; [done|]. split; [congruence|]. right. right.
    exists caps. split; [done|]. split; [done|].
    assert (Hp1 : inb st1 (x, y)) by (by apply (inb_size st)).
    assert (Hatp : at_ st1 (x, y) = Some (color_value color)).
    { rewrite Hat1 by done. by rewrite decide_True. }
    destruct (Hat2 (x, y) Hp1) as [_ Hkeep]. rewrite Hkeep; [done|].
    intros (n & _ & _ & Hatn & _ & Hc). apply connected_at in Hc.
    rewrite Hatp, Hatn in Hc. injection Hc.
    destruct (color_value_cases color); lia.
Qed.

Lemma play_move_outcomes_witness :
  ∃ r st', play_move "B" (0, 0) PlayMove.capture_board = (r, st') ∧ wf st' ∧
    size st' = size PlayMove.capture_board ∧
    ((r = Raise OccupiedPoint ∧ st' = PlayMove.capture_board) ∨
     (r = Raise SuicideMove ∧ st' = PlayMove.capture_board) ∨
     (∃ caps, r = Ok caps ∧ at_ PlayMove.capture_board (0, 0) = Some 0 ∧
              at_ st' (0, 0) = Some (color_value "B"))).
Proof.
  apply (play_move_outcomes PlayMove.capture_board "B" 0 0).
  - apply (bool_decide_unpack _). reflexivity.
  - apply (bool_decide_unpack _). reflexivity.
Defined.

(** A coordinate outside [-size, size) on either axis makes [play_move]
    raise [IndexError] at its first read, the board untouched. *)
Theorem play_move_index_error st color x y :
  wf st →
  ¬ (- size st ≤ x < size st ∧ - size st ≤ y < size st) →
  play_move color (x, y) st = (Raise IndexError, st).
Proof.
  intros Hwf Hout. unfold play_move. rewrite bind_run. unfold pure_call at 1.
  assert (cell (board st) y x = None) as Hnone; [|by unfold getitem; rewrite Hnone].
  pose proof (wf_square st Hwf) as [Hlen Hrows]. unfold cell, py_index. rewrite Hlen.
  destruct (Z.leb_spec 0 y), (Z.ltb_spec y (size st)), (Z.leb_spec (- size st) y),
    (Z.ltb_spec y 0); cbn [andb]; try done; try lia;
    (cbn; destruct (board st !! _) as [row|] eqn:Hrow; [|done]; cbn;
     rewrite (square_row (size st) (board st) _ row (conj Hlen Hrows) Hrow);
     destruct (Z.leb_spec 0 x), (Z.ltb_spec x (size st)), (Z.leb_spec (- size st) x),
       (Z.ltb_spec x 0); cbn [andb]; try done; lia).
Qed.

Lemma play_move_index_error_witness :
  play_move "B" (3, 0) PlayMove.capture_board = (Raise IndexError, PlayMove.capture_board).
Proof.
  apply (play_move_index_error PlayMove.capture_board "B" 3 0).
  - apply (bool_decide_unpack _). reflexivity.
  - cbn. lia.
Defined.

End BoardExtras.

(** ** Feature planes and position setup *)

Module FeatureExtras.
Import Board Rules BoardFacts MoreFacts.

(** The entry of a plane at the point [q = (x, y)]: row [y], column [x]. *)
Definition plane_at (plane : list (list Z)) (q : coord) : option Z :=
  plane !! Z.to_nat q.2 ≫= (.!! Z.to_nat q.1).

Lemma lookup_map {A B} (f : A → B) (l : list A) i : map f l !! i = f <$> l !! i.
Proof. revert i. induction l as [|a l IH]; intros [|i]; cbn; auto. Qed.

Lemma lookup2_map (f : Z → Z) (b : list (list Z)) (r c : nat) :
  map (map f) b !! r ≫= (.!! c) = f <$> (b !! r ≫= (.!! c)).
Proof.
  rewrite lookup_map.
  destruct (b !! r) as [row|]; cbn; [|done]. apply lookup_map.
Qed.

Lemma square_map n (f : Z → Z) b : square n b → square n (map (map f) b).
Proof.
  intros [Hlen Hrows]. split.
  - by rewrite length_map.
  - apply Forall_forall. intros row' Hin. apply list_elem_of_In, in_map_iff in Hin
      as (row & <- & Hin). rewrite length_map.
    rewrite Forall_forall in Hrows. by apply Hrows, list_elem_of_In.
Qed.

(** The planes of [make_features], entry by entry. *)
Lemma features_at st to_play :
  wf st →
  ∃ black white turn,
    make_features st to_play = [black; white; turn] ∧
    square (size st) black ∧ square (size st) white ∧ square (size st) turn ∧
    ∀ q, inb st q →
      plane_at black q = Some (if decide (at_ st q = Some 1) then 1 else 0) ∧
      plane_at white q = Some (if decide (at_ st q = Some (-1)) then 1 else 0) ∧
      plane_at turn q = Some (if String.eqb to_play "B" then 1 else 0).
Proof.
  intros Hwf. pose proof (wf_square st Hwf) as Hsq.
  eexists _, _, _. split; [reflexivity|].
  split; [by apply square_map|]. split; [by apply square_map|].
  split; [by do 2 apply square_map|].
  intros q Hq. unfold plane_at. rewrite !lookup2_map. rewrite <- (at_nat st q Hwf Hq).
  destruct (at_is_Some st q Hwf Hq) as [v ->]. cbn.
  split; [|split; [|done]].
  - destruct (Z.eqb_spec v 1) as [->|Hne]; [by rewrite decide_True|].
    rewrite decide_False; [done|congruence].
  - destruct (Z.eqb_spec v (-1)) as [->|Hne]; [by rewrite decide_True|].
    rewrite decide_False; [done|congruence].
Qed.

(** [make_features] on a well-formed board gives three [size × size]
    planes: the first marks the black stones, the second the white stones
    (never both at one point), the third is uniformly [1.0] when black is
    to play and [0.0] otherwise, whatever the board holds. *)
Theorem make_features_planes st to_play :
  wf st →
  ∃ black white turn,
    make_features st to_play = [black; white; turn] ∧
    square (size st) black ∧ square (size st) white ∧ square (size st) turn ∧
    ∀ q, inb st q →
      (plane_at black q = Some 1 ↔ at_ st q = Some 1) ∧
      (plane_at black q = Some 0 ↔ at_ st q ≠ Some 1) ∧
      (plane_at white q = Some 1 ↔ at_ st q = Some (-1)) ∧
      (plane_at white q = Some 0 ↔ at_ st q ≠ Some (-1)) ∧
      ¬ (plane_at black q = Some 1 ∧ plane_at white q = Some 1) ∧
      plane_at turn q = Some (if String.eqb to_play "B" then 1 else 0).
Proof.
  intros Hwf.
  destruct (features_at st to_play Hwf) as (black & white & turn & Hf & Hb & Hw & Ht & Hat).
  exists black, white, turn. do 4 (split; [done|]).
  intros q Hq. destruct (Hat q Hq) as (-> & -> & ->).
  destruct (decide (at_ st q = Some 1)) as [E1|E1],
    (decide (at_ st q = Some (-1))) as [E2|E2];
    repeat split; try done; try (intros [= ?]; done); try (intros [? ?]; done);
    try congruence; intros; exfalso; congruence.
Qed.

Lemma make_features_planes_witness :
  ∃ black white turn,
    make_features PlayMove.capture_board "W" = [black; white; turn] ∧
    square 3 black ∧ square 3 white ∧ square 3 turn ∧
    ∀ q, inb PlayMove.capture_board q →
      (plane_at black q = Some 1 ↔ at_ PlayMove.capture_board q = Some 1) ∧
      (plane_at black q = Some 0 ↔ at_ PlayMove.capture_board q ≠ Some 1) ∧
      (plane_at white q = Some 1 ↔ at_ PlayMove.capture_board q = Some (-1)) ∧
      (plane_at white q = Some 0 ↔ at_ PlayMove.capture_board q ≠ Some (-1)) ∧
      ¬ (plane_at black q = Some 1 ∧ plane_at white q = Some 1) ∧
      plane_at turn q = Some (if String.eqb "W" "B" then 1 else 0).
Proof.
  apply (make_features_planes PlayMove.capture_board "W").
  apply (bool_decide_unpack _). reflexivity.
Defined.

(** What the two setup methods leave on any well-formed board, whatever
    it holds: neither raises; the cells of the board whose 1-indexed
    coordinates are listed hold the colour after [apply_setup], and
    nothing after [apply_empty], the coordinates off the board are passed
    over, and every other cell holds what it held.  Hence [apply_empty]
    of a list after [apply_setup] of another leaves the cells of the first
    empty, those of the second and not the first with the colour. *)
Theorem apply_setup_then_empty st color coords emptied :
  wf st →
  (∃ st', apply_setup color coords st = (Ok tt, st') ∧ wf st' ∧ size st' = size st ∧
     ∀ q, inb st q →
       at_ st' q = if decide ((q.1 + 1, q.2 + 1) ∈ coords)
                   then Some (color_value color) else at_ st q) ∧
  (∃ st', apply_empty emptied st = (Ok tt, st') ∧ wf st' ∧ size st' = size st ∧
     ∀ q, inb st q →
       at_ st' q = if decide ((q.1 + 1, q.2 + 1) ∈ emptied)
                   then Some 0 else at_ st q) ∧
  (∃ st' st'',
     apply_setup color coords st = (Ok tt, st') ∧
     apply_empty emptied st' = (Ok tt, st'') ∧ wf st'' ∧
     ∀ q, inb st q →
       at_ st'' q = if decide ((q.1 + 1, q.2 + 1) ∈ emptied) then Some 0
                    else if decide ((q.1 + 1, q.2 + 1) ∈ coords)
                         then Some (color_value color) else at_ st q).
Proof.
  intros Hwf.
  destruct (setup_loop_spec st (color_value color) coords Hwf)
    as (st1 & Hrun1 & Hwf1 & Hsz1 & Hat1).
  destruct (setup_loop_spec st 0 emptied Hwf) as (st2 & Hrun2 & Hwf2 & Hsz2 & Hat2).
  destruct (setup_loop_spec st1 0 emptied Hwf1) as (st3 & Hrun3 & Hwf3 & Hsz3 & Hat3).
  split; [by exists st1|]. split; [by exists st2|].
  exists st1, st3. split; [exact Hrun1|]. split; [exact Hrun3|]. split; [done|].
  intros q Hq. rewrite Hat3 by (by apply (inb_size st)).
  destruct (decide _); [done|]. by apply Hat1.
Qed.

(** A board with stones of both colours, and lists with coordinates off
    the board. *)
Definition mixed_board : GoGameState :=
  {| size := 3; board := [[1; -1; 0]; [0; 1; -1]; [-1; 0; 0]] |}.
Definition added : list coord := [(1, 1); (3, 2); (0, 2); (4, 4); (2, 3)].
Definition removed : list coord := [(2, 1); (3, 2); (3, 0); (1, 3); (-1, 1)].

Lemma apply_setup_then_empty_witness :
  (∃ st', apply_setup "W" added mixed_board = (Ok tt, st') ∧ wf st' ∧
     size st' = size mixed_board ∧
     ∀ q, inb mixed_board q →
       at_ st' q = if decide ((q.1 + 1, q.2 + 1) ∈ added)
                   then Some (color_value "W") else at_ mixed_board q) ∧
  (∃ st', apply_empty removed mixed_board = (Ok tt, st') ∧ wf st' ∧
     size st' = size mixed_board ∧
     ∀ q, inb mixed_board q →
       at_ st' q = if decide ((q.1 + 1, q.2 + 1) ∈ removed)
                   then Some 0 else at_ mixed_board q) ∧
  (∃ st' st'',
     apply_setup "W" added mixed_board = (Ok tt, st') ∧
     apply_empty removed st' = (Ok tt, st'') ∧ wf st'' ∧
     ∀ q, inb mixed_board q →
       at_ st'' q = if decide ((q.1 + 1, q.2 + 1) ∈ removed) then Some 0
                    else if decide ((q.1 + 1, q.2 + 1) ∈ added)
                         then Some (color_value "W") else at_ mixed_board q).
Proof.
  apply (apply_setup_then_empty mixed_board "W" added removed).
  apply (bool_decide_unpack _). reflexivity.
Defined.

(** On this board: the stones added, the stones removed, and both. *)
Example mixed_board_setup :
  (apply_setup "W" added mixed_board).2
    = {| size := 3; board := [[-1; -1; 0]; [0; 1; -1]; [-1; -1; 0]] |} ∧
  (apply_empty removed mixed_board).2
    = {| size := 3; board := [[1; 0; 0]; [0; 1; 0]; [0; 0; 0]] |} ∧
  (apply_empty removed (apply_setup "W" added mixed_board).2).2
    = {| size := 3; board := [[-1; 0; 0]; [0; 1; 0]; [0; -1; 0]] |}.
Proof. vm_compute. by repeat split. Qed.

(** Round trip: a position set up on a new board with [apply_setup] for
    black, then white, is read back by [make_features]: the black plane
    marks the cells listed for black and not for white, the white plane
    the cells listed for white. *)
Theorem setup_features_round_trip n st0 blacks whites :
  new n = Ok st0 →
  ∃ st1 st2 black white turn,
    apply_setup "B" blacks st0 = (Ok tt, st1) ∧
    apply_setup "W" whites st1 = (Ok tt, st2) ∧
    make_features st2 "B" = [black; white; turn] ∧
    ∀ q, inb st0 q →
      (plane_at white q = Some 1 ↔ (q.1 + 1, q.2 + 1) ∈ whites) ∧
      (plane_at black q = Some 1 ↔
         (q.1 + 1, q.2 + 1) ∈ blacks ∧ (q.1 + 1, q.2 + 1) ∉ whites).
Proof.
  intros Hnew. destruct (new_wf n st0 Hnew) as [Hwf0 _].
  destruct (setup_loop_spec st0 (color_value "B") blacks Hwf0)
    as (st1 & Hrun1 & Hwf1 & Hsz1 & Hat1).
  destruct (setup_loop_spec st1 (color_value "W") whites Hwf1)
    as (st2 & Hrun2 & Hwf2 & Hsz2 & Hat2).
  destruct (features_at st2 "B" Hwf2) as (black & white & turn & Hf & _ & _ & _ & Hat).
  exists st1, st2, black, white, turn.
  split; [exact Hrun1|]. split; [exact Hrun2|]. split; [done|].
  intros q Hq.
  assert (Hq1 : inb st1 q) by (by apply (inb_size st0)).
  assert (Hq2 : inb st2 q) by (by apply (inb_size st1)).
  destruct (Hat q Hq2) as (-> & -> & _).
  rewrite (Hat2 q Hq1), (Hat1 q Hq), (new_at n st0 q Hnew Hq).
  change (color_value "B") with 1. change (color_value "W") with (-1).
  destruct (decide ((q.1 + 1, q.2 + 1) ∈ whites)),
    (decide ((q.1 + 1, q.2 + 1) ∈ blacks));
    repeat (rewrite decide_True by done || rewrite decide_False by done);
    split; split; try done; try tauto; intros; exfalso; tauto.
Qed.

Lemma setup_features_round_trip_witness :
  ∃ st1 st2 black white turn,
    apply_setup "B" [(1, 1); (2, 2)] Replay.empty_3 = (Ok tt, st1) ∧
    apply_setup "W" [(2, 2); (3, 1); (9, 9)] st1 = (Ok tt, st2) ∧
    make_features st2 "B" = [black; white; turn] ∧
    ∀ q, inb Replay.empty_3 q →
      (plane_at white q = Some 1 ↔ (q.1 + 1, q.2 + 1) ∈ [(2, 2); (3, 1); (9, 9)]) ∧
      (plane_at black q = Some 1 ↔
         (q.1 + 1, q.2 + 1) ∈ [(1, 1); (2, 2)] ∧
         (q.1 + 1, q.2 + 1) ∉ [(2, 2); (3, 1); (9, 9)]).
Proof.
  apply (setup_features_round_trip 3 Replay.empty_3). reflexivity.
Defined.

End FeatureExtras.

(** ** More facts on the replay loops, shared by the properties below *)

Module ReplayFacts.
Import Board Rules BoardFacts MoreFacts Dataset.

#[global] Instance PyExc_eq_dec : EqDecision PyExc.
Proof. solve_decision. Defined.

(** What the loop of [_game_to_samples] makes of one entry: it skips it,
    fails on it before any sample, plays it, or, for a coordinate that is
    a float, yields its sample and fails on the index. *)
Inductive entry_kind : Type :=
  | Skip
  | Bad (e : PyExc)
  | Place (color : Color) (xz yz : Z)
  | Inexact (color : Color) (action : Z).

Definition classify (n : Z) (move : Compact.json) : entry_kind :=
  match move with
  | Compact.JDict [(color, Compact.JList [x; y])] =>
      match Compact.as_number x with
      | None => Bad TypeError
      | Some xv =>
          if negb (in_range n xv) then Skip
          else match Compact.as_number y with
               | None => Bad TypeError
               | Some yv =>
                   if negb (in_range n yv) then Skip
                   else match action_of n xv yv with
                        | Ok a =>
                            match xv, yv with
                            | Int xz, Int yz => Place color xz yz
                            | _, _ => Inexact color a
                            end
                        | _ => Bad OverflowError
                        end
               end
      end
  | _ => Skip
  end.

(** An entry with a float as a coordinate. *)
Definition float_entry (move : Compact.json) : bool :=
  match move with
  | Compact.JDict [(_, Compact.JList [Compact.JFloat _; _])]
  | Compact.JDict [(_, Compact.JList [_; Compact.JFloat _])] => true
  | _ => false
  end.

Lemma float_of_int_cases z :
  (∃ f, float_of_int z = Ok f) ∨ float_of_int z = Raise OverflowError.
Proof.
  unfold float_of_int. destruct (binary_normalize prec emax z 0 false); eauto.
Qed.

Lemma arith_cases i f a b :
  (∃ c, arith i f a b = Ok c) ∨ arith i f a b = Raise OverflowError.
Proof.
  destruct a as [x|fa], b as [y|fb]; cbn; eauto.
  - destruct (float_of_int_cases x) as [[g ->]| ->]; cbn; eauto.
  - destruct (float_of_int_cases y) as [[g ->]| ->]; cbn; eauto.
Qed.

Lemma action_of_cases n x y :
  (∃ a, action_of n x y = Ok a) ∨ action_of n x y = Raise OverflowError.
Proof.
  unfold action_of.
  destruct (arith_cases Z.sub (SFsub prec emax) y (Int 1)) as [[y1 ->]| ->]; [|by right].
  cbn [mbind Res_bind].
  destruct (arith_cases Z.mul float_mul y1 (Int n)) as [[row ->]| ->]; [|by right].
  cbn [mbind Res_bind].
  destruct (arith_cases Z.sub (SFsub prec emax) x (Int 1)) as [[x1 ->]| ->]; [|by right].
  cbn [mbind Res_bind].
  destruct (arith_cases Z.add (SFadd prec emax) row x1) as [[a ->]| ->]; [|by right].
  cbn [mbind Res_bind]. eauto.
Qed.

(** The integers the arithmetic of the label converts on a board have a
    float. *)
Lemma float_of_int_small z : 0 ≤ z ≤ 600 → ∃ f, float_of_int z = Ok f.
Proof.
  intros Hz.
  assert (Hall : forallb (λ z, match float_of_int z with Ok _ => true | _ => false end)
                   (seqZ 0 601) = true) by (vm_compute; reflexivity).
  rewrite forallb_forall in Hall. specialize (Hall z).
  destruct (float_of_int z) as [f|e|]; [by exists f|..];
    (discriminate Hall; apply list_elem_of_In, elem_of_seqZ; lia).
Qed.

(** On a board no label raises. *)
Lemma action_of_defined n xv yv :
  1 ≤ n ≤ 25 → in_range n xv = true → in_range n yv = true →
  ∃ a, action_of n xv yv = Ok a.
Proof.
  intros Hn Hx Hy. unfold action_of.
  destruct (float_of_int_small 1) as [one Hone]; [lia|].
  destruct (float_of_int_small n) as [fn Hfn]; [lia|].
  destruct xv as [xz|fx], yv as [yz|fy];
    repeat (cbn [arith as_float mbind Res_bind]; rewrite ?Hone, ?Hfn); eauto.
  - cbn [in_range] in Hx. destruct (float_of_int_small (xz - 1)) as [g Hg]; [lia|].
    rewrite Hg. cbn [mbind Res_bind]. eauto.
  - cbn [in_range] in Hy. destruct (float_of_int_small ((yz - 1) * n)) as [g Hg]; [nia|].
    rewrite Hg. cbn [mbind Res_bind]. eauto.
Qed.

Lemma compact_replay_cons n move rest st :
  Compact.replay n (move :: rest) st =
  match classify n move with
  | Skip => Compact.replay n rest st
  | Bad e => ([], Raised e)
  | Place color xz yz =>
      let sample := (make_features st color, (yz - 1) * n + (xz - 1)) in
      match play_move color (xz - 1, yz - 1) st with
      | (Ok _, st') =>
          let '(out, o) := Compact.replay n rest st' in (sample :: out, o)
      | (Raise e, _) =>
          if is_ValueError e then ([sample], Finished) else ([sample], Raised e)
      | (OutOfFuel, _) => ([sample], Diverged)
      end
  | Inexact color a => ([(make_features st color, a)], Raised IndexError)
  end.
Proof.
  unfold classify. cbn [Compact.replay].
  repeat match goal with
         | |- context [match ?v with _ => _ end] => is_var v; destruct v
         end; try reflexivity.
  all: destruct (Compact.as_number _) as [xv|]; [|reflexivity].
  all: destruct (negb _); [reflexivity|].
  all: destruct (Compact.as_number _) as [yv|]; [|reflexivity].
  all: destruct (negb _); [reflexivity|].
  all: destruct (action_of_cases n xv yv) as [[a Ha]|Ha]; rewrite Ha; [|reflexivity].
  all: destruct xv as [xz|fx], yv as [yz|fy]; try reflexivity.
  all: injection Ha as <-; reflexivity.
Qed.

Lemma classify_in_range n move k :
  classify n move = k → k ≠ Skip → k ≠ Bad TypeError →
  ∃ color x y xv yv,
    move = Compact.JDict [(color, Compact.JList [x; y])] ∧
    Compact.as_number x = Some xv ∧ Compact.as_number y = Some yv ∧
    in_range n xv = true ∧ in_range n yv = true.
Proof.
  unfold classify. intros <-.
  repeat match goal with
         | |- context [match ?v with _ => _ end] => is_var v; destruct v
         end; try done.
  all: destruct (Compact.as_number _) as [xv|] eqn:Hx; [|done].
  all: destruct (in_range n xv) eqn:Hxr; cbn [negb]; [|done].
  all: destruct (Compact.as_number _) as [yv|] eqn:Hy in |- *; [|done].
  all: destruct (in_range n yv) eqn:Hyr; cbn [negb]; [|done].
  all: intros _ _; eauto 10.
Qed.

Lemma classify_place n move color xz yz :
  classify n move = Place color xz yz → 1 ≤ xz ≤ n ∧ 1 ≤ yz ≤ n.
Proof.
  intros Hk.
  destruct (classify_in_range n move _ Hk) as (c & x & y & xv & yv & -> & Hx & Hy & Hxr & Hyr);
    [done..|].
  revert Hk. cbn [classify]. rewrite Hx, Hy, Hxr, Hyr. cbn [negb].
  destruct (action_of n xv yv); [|done..].
  destruct xv, yv; try done. intros [= _ <- <-]. cbn [in_range] in Hxr, Hyr.
  apply andb_true_iff in Hxr, Hyr. lia.
Qed.

(** On a board an entry fails before its sample only with a
    [TypeError]. *)
Lemma classify_bad n move e :
  1 ≤ n ≤ 25 → classify n move = Bad e → e = TypeError.
Proof.
  intros Hn Hk. destruct (decide (e = TypeError)) as [|Hne]; [done|].
  destruct (classify_in_range n move (Bad e) Hk) as (c & x & y & xv & yv & -> & Hx & Hy & Hxr & Hyr);
    [done|congruence|].
  revert Hk. cbn [classify]. rewrite Hx, Hy, Hxr, Hyr. cbn [negb].
  destruct (action_of_defined n xv yv Hn Hxr Hyr) as [a ->].
  by destruct xv, yv.
Qed.

Lemma classify_inexact n move color a :
  classify n move = Inexact color a → float_entry move = true.
Proof.
  intros Hk.
  destruct (classify_in_range n move _ Hk) as (c & x & y & xv & yv & -> & Hx & Hy & Hxr & Hyr);
    [done..|].
  revert Hk. cbn [classify]. rewrite Hx, Hy, Hxr, Hyr. cbn [negb].
  destruct (action_of n xv yv); [|done..].
  destruct x, y; cbn in Hx, Hy; simplify_eq; done.
Qed.

(** A sample with a label of the board and planes of the board's shape. *)
Definition sample_ok (n : Z) (s : Sample) : Prop :=
  0 ≤ s.2 < n * n ∧ length s.1 = 3%nat ∧ Forall (square n) s.1.

Lemma features_shape st to_play :
  wf st → length (make_features st to_play) = 3%nat ∧
          Forall (square (size st)) (make_features st to_play).
Proof.
  intros Hwf. pose proof (wf_square st Hwf) as Hsq. split; [done|].
  unfold make_features.
  apply Forall_cons_2; [by apply FeatureExtras.square_map|].
  apply Forall_cons_2; [by apply FeatureExtras.square_map|].
  apply Forall_cons_2; [by do 2 apply FeatureExtras.square_map|].
  apply Forall_nil_2.
Qed.

(** Planes of the shape of the board. *)
Definition shaped (n : Z) (s : Sample) : Prop :=
  length s.1 = 3%nat ∧ Forall (square n) s.1.

(** How a replay of the compact format ends on a board: normally or with
    a [TypeError], after samples with labels of the board; or with the
    [IndexError] of an entry that has a float as a coordinate, after the
    sample of that entry. *)
Definition compact_ending (n : Z) (entries : list Compact.json)
    (r : list Sample * Outcome) : Prop :=
  ((r.2 = Finished ∨ r.2 = Raised TypeError) ∧ Forall (sample_ok n) r.1) ∨
  (r.2 = Raised IndexError ∧
   ∃ pre last entry,
     r.1 = pre ++ [last] ∧ Forall (sample_ok n) pre ∧ shaped n last ∧
     entry ∈ entries ∧ float_entry entry = true).

(** What [enumerate(moves)] goes through, nothing when it raises. *)
Definition entries (moves : Compact.json) : list Compact.json :=
  match Compact.iterate moves with
  | Ok l => l
  | _ => []
  end.

Lemma compact_ending_further n move rest r :
  compact_ending n rest r → compact_ending n (move :: rest) r.
Proof.
  intros [H|(Ho & pre & last & entry & Hr & Hpre & Hlast & Hin & Hf)]; [by left|].
  right. split; [done|]. exists pre, last, entry. do 3 (split; [done|]).
  split; [|done]. rewrite elem_of_cons. by right.
Qed.

Lemma compact_ending_cons n l s out o :
  sample_ok n s → compact_ending n l (out, o) → compact_ending n l (s :: out, o).
Proof.
  intros Hs [[Ho Hall]|(Ho & pre & last & entry & Hr & Hpre & Hlast & Hin & Hf)];
    cbn [fst snd] in *.
  - left. split; [done|]. by apply Forall_cons_2.
  - right. split; [done|]. exists (s :: pre), last, entry.
    split; [by rewrite Hr|]. split; [by apply Forall_cons_2|done].
Qed.

(** The loop of [_game_to_samples] on a well-formed board of the
    configured size. *)
Lemma compact_replay_safe n moves st :
  wf st → size st = n → compact_ending n moves (Compact.replay n moves st).
Proof.
  revert st. induction moves as [|move rest IH]; intros st Hwf Hsz.
  - left. cbn. split; [by left|constructor].
  - assert (Hn : 1 ≤ n ≤ 25) by (destruct Hwf; lia).
    rewrite compact_replay_cons.
    destruct (classify n move) as [|e|color xz yz|color a] eqn:Hk.
    + by apply compact_ending_further, IH.
    + apply (classify_bad n move e Hn) in Hk as ->. left. cbn.
      split; [by right|constructor].
    + apply classify_place in Hk as [Hx Hy].
      assert (Hok : sample_ok n (make_features st color, (yz - 1) * n + (xz - 1))).
      { split; [cbn; nia|]. rewrite <- Hsz. by apply features_shape. }
      assert (Hp : inb st (xz - 1, yz - 1)) by (split; cbn; lia).
      destruct (play_move_result st color (xz - 1) (yz - 1) Hwf Hp)
        as (r & st' & Hrun & Hwf' & Hsz' & [(caps & ->)|(e & -> & He & _)]).
      * cbv zeta. rewrite Hrun.
        pose proof (IH st' Hwf' ltac:(congruence)) as Hrest.
        destruct (Compact.replay n rest st') as [out o].
        by apply compact_ending_further, compact_ending_cons.
      * cbv zeta. rewrite Hrun, He. left. cbn [fst snd]. split; [by left|].
        apply Forall_cons_2; [done|apply Forall_nil_2].
    + right. cbn [fst snd]. split; [done|].
      exists [], (make_features st color, a), move. split; [done|].
      split; [apply Forall_nil_2|]. split; [rewrite <- Hsz; by apply features_shape|].
      split; [apply elem_of_cons; by left|]. by apply (classify_inexact n move color a).
Qed.

Lemma sgf_replay_safe n nodes st :
  wf st → size st = n →
  (Sgf.replay n nodes st).2 ∈ [Finished; Raised TypeError] ∧
  Forall (sample_ok n) (Sgf.replay n nodes st).1.
Proof.
  revert st. induction nodes as [|[[color|] [[x y]|]] rest IH]; intros st Hwf Hsz;
    cbn [Sgf.replay].
  - cbn. split; [left|constructor].
  - destruct (Z.leb_spec 0 x), (Z.ltb_spec x n), (Z.leb_spec 0 y), (Z.ltb_spec y n);
      cbn [andb negb]; try (by apply IH).
    assert (Hok : sample_ok n (make_features st color, y * n + x)).
    { split; [cbn; nia|]. rewrite <- Hsz. by apply features_shape. }
    assert (Hp : inb st (x, y)) by (split; cbn; lia).
    destruct (play_move_result st color x y Hwf Hp)
      as (r & st' & Hrun & Hwf' & Hsz' & [(caps & ->)|(e & -> & He & _)]).
    + rewrite Hrun. destruct (IH st' Hwf' ltac:(congruence)) as [Ho Hs].
      destruct (Sgf.replay n rest st') as [out o]. cbn in *.
      split; [done|]. by constructor.
    + rewrite Hrun, He. cbn [fst snd]. split; [left|].
      apply Forall_cons_2; [done|apply Forall_nil_2].
  - cbn. split; [right; left|constructor].
  - by apply IH.
  - by apply IH.
Qed.

Lemma game_to_samples_safe n moves st :
  wf st → size st = n →
  compact_ending n (entries moves) (Compact._game_to_samples n st moves).
Proof.
  intros Hwf Hsz. unfold Compact._game_to_samples, entries.
  destruct (Compact.iterate moves) as [l|e|] eqn:Hit.
  - by apply compact_replay_safe.
  - left. cbn. split; [|constructor]. right.
    destruct moves; cbn in Hit; try discriminate; by injection Hit as <-.
  - destruct moves; discriminate.
Qed.

(** A game all of whose moves [play_move] accepts. *)
Lemma replay_legal n ms st st' :
  Forall (in_board n) ms → play_all ms st = Some st' →
  Compact.replay n (map Compact.encode ms) st = (samples_of n ms st, Finished) ∧
  Sgf.replay n (map Sgf.encode ms) st = (samples_of n ms st, Finished).
Proof.
  intros Hin. revert st. induction Hin as [|[c [x y]] ms [Hx Hy] Hin IH]; intros st Hplay.
  - done.
  - cbn in Hx, Hy. cbn [map]. rewrite Replay.compact_replay_step, Replay.sgf_replay_step by done.
    cbn [play_all] in Hplay.
    destruct (play_move c (x, y) st) as [[caps|e|] st1] eqn:Hmove; [|done..].
    destruct (IH st1 Hplay) as [-> ->]. cbn [samples_of fst snd]. by rewrite Hmove.
Qed.

End ReplayFacts.

(** ** The replay loops and the iterations *)

Module DatasetExtras.
Import Board Rules BoardFacts MoreFacts Dataset ReplayFacts.


(** [2.0] *)
Definition float_2 : spec_float := S754_finite false 4503599627370496 (-51).

(** [[{"B": [2, 2]}, {"W": [1.0, 2.0]}]] *)
Definition float_game : Compact.json :=
  Compact.JList [Compact.encode ("B", (1, 1));
                 Compact.JDict [("W", Compact.JList [Compact.JFloat float_1;
                                                     Compact.JFloat float_2])]].


(** The game with the coordinates [1.0] and [2.0]: the sample of its second
    entry is yielded, with the label 3, and an [IndexError] ends the
    replay. *)
Example float_coordinate_raises :
  let r := Compact._game_to_samples 3 Replay.empty_3 float_game in
  r.2 = Raised IndexError ∧ map snd r.1 = [4; 3].
Proof. vm_compute. by split. Qed.

(** A game of [N] in-range moves that [play_move] all accepts gives [N]
    samples, in the order of the moves, in both formats: the sample of a
    move has the planes of the board before it and [y * size + x] as its
    label. *)
Theorem legal_game_samples n st0 ms st' :
  new n = Ok st0 → Forall (in_board n) ms → play_all ms st0 = Some st' →
  Compact._game_to_samples n st0 (Compact.JList (map Compact.encode ms))
    = (samples_of n ms st0, Finished) ∧
  Sgf.replay n (map Sgf.encode ms) st0 = (samples_of n ms st0, Finished) ∧
  length (samples_of n ms st0) = length ms ∧
  map snd (samples_of n ms st0) = map (action n) ms ∧
  (∀ k pre m, ms = pre ++ m :: k → ∃ stm,
     play_all pre st0 = Some stm ∧
     samples_of n ms st0 !! length pre = Some (make_features stm m.1, action n m)).
Proof.
  intros _ Hin Hplay. destruct (replay_legal n ms st0 st' Hin Hplay) as [Hc Hs].
  split; [exact Hc|]. split; [exact Hs|]. split; [apply Replay.samples_of_length|].
  split.
  - clear. revert st0. induction ms as [|m ms IH]; intros st; [done|].
    cbn. by rewrite IH.
  - clear Hc Hs Hin. intros k pre m ->. revert st0 Hplay.
    induction pre as [|[c p] pre IH]; intros st Hplay.
    + exists st. by split.
    + cbn [app play_all] in Hplay |- *.
      destruct (play_move c p st) as [[caps|e|] st1] eqn:Hmove; [|done..].
      destruct (IH st1 Hplay) as (stm & Hpre & Hlook). exists stm.
      split; [done|]. cbn [samples_of length lookup fst snd]. by rewrite Hmove.
Qed.

Lemma legal_game_samples_witness :
  let ms := [("B", (0, 0)); ("W", (1, 1))] in
  Compact._game_to_samples 3 Replay.empty_3 (Compact.JList (map Compact.encode ms))
    = (samples_of 3 ms Replay.empty_3, Finished) ∧
  Sgf.replay 3 (map Sgf.encode ms) Replay.empty_3
    = (samples_of 3 ms Replay.empty_3, Finished) ∧
  length (samples_of 3 ms Replay.empty_3) = length ms ∧
  map snd (samples_of 3 ms Replay.empty_3) = map (action 3) ms ∧
  (∀ k pre m, ms = pre ++ m :: k → ∃ stm,
     play_all pre Replay.empty_3 = Some stm ∧
     samples_of 3 ms Replay.empty_3 !! length pre
       = Some (make_features stm m.1, action 3 m)).
Proof.
  apply (legal_game_samples 3 Replay.empty_3 [("B", (0, 0)); ("W", (1, 1))]
           {| size := 3; board := [[1; 0; 0]; [0; -1; 0]; [0; 0; 0]] |}).
  - reflexivity.
  - apply (bool_decide_unpack _). reflexivity.
  - vm_compute. reflexivity.
Defined.

(** An SGF node the replay loop passes over: no colour, or a point off
    the board. *)
Definition sgf_skipped (n : Z) (node : Sgf.Node) : Prop :=
  match node with
  | (None, _) => True
  | (Some _, Some (x, y)) => ¬ (0 ≤ x < n ∧ 0 ≤ y < n)
  | (Some _, None) => False
  end.

#[global] Instance sgf_skipped_dec n node : Decision (sgf_skipped n node).
Proof. destruct node as [[c|] [[x y]|]]; cbn; apply _. Defined.

#[global] Instance classify_skip_dec n move : Decision (classify n move = Skip).
Proof. destruct (classify n move); [left|right..]; done. Defined.

(** Entries that are skipped leave no trace: both loops give the same
    samples and end the same way on the game without them.  For the compact
    format these are the entries that are not a single-key object holding a
    two-element list, and those with a number out of [1, size] as [x], or
    as [y] after an in-range [x]; for SGF the nodes without a move and the
    points off the board. *)
Theorem skipped_entries_leave_no_trace n moves nodes st :
  Compact.replay n (filter (λ m, classify n m ≠ Skip) moves) st
    = Compact.replay n moves st ∧
  Sgf.replay n (filter (λ nd, ¬ sgf_skipped n nd) nodes) st = Sgf.replay n nodes st.
Proof.
  split.
  - revert st. induction moves as [|move rest IH]; intros st; [done|].
    rewrite filter_cons. destruct (decide (classify n move ≠ Skip)) as [Hk|Hk].
    + rewrite !compact_replay_cons. destruct (classify n move); [done|done| |done].
      cbv zeta. destruct (play_move _ _ st) as [[caps|e|] st1]; [|done..].
      by rewrite IH.
    + rewrite (compact_replay_cons n move rest).
      destruct (classify n move); [apply IH|by destruct Hk..].
  - revert st. induction nodes as [|[[color|] [[x y]|]] rest IH]; intros st; [done|..];
      rewrite filter_cons; cbn [sgf_skipped].
    + destruct (decide (¬ ¬ (0 ≤ x < n ∧ 0 ≤ y < n))) as [Hin|Hout]; cbn [Sgf.replay].
      * destruct (negb _); [apply IH|].
        destruct (play_move color (x, y) st) as [[caps|e|] st1]; [|done..].
        by rewrite IH.
      * destruct (Z.leb_spec 0 x), (Z.ltb_spec x n), (Z.leb_spec 0 y), (Z.ltb_spec y n);
          cbn [andb negb]; try apply IH. exfalso. apply Hout. lia.
    + by rewrite decide_True by tauto.
    + rewrite decide_False by tauto. apply IH.
    + rewrite decide_False by tauto. apply IH.
Qed.

End DatasetExtras.

(** ** The iterations as a whole *)

Module IterationFacts.
Import Board Rules BoardFacts MoreFacts Dataset ReplayFacts.

(** For a [val_ratio] of [0, 1], [_selected] returns. *)
Lemma selected_defined {F} (cfg : DatasetConfig F) mode i :
  float_valid (val_ratio cfg) = true →
  SFleb float_0 (val_ratio cfg) = true → SFleb (val_ratio cfg) float_1 = true →
  ∃ b, _selected cfg mode i = Ok b.
Proof.
  intros Hvalid H0 H1. unfold _selected.
  destruct (SFleb (val_ratio cfg) float_0) eqn:Hle; [eauto|].
  destruct (Split.threshold_defined (val_ratio cfg) Hvalid H0 H1 Hle) as (t & -> & _).
  cbn. eauto.
Qed.

Lemma new_not_OutOfFuel n : new n ≠ OutOfFuel.
Proof. unfold new. by destruct (_ || _). Qed.

(** One SGF file never stops the iteration with an exception when
    [_selected] returns. *)
Lemma sgf_visit_file_safe cfg mode w n i file p p' c :
  (∃ b, _selected cfg mode i = Ok b) →
  Forall (sample_ok (board_size cfg)) (yielded p) →
  Sgf.visit_file cfg mode w n i file p = (p', c) →
  (c = Next ∨ c = Stop Finished) ∧ Forall (sample_ok (board_size cfg)) (yielded p').
Proof.
  intros [b Hsel] Hok. unfold Sgf.visit_file. rewrite Hsel.
  destruct (negb (i mod n =? w)); [intros [= <- <-]; auto|].
  destruct (limit_reached cfg p); [intros [= <- <-]; auto|].
  destruct b; [|intros [= <- <-]; auto].
  destruct file as [e|sz nodes]; [intros [= <- <-]; auto|].
  destruct (negb (sz =? board_size cfg)); [intros [= <- <-]; auto|].
  destruct (new (board_size cfg)) as [st0|e|] eqn:Hnew;
    [|intros [= <- <-]; auto|by destruct (new_not_OutOfFuel (board_size cfg))].
  destruct (new_wf _ _ Hnew) as [Hwf Hsz].
  destruct (sgf_replay_safe (board_size cfg) (drop 1 nodes) st0 Hwf Hsz) as [Ho Hs].
  destruct (Sgf.replay (board_size cfg) (drop 1 nodes) st0) as [out o]. cbn in Ho, Hs.
  assert (Hall : Forall (sample_ok (board_size cfg)) (yielded p ++ out))
    by (by apply Forall_app).
  rewrite !elem_of_cons, elem_of_nil in Ho.
  destruct Ho as [->|[->|[]]]; intros [= <- <-]; auto.
Qed.

Lemma sgf_visit_files_safe cfg mode w n i files p :
  (∀ j, ∃ b, _selected cfg mode j = Ok b) →
  Forall (sample_ok (board_size cfg)) (yielded p) →
  ∃ p', Sgf.visit_files cfg mode w n i files p = (p', Finished) ∧
        Forall (sample_ok (board_size cfg)) (yielded p').
Proof.
  intros Hsel. revert i p. induction files as [|file files IH]; intros i p Hok.
  - exists p. by split.
  - cbn [Sgf.visit_files].
    destruct (Sgf.visit_file cfg mode w n i file p) as [p1 c1] eqn:Hfile.
    destruct (sgf_visit_file_safe _ _ _ _ _ _ _ _ _ (Hsel i) Hok Hfile) as [[->| ->] Hok1].
    + by apply IH.
    + exists p1. by split.
Qed.

(** With [val_ratio <= 0] nothing is selected for "val". *)
Lemma selected_val_nonpositive {F} (cfg : DatasetConfig F) i :
  SFleb (val_ratio cfg) float_0 = true →
  _selected cfg val i = Ok false ∧ _selected cfg train i = Ok true.
Proof. intros H. unfold _selected. by rewrite H. Qed.

Lemma compact_visit_line_unselected cfg mode w n fi gi line p p' c :
  _selected cfg mode gi = Ok false →
  Compact.visit_line cfg mode w n fi gi line p = (p', c) →
  yielded p' = yielded p ∧ (c = Next ∨ c = Stop Finished).
Proof.
  intros Hsel. unfold Compact.visit_line. rewrite Hsel.
  destruct (negb _); [intros [= <- <-]; auto|].
  destruct (limit_reached cfg p); intros [= <- <-]; auto.
Qed.

Lemma compact_visit_lines_unselected cfg mode w n fi gi lines p p' c :
  (∀ i, _selected cfg mode i = Ok false) →
  Compact.visit_lines cfg mode w n fi gi lines p = (p', c) →
  yielded p' = yielded p ∧ (c = Next ∨ c = Stop Finished).
Proof.
  intros Hsel. revert gi p. induction lines as [|line lines IH]; intros gi p.
  - cbn. intros [= <- <-]. auto.
  - cbn [Compact.visit_lines].
    destruct (Compact.visit_line cfg mode w n fi gi line p) as [p1 c1] eqn:Hline.
    destruct (compact_visit_line_unselected _ _ _ _ _ _ _ _ _ _ (Hsel gi) Hline)
      as [Hy [->| ->]].
    + intros [Hy' Hc]%IH. split; [congruence|done].
    + intros [= <- <-]. auto.
Qed.

(** How an iteration that parses no line ends: normally, or with the
    exception of a file that cannot be opened or read to its end. *)
Definition file_failure (files : list Compact.DataFile) (o : Outcome) : Prop :=
  o = Finished ∨
  (Compact.Unreadable ∈ files ∧ o = Raised OSError) ∨
  (∃ lines e, Compact.Interrupted lines e ∈ files ∧ o = Raised e).

Lemma file_failure_further file files o :
  file_failure files o → file_failure (file :: files) o.
Proof.
  intros [->|[[Hin ->]|(lines & e & Hin & ->)]]; [by left|right; left|right; right].
  - split; [|done]. apply elem_of_cons. by right.
  - exists lines, e. split; [|done]. apply elem_of_cons. by right.
Qed.

Lemma compact_visit_files_unselected cfg mode w n fi files p p' o :
  (∀ i, _selected cfg mode i = Ok false) →
  Compact.visit_files cfg mode w n fi files p = (p', o) →
  yielded p' = yielded p ∧ file_failure files o.
Proof.
  intros Hsel. revert fi p. induction files as [|[|lines|lines e] files IH]; intros fi p.
  - cbn. intros [= <- <-]. split; [done|by left].
  - cbn. intros [= <- <-]. split; [done|]. right. left. split; [|done].
    apply elem_of_cons. by left.
  - cbn [Compact.visit_files].
    destruct (Compact.visit_lines cfg mode w n fi 0 lines p) as [p1 c1] eqn:Hlines.
    destruct (compact_visit_lines_unselected _ _ _ _ _ _ _ _ _ _ Hsel Hlines)
      as [Hy [->| ->]].
    + intros [Hy' Ho]%IH. split; [congruence|by apply file_failure_further].
    + intros [= <- <-]. split; [done|by left].
  - cbn [Compact.visit_files].
    destruct (Compact.visit_lines cfg mode w n fi 0 lines p) as [p1 c1] eqn:Hlines.
    destruct (compact_visit_lines_unselected _ _ _ _ _ _ _ _ _ _ Hsel Hlines)
      as [Hy [->| ->]]; intros [= <- <-]; (split; [done|]); [|by left].
    right. right. exists lines, e. split; [|done]. apply elem_of_cons. by left.
Qed.

Lemma sgf_visit_file_unselected cfg mode w n i file p p' c :
  _selected cfg mode i = Ok false →
  Sgf.visit_file cfg mode w n i file p = (p', c) →
  yielded p' = yielded p ∧ (c = Next ∨ c = Stop Finished).
Proof.
  intros Hsel. unfold Sgf.visit_file. rewrite Hsel.
  destruct (negb _); [intros [= <- <-]; auto|].
  destruct (limit_reached cfg p); intros [= <- <-]; auto.
Qed.

Lemma sgf_visit_files_unselected cfg mode w n i files p p' o :
  (∀ j, _selected cfg mode j = Ok false) →
  Sgf.visit_files cfg mode w n i files p = (p', o) →
  yielded p' = yielded p ∧ o = Finished.
Proof.
  intros Hsel. revert i p. induction files as [|file files IH]; intros i p.
  - cbn. intros [= <- <-]. auto.
  - cbn [Sgf.visit_files].
    destruct (Sgf.visit_file cfg mode w n i file p) as [p1 c1] eqn:Hfile.
    destruct (sgf_visit_file_unselected _ _ _ _ _ _ _ _ _ (Hsel i) Hfile) as [Hy [->| ->]].
    + intros [Hy' Ho]%IH. split; [congruence|done].
    + intros [= <- <-]. auto.
Qed.



(** The file of index [i] is replayed to its end: it is in the split, it
    is read and parsed, its size is the board size, and the loop over its
    moves is left without an exception. *)
Definition replayed_to_end (cfg : DatasetConfig Sgf.SgfFile) (mode : Mode) (i : Z)
  : bool :=
  match _selected cfg mode i, data_files cfg !! Z.to_nat i with
  | Ok true, Some (Sgf.Game sz nodes) =>
      (sz =? board_size cfg) &&
      match new (board_size cfg) with
      | Ok st =>
          match (Sgf.replay (board_size cfg) (drop 1 nodes) st).2 with
          | Finished => true
          | _ => false
          end
      | _ => false
      end
  | _, _ => false
  end.





End IterationFacts.

Module IterationExtras.
Import Board Rules BoardFacts MoreFacts Dataset ReplayFacts IterationFacts.

(** With a [val_ratio] of [0, 1], the iteration over SGF files always
    ends normally, whatever the files hold: unreadable files, other board
    sizes, illegal moves, moves without a point.  Every sample yielded has
    a label in [0, size * size) and three [size × size] planes. *)
Theorem sgf_iteration_finishes (cfg : DatasetConfig Sgf.SgfFile) mode info :
  float_valid (val_ratio cfg) = true →
  SFleb float_0 (val_ratio cfg) = true → SFleb (val_ratio cfg) float_1 = true →
  ∃ p, Sgf.__iter__ cfg mode info = (p, Finished) ∧
       Forall (sample_ok (board_size cfg)) (yielded p).
Proof.
  intros Hvalid H0 H1. unfold Sgf.__iter__. destruct (worker info) as [w n].
  apply sgf_visit_files_safe; [|constructor].
  intros j. by apply selected_defined.
Qed.

(** Six files for the "train" split: one that cannot be read, one of
    another board size, a game of two moves, a game whose second move is
    played on the first stone, a game with a move that has no point, and a
    game of one move. *)
Definition mixed_sgf_files : DatasetConfig Sgf.SgfFile :=
  {| board_size := 3;
     data_files := [Sgf.Unparsable OSError;
                    Sgf.Game 9 [(None, None); Sgf.encode ("B", (4, 4))];
                    Sgf.Game 3 [(None, None); Sgf.encode ("B", (1, 1));
                                Sgf.encode ("W", (0, 0))];
                    Sgf.Game 3 [(None, None); Sgf.encode ("B", (2, 2));
                                Sgf.encode ("W", (2, 2)); Sgf.encode ("B", (0, 0))];
                    Sgf.Game 3 [(None, None); Sgf.encode ("B", (0, 1)); (Some "W", None)];
                    Sgf.Game 3 [(None, None); Sgf.encode ("W", (2, 0))]];
     val_ratio := float_0; limit_games := None |}.

Lemma sgf_iteration_finishes_witness :
  ∃ p, Sgf.__iter__ mixed_sgf_files train None = (p, Finished) ∧
       Forall (sample_ok 3) (yielded p).
Proof. apply (sgf_iteration_finishes mixed_sgf_files train None); reflexivity. Defined.

(** On these files every file is gone through, four games are replayed,
    three of them to their end, and six samples are yielded. *)
Example mixed_sgf_files_run :
  let r := Sgf.__iter__ mixed_sgf_files train None in
  r.2 = Finished ∧ examined r.1 = [0; 1; 2; 3; 4; 5] ∧ games_seen r.1 = 3 ∧
  map snd (yielded r.1) = [4; 0; 8; 8; 3; 2].
Proof. vm_compute. by repeat split. Qed.

(** With [val_ratio <= 0] the "val" iteration yields nothing in either
    format.  In the compact format it parses no line, so that a malformed
    line cannot make it raise: it ends normally, or with the exception of
    one of its files, the [OSError] of a file that cannot be opened or the
    exception raised while the lines of a file are read
    ([UnicodeDecodeError] on bytes that are not UTF-8).  In the SGF format
    it ends normally. *)
Theorem val_split_empty (cfgc : DatasetConfig Compact.DataFile)
    (cfgs : DatasetConfig Sgf.SgfFile) info :
  SFleb (val_ratio cfgc) float_0 = true → SFleb (val_ratio cfgs) float_0 = true →
  yielded (Compact.__iter__ cfgc val info).1 = [] ∧
  ((Compact.__iter__ cfgc val info).2 = Finished ∨
   (Compact.Unreadable ∈ data_files cfgc ∧
    (Compact.__iter__ cfgc val info).2 = Raised OSError) ∨
   (∃ lines e, Compact.Interrupted lines e ∈ data_files cfgc ∧
               (Compact.__iter__ cfgc val info).2 = Raised e)) ∧
  yielded (Sgf.__iter__ cfgs val info).1 = [] ∧
  (Sgf.__iter__ cfgs val info).2 = Finished.
Proof.
  intros Hc Hs. unfold Compact.__iter__, Sgf.__iter__. destruct (worker info) as [w n].
  destruct (Compact.visit_files cfgc val w n 0 (data_files cfgc) start) as [pc oc] eqn:Hrc.
  destruct (Sgf.visit_files cfgs val w n 0 (data_files cfgs) start) as [ps os] eqn:Hrs.
  apply compact_visit_files_unselected in Hrc as [Hyc Hoc];
    [|intros i; by apply selected_val_nonpositive].
  apply sgf_visit_files_unselected in Hrs as [Hys Hos];
    [|intros i; by apply selected_val_nonpositive].
  cbn [fst snd]. by rewrite Hyc, Hys.
Qed.

(** A file with a line that is not JSON, then a file that is not UTF-8
    after its first line. *)
Definition undecodable_file : DatasetConfig Compact.DataFile :=
  {| board_size := 3;
     data_files := [Compact.Lines [Compact.Malformed];
                    Compact.Interrupted [Compact.Json Iteration.one_move_game]
                      UnicodeDecodeError];
     val_ratio := float_0; limit_games := None |}.

Lemma val_split_empty_witness :
  yielded (Compact.__iter__ undecodable_file val None).1 = [] ∧
  ((Compact.__iter__ undecodable_file val None).2 = Finished ∨
   (Compact.Unreadable ∈ data_files undecodable_file ∧
    (Compact.__iter__ undecodable_file val None).2 = Raised OSError) ∨
   (∃ lines e, Compact.Interrupted lines e ∈ data_files undecodable_file ∧
               (Compact.__iter__ undecodable_file val None).2 = Raised e)) ∧
  yielded (Sgf.__iter__ mixed_sgf_files val None).1 = [] ∧
  (Sgf.__iter__ mixed_sgf_files val None).2 = Finished.
Proof. apply (val_split_empty undecodable_file mixed_sgf_files None); reflexivity. Defined.

(** On these files the "val" iteration goes through the three lines and
    ends with the [UnicodeDecodeError] of the second file. *)
Example undecodable_file_run :
  let r := Compact.__iter__ undecodable_file val None in
  r.2 = Raised UnicodeDecodeError ∧ examined r.1 = [(0%nat, 0); (1%nat, 0)] ∧
  yielded r.1 = [].
Proof. vm_compute. by repeat split. Qed.

(** A line of the compact format that holds JSON, on a board size that
    [GoGameState] accepts: the samples of its game are appended to what was
    yielded, and the iteration goes on if the replay ended normally.
    Otherwise the exception of the replay leaves [__iter__]: a [TypeError]
    (a coordinate that is not a number, a record that cannot be iterated),
    or the [IndexError] of an entry with a float as a coordinate. *)
Theorem compact_json_line cfg mode w n fi gi moves p st0 :
  new (board_size cfg) = Ok st0 →
  gi mod n = w → limit_reached cfg p = false → _selected cfg mode gi = Ok true →
  ∃ out o,
    Compact._game_to_samples (board_size cfg) st0 moves = (out, o) ∧
    Compact.visit_line cfg mode w n fi gi (Compact.Json moves) p
    = ({| games_seen := games_seen p + 1; yielded := yielded p ++ out;
          examined := examined p ++ [(fi, gi)] |},
       match o with Finished => Next | _ => Stop o end) ∧
    (o = Finished ∨ o = Raised TypeError ∨
     (o = Raised IndexError ∧
      ∃ entry, entry ∈ entries moves ∧ float_entry entry = true)).
Proof.
  intros Hnew Hw Hlim Hsel.
  destruct (new_wf _ _ Hnew) as [Hwf Hsz].
  pose proof (game_to_samples_safe (board_size cfg) moves st0 Hwf Hsz) as Hend.
  destruct (Compact._game_to_samples (board_size cfg) st0 moves) as [out o] eqn:Hrun.
  exists out, o. split; [done|].
  unfold Compact.visit_line. rewrite (proj2 (Z.eqb_eq _ _) Hw), Hlim, Hsel, Hnew, Hrun.
  unfold compact_ending in Hend. cbn [negb fst snd] in *.
  destruct Hend as [[[-> | ->] _]|(-> & pre & last & entry & _ & _ & _ & Hin & Hf)];
    cbn [is_ValueError]; (split; [done|]); eauto 6.
Qed.

(** [[{"B": [2, 2]}, {"W": ["a", 1]}]] and a game of one move;
    [[{"B": [2, 2]}, {"W": [1.0, 2.0]}]] and a game of one move. *)
Definition bad_coordinate_game : Compact.json :=
  Compact.JList
    [Compact.encode ("B", (1, 1));
     Compact.JDict [("W", Compact.JList [Compact.JStr "a"; Compact.JInt 1])]].

Definition float_coordinate_game : Compact.json :=
  Compact.JList
    [Compact.encode ("B", (1, 1));
     Compact.JDict [("W", Compact.JList
        [Compact.JFloat float_1;
         Compact.JFloat (S754_finite false 4503599627370496 (-51))])]].

Definition bad_coordinate_file : DatasetConfig Compact.DataFile :=
  {| board_size := 3;
     data_files :=
       [Compact.Lines [Compact.Json bad_coordinate_game;
                       Compact.Json Iteration.one_move_game]];
     val_ratio := float_0; limit_games := None |}.

Definition float_coordinate_file : DatasetConfig Compact.DataFile :=
  {| board_size := 3;
     data_files :=
       [Compact.Lines [Compact.Json float_coordinate_game;
                       Compact.Json Iteration.one_move_game]];
     val_ratio := float_0; limit_games := None |}.

Lemma compact_json_line_witness :
  ∃ out o,
    Compact._game_to_samples 3 Replay.empty_3 float_coordinate_game = (out, o) ∧
    Compact.visit_line float_coordinate_file train 0 1 0 0
      (Compact.Json float_coordinate_game) start
    = ({| games_seen := games_seen (@start (nat * Z)) + 1;
          yielded := yielded (@start (nat * Z)) ++ out;
          examined := examined (@start (nat * Z)) ++ [(0%nat, 0)] |},
       match o with Finished => Next | _ => Stop o end) ∧
    (o = Finished ∨ o = Raised TypeError ∨
     (o = Raised IndexError ∧
      ∃ entry, entry ∈ entries float_coordinate_game ∧ float_entry entry = true)).
Proof.
  apply (compact_json_line float_coordinate_file train 0 1 0%nat 0 _ start Replay.empty_3);
    reflexivity.
Defined.

(** The game with the coordinates [1.0] and [2.0] ends the whole iteration
    with an [IndexError], after the samples of its two entries; the next
    game is not reached. *)
Example compact_float_coordinate_stops_iteration :
  (Compact.__iter__ float_coordinate_file train None).2 = Raised IndexError ∧
  map snd (yielded (Compact.__iter__ float_coordinate_file train None).1) = [4; 3] ∧
  examined (Compact.__iter__ float_coordinate_file train None).1 = [(0%nat, 0)].
Proof. vm_compute. by repeat split. Qed.

(** The game with the coordinate ["a"] ends the whole iteration with a
    [TypeError], after the sample of its first move; the next game is not
    reached. *)
Example compact_bad_coordinate_stops_iteration :
  (Compact.__iter__ bad_coordinate_file train None).2 = Raised TypeError ∧
  map snd (yielded (Compact.__iter__ bad_coordinate_file train None).1) = [4] ∧
  examined (Compact.__iter__ bad_coordinate_file train None).1 = [(0%nat, 0)].
Proof. vm_compute. by repeat split. Qed.

(** [limit_games] in the compact format: the worker goes through at most
    [limit_games] games (none when the cap is zero or negative), and
    [games_seen] is the number of games it went through, selected or not,
    valid or not. *)
Theorem compact_limit_games cfg mode info l :
  limit_games cfg = Some l →
  games_seen (Compact.__iter__ cfg mode info).1
    = Z.of_nat (length (examined (Compact.__iter__ cfg mode info).1)) ∧
  Z.of_nat (length (examined (Compact.__iter__ cfg mode info).1)) ≤ Z.max l 0.
Proof.
  intros Hlim. destruct (Compact.__iter__ cfg mode info) as [p o] eqn:Hrun.
  by apply (Iteration.compact_cap cfg mode info l p o).
Qed.

Definition capped_files : DatasetConfig Compact.DataFile :=
  {| board_size := 3;
     data_files := [Compact.Lines [Compact.Blank; Compact.Malformed;
                                   Compact.Json Iteration.one_move_game]];
     val_ratio := float_0; limit_games := Some 1 |}.

Lemma compact_limit_games_witness :
  games_seen (Compact.__iter__ capped_files train None).1
    = Z.of_nat (length (examined (Compact.__iter__ capped_files train None).1)) ∧
  Z.of_nat (length (examined (Compact.__iter__ capped_files train None).1)) ≤ Z.max 1 0.
Proof. apply (compact_limit_games capped_files train None 1). reflexivity. Defined.


(** The files of [mixed_sgf_files], with at most four games. *)
Definition capped_mixed_files : DatasetConfig Sgf.SgfFile :=
  {| board_size := 3; data_files := data_files mixed_sgf_files;
     val_ratio := float_0; limit_games := Some 4 |}.


(** On these files six files are gone through for three games counted. *)
Example capped_mixed_files_run :
  let r := Sgf.__iter__ capped_mixed_files train None in
  games_seen r.1 = 3 ∧ examined r.1 = [0; 1; 2; 3; 4; 5] ∧
  filter (λ i, replayed_to_end capped_mixed_files train i = true) (examined r.1)
    = [2; 3; 5].
Proof. vm_compute. by repeat split. Qed.

End IterationExtras.

(** ** The console player and the click handler *)

Module PlayFacts.
Import Board Rules BoardFacts MoreFacts.

(** [play_move] accepts the move. *)
Definition legal (st : GoGameState) (color : Color) (c : coord) : Prop :=
  ∃ caps st', play_move color c st = (Ok caps, st').

Lemma to_xy_in_range idx n :
  0 < n → 0 ≤ idx < n * n →
  Play.to_xy idx n = Some (idx mod n, idx / n) ∧
  0 ≤ idx mod n < n ∧ 0 ≤ idx / n < n.
Proof.
  intros Hn Hidx. unfold Play.to_xy. destruct (Z.eqb_spec n 0); [lia|].
  split; [done|]. split; [apply Z.mod_pos_bound; lia|]. split.
  - apply Z.div_pos; lia.
  - apply Z.div_lt_upper_bound; lia.
Qed.

Lemma copy_is_state st temp :
  new (size st) = Ok temp → {| size := size temp; board := board st |} = st.
Proof.
  intros Hnew. destruct (new_wf _ _ Hnew) as [_ ->]. by destruct st.
Qed.

Lemma wf_new st : wf st → ∃ temp, new (size st) = Ok temp.
Proof.
  intros (Hs & _). unfold new.
  destruct (Z.leb_spec (size st) 0); [lia|]. destruct (Z.ltb_spec 25 (size st)); [lia|].
  cbn. eauto.
Qed.

(** The trial on a copy tells whether the move is legal. *)
Lemma try_on_copy_spec st color c :
  wf st → inb st c →
  (legal st color c ∧ Play.try_on_copy st color c = Ok (Some tt)) ∨
  (¬ legal st color c ∧ Play.try_on_copy st color c = Ok None).
Proof.
  intros Hwf Hc. destruct c as [x y]. unfold Play.try_on_copy.
  destruct (wf_new st Hwf) as [temp Hnew]. rewrite Hnew, (copy_is_state st temp Hnew).
  destruct (play_move_result st color x y Hwf Hc)
    as (r & st' & Hrun & _ & _ & [(caps & ->)|(e & -> & He & _)]).
  - left. rewrite Hrun. split; [|done]. by exists caps, st'.
  - right. rewrite Hrun, He. split; [|done]. intros (caps & st'' & Hl). congruence.
Qed.

(** A corner that is suicide for White, on a board of size 3. *)
Definition corner_position : GoGameState :=
  {| size := 3; board := [[0; 1; 0]; [1; 0; 0]; [0; 0; 0]] |}.

(** An occupied point is not a legal move. *)
Lemma occupied_not_legal st color x y v :
  at_ st (x, y) = Some v → v ≠ 0 → ¬ legal st color (x, y).
Proof.
  intros Hv Hv0 (caps & st' & Hl). revert Hl.
  unfold play_move. rewrite bind_run. unfold pure_call at 1.
  rewrite (getitem_Ok _ _ _ _ Hv). by destruct (Z.eqb_spec v 0).
Qed.

End PlayFacts.

Module PlayExtras.
Import Board Rules BoardFacts MoreFacts PlayFacts.

(** [to_xy] and [to_index] are inverse of each other on a board of
    positive size: an index of [0, size * size) is that of one point of the
    board.  The labels of the samples are such indices. *)
Theorem index_round_trip n x y idx :
  0 < n →
  (0 ≤ x < n → Play.to_xy (Play.to_index x y n) n = Some (x, y)) ∧
  (0 ≤ idx < n * n →
     ∃ x' y', Play.to_xy idx n = Some (x', y') ∧ 0 ≤ x' < n ∧ 0 ≤ y' < n ∧
              Play.to_index x' y' n = idx) ∧
  (∀ m, Dataset.in_board n m →
        Play.to_xy (Dataset.action n m) n = Some m.2).
Proof.
  intros Hn. unfold Play.to_index, Dataset.action.
  assert (Hxy : ∀ a b, 0 ≤ a < n → Play.to_xy (b * n + a) n = Some (a, b)).
  { intros a b Ha. unfold Play.to_xy. destruct (Z.eqb_spec n 0); [lia|].
    rewrite Z.add_comm, Z.mod_add, Z.div_add by lia.
    rewrite Z.mod_small, Z.div_small by lia. done. }
  split; [by apply Hxy|]. split.
  - intros Hidx. destruct (to_xy_in_range idx n Hn Hidx) as (Hto & Hx & Hy).
    exists (idx mod n), (idx / n). split; [done|]. split; [done|]. split; [done|].
    rewrite (Z.div_mod idx n) at 3 by lia. lia.
  - intros [c [a b]] [Ha _]. cbn in *. by apply Hxy.
Qed.

Lemma index_round_trip_witness :
  (0 ≤ 3 < 19 → Play.to_xy (Play.to_index 3 15 19) 19 = Some (3, 15)) ∧
  (0 ≤ 288 < 19 * 19 →
     ∃ x' y', Play.to_xy 288 19 = Some (x', y') ∧ 0 ≤ x' < 19 ∧ 0 ≤ y' < 19 ∧
              Play.to_index x' y' 19 = 288) ∧
  (∀ m, Dataset.in_board 19 m →
        Play.to_xy (Dataset.action 19 m) 19 = Some m.2).
Proof. apply (index_round_trip 19 3 15 288). lia. Defined.

Section human.
Variable normalize : string → string.
Variable split_parts : string → list string.
Variable parse_int : string → option Z.

(** [human_move] on a well-formed board never lets an exception of
    [play_move] out.  When it returns [False], or raises [SystemExit], the
    board is the one before the call; when it returns [True] the board is
    unchanged (a pass) or the one left by a [play_move] that returned, at a
    point of the board. *)
Theorem human_move_spec st color move_str :
  wf st →
  ∃ reply st',
    Play.human_move normalize split_parts parse_int st color move_str = (reply, st') ∧
    wf st' ∧
    ((reply = Play.Returned false ∧ st' = st) ∨
     (reply = Play.SystemExit ∧ st' = st) ∨
     (reply = Play.Returned true ∧
      (st' = st ∨ ∃ x y caps, inb st (x, y) ∧ play_move color (x, y) st = (Ok caps, st')))).
Proof.
  intros Hwf. unfold Play.human_move. cbv zeta.
  destruct (bool_decide _); [exists (Play.Returned true), st; by auto 10|].
  destruct (bool_decide _); [exists Play.SystemExit, st; by auto 10|].
  destruct (split_parts (normalize move_str)) as [|a [|b [|]]];
    try (exists (Play.Returned false), st; by auto 10).
  destruct (parse_int a) as [x|]; [|exists (Play.Returned false), st; by auto 10].
  destruct (parse_int b) as [y|]; [|exists (Play.Returned false), st; by auto 10].
  destruct (Z.leb_spec 1 x), (Z.leb_spec x (size st)), (Z.leb_spec 1 y),
    (Z.leb_spec y (size st)); cbn [andb negb];
    try (exists (Play.Returned false), st; by auto 10).
  assert (Hp : inb st (x - 1, y - 1)) by (split; cbn; lia).
  destruct (play_move_result st color (x - 1) (y - 1) Hwf Hp)
    as (r & st' & Hrun & Hwf' & _ & [(caps & ->)|(e & -> & He & ->)]); rewrite Hrun.
  - exists (Play.Returned true), st'. split; [done|]. split; [done|]. right. right.
    split; [done|]. right. by exists (x - 1), (y - 1), caps.
  - rewrite He. exists (Play.Returned false), st. by auto 10.
Qed.
End human.

Lemma human_move_spec_witness :
  ∃ reply st',
    Play.human_move (λ s, s) (λ s, if String.eqb s "1 1" then ["1"; "1"] else [])
      (λ s, if String.eqb s "1" then Some 1 else None)
      corner_position "W" "1 1" = (reply, st') ∧
    wf st' ∧
    ((reply = Play.Returned false ∧ st' = corner_position) ∨
     (reply = Play.SystemExit ∧ st' = corner_position) ∨
     (reply = Play.Returned true ∧
      (st' = corner_position ∨
       ∃ x y caps, inb corner_position (x, y) ∧
                   play_move "W" (x, y) corner_position = (Ok caps, st')))).
Proof.
  apply (human_move_spec (λ s, s) (λ s, if String.eqb s "1 1" then ["1"; "1"] else [])
           (λ s, if String.eqb s "1" then Some 1 else None)
           corner_position "W" "1 1").
  apply (bool_decide_unpack _). reflexivity.
Defined.

End PlayExtras.

(** ** The choice of the move of the model *)

Module AiFacts.
Import Board Rules BoardFacts MoreFacts PlayFacts.

(** No index of [order] is that of a legal move. *)
Definition none_legal (st : GoGameState) (color : Color) (order : list Z) : Prop :=
  Forall (λ j, ∀ c, Play.to_xy j (size st) = Some c → ¬ legal st color c) order.

(** [move] is the point of the first index of [order] that is a legal
    move, [None] when there is none. *)
Definition first_legal (st : GoGameState) (color : Color) (order : list Z)
    (move : option coord) : Prop :=
  match move with
  | Some c =>
      ∃ pre idx post, order = pre ++ idx :: post ∧
        Play.to_xy idx (size st) = Some c ∧ inb st c ∧ legal st color c ∧
        none_legal st color pre
  | None => none_legal st color order
  end.

(** The indices of [order] whose point is empty. *)
Definition empty_indices (st : GoGameState) (order : list Z) : list Z :=
  filter (λ idx, at_ st (idx mod size st, idx / size st) = Some 0) order.

Lemma first_legal_skip st color idx c rest move :
  Play.to_xy idx (size st) = Some c → ¬ legal st color c →
  first_legal st color rest move → first_legal st color (idx :: rest) move.
Proof.
  intros Hto Hl. assert (Hidx : ∀ c', Play.to_xy idx (size st) = Some c' → ¬ legal st color c').
  { intros c' Hc'. by simplify_eq. }
  destruct move as [m|]; cbn.
  - intros (pre & i & post & -> & Hi & Hm & Hlm & Hpre).
    exists (idx :: pre), i, post. split; [done|]. do 3 (split; [done|]).
    by apply Forall_cons_2.
  - intros Hrest. by apply Forall_cons_2.
Qed.

Section ai.
Context {P : Type} (probs : Z → P).

Lemma ai_loop_spec st color topk order :
  wf st → Forall (λ idx, 0 ≤ idx < size st * size st) order →
  ∀ sugg, ∃ move sugg',
    Play.ai_loop P probs st color topk order sugg = Play.Chosen move sugg' ∧
    first_legal st color order move ∧
    Z.of_nat (length sugg') ≤ Z.max (Z.of_nat (length sugg)) topk.
Proof.
  intros Hwf. induction 1 as [|idx rest Hidx _ IH]; intros sugg.
  - exists None, sugg. split; [done|]. split; [apply Forall_nil_2|lia].
  - destruct (to_xy_in_range idx (size st)) as (Hto & Hx & Hy);
      [destruct Hwf; lia|done|].
    assert (Hp : inb st (idx mod size st, idx / size st)) by done.
    destruct (at_is_Some st _ Hwf Hp) as [v Hv].
    cbn [Play.ai_loop]. rewrite Hto, (getitem_Ok _ _ _ _ Hv).
    destruct (Z.eqb_spec v 0) as [->|Hv0]; cbn [negb].
    + set (sugg1 := if Z.of_nat (length sugg) <? topk then _ else _).
      assert (Hlen1 : Z.of_nat (length sugg1) ≤ Z.max (Z.of_nat (length sugg)) topk).
      { subst sugg1. destruct (Z.ltb_spec (Z.of_nat (length sugg)) topk);
          rewrite ?length_app; cbn [length]; lia. }
      destruct (try_on_copy_spec st color _ Hwf Hp) as [[Hl ->]|[Hl ->]].
      * exists (Some (idx mod size st, idx / size st)), sugg1.
        split; [done|]. split; [|done].
        exists [], idx, rest. do 4 (split; [done|]). apply Forall_nil_2.
      * destruct (IH sugg1) as (move & sugg' & -> & Hfound & Hlen).
        exists move, sugg'. split; [done|]. split; [|lia].
        by apply (first_legal_skip _ _ _ _ _ _ Hto Hl).
    + destruct (IH sugg) as (move & sugg' & -> & Hfound & Hlen).
      exists move, sugg'. split; [done|]. split; [|done].
      apply (first_legal_skip _ _ _ _ _ _ Hto); [|done].
      by apply (occupied_not_legal _ _ _ _ v).
Qed.

Definition suggestion (n idx : Z) : Z * Z * P :=
  (idx mod n + 1, idx / n + 1, probs idx).

Lemma empty_indices_cons st idx rest v :
  at_ st (idx mod size st, idx / size st) = Some v →
  empty_indices st (idx :: rest) =
  if v =? 0 then idx :: empty_indices st rest else empty_indices st rest.
Proof.
  intros Hv. unfold empty_indices. rewrite filter_cons.
  destruct (Z.eqb_spec v 0) as [->|Hv0].
  - by rewrite decide_True.
  - rewrite decide_False; [done|]. rewrite Hv. congruence.
Qed.

(** Once a move was found the loop of the window only collects
    suggestions. *)
Lemma get_ai_loop_found st color order c :
  wf st → Forall (λ idx, 0 ≤ idx < size st * size st) order →
  ∀ sugg,
    Gui.get_ai_loop P probs st color (size st) order (Some c) sugg =
    Play.Chosen (Some c) (sugg ++ map (suggestion (size st)) (empty_indices st order)).
Proof.
  intros Hwf. induction 1 as [|idx rest Hidx _ IH]; intros sugg.
  - cbn. by rewrite app_nil_r.
  - destruct (to_xy_in_range idx (size st)) as (Hto & Hx & Hy);
      [destruct Hwf; lia|done|].
    assert (Hp : inb st (idx mod size st, idx / size st)) by done.
    destruct (at_is_Some st _ Hwf Hp) as [v Hv].
    cbn [Gui.get_ai_loop]. rewrite Hto, (getitem_Ok _ _ _ _ Hv).
    rewrite (empty_indices_cons _ _ _ _ Hv).
    destruct (Z.eqb_spec v 0) as [->|Hv0]; cbn [negb].
    + rewrite IH. cbn [map]. by rewrite <- app_assoc.
    + apply IH.
Qed.

(** The loop of the window finds the move of [ai_move], and suggests every
    empty point. *)
Lemma get_ai_loop_spec st color topk order :
  wf st → Forall (λ idx, 0 ≤ idx < size st * size st) order →
  ∀ sa sg, ∃ move sa',
    Play.ai_loop P probs st color topk order sa = Play.Chosen move sa' ∧
    Gui.get_ai_loop P probs st color (size st) order None sg =
    Play.Chosen move (sg ++ map (suggestion (size st)) (empty_indices st order)).
Proof.
  intros Hwf. induction 1 as [|idx rest Hidx Hrest IH]; intros sa sg.
  - exists None, sa. cbn. by rewrite app_nil_r.
  - destruct (to_xy_in_range idx (size st)) as (Hto & Hx & Hy);
      [destruct Hwf; lia|done|].
    assert (Hp : inb st (idx mod size st, idx / size st)) by done.
    destruct (at_is_Some st _ Hwf Hp) as [v Hv].
    cbn [Play.ai_loop Gui.get_ai_loop]. rewrite Hto, (getitem_Ok _ _ _ _ Hv).
    rewrite (empty_indices_cons _ _ _ _ Hv).
    destruct (Z.eqb_spec v 0) as [->|Hv0]; cbn [negb]; [|apply IH].
    set (sa1 := if Z.of_nat (length sa) <? topk then _ else _).
    pose proof (try_on_copy_spec st color _ Hwf Hp) as Htry.
    unfold Play.try_on_copy in Htry.
    destruct (wf_new st Hwf) as [temp Hnew]. rewrite Hnew in Htry |- *.
    unfold Play.try_on_copy. rewrite Hnew.
    destruct (play_move color _ _) as [[caps|e|] st'] eqn:Hrun.
    + exists (Some (idx mod size st, idx / size st)), sa1. split; [done|].
      rewrite (get_ai_loop_found _ _ _ _ Hwf Hrest). cbn [map].
      by rewrite <- app_assoc.
    + destruct (is_ValueError e); [|by destruct Htry as [[_ ?]|[_ ?]]].
      destruct (IH sa1 (sg ++ [(idx mod size st + 1, idx / size st + 1, probs idx)]))
        as (move & sa' & -> & ->).
      exists move, sa'. split; [done|]. cbn [map]. by rewrite <- app_assoc.
    + by destruct Htry as [[_ ?]|[_ ?]].
Qed.

End ai.
End AiFacts.

Module AiExtras.
Import Board Rules BoardFacts MoreFacts PlayFacts AiFacts.

(** [ai_move] of [play.py], on a well-formed board and indices of the
    board: it returns, its move is the point of the first index of [order]
    that [play_move] accepts on the board ([None] when no index is one),
    and it keeps at most [topk] suggestions. *)
Theorem ai_move_first_legal (P : Type) (probs : Z → P) st color topk order :
  wf st → Forall (λ idx, 0 ≤ idx < size st * size st) order →
  ∃ move suggestions,
    Play.ai_move P probs st color topk order = Play.Chosen move suggestions ∧
    first_legal st color order move ∧
    Z.of_nat (length suggestions) ≤ Z.max 0 topk.
Proof.
  intros Hwf Horder. unfold Play.ai_move.
  destruct (ai_loop_spec probs st color topk order Hwf Horder [])
    as (move & sugg & Hrun & Hfirst & Hlen).
  exists move, sugg. split; [done|]. split; [done|]. cbn [length] in Hlen. lia.
Qed.

(** The board of [corner_position] with White to play: the index 0 is the
    suicide point, 1 and 2 are occupied, 3 is the first legal move. *)
Lemma ai_move_first_legal_witness :
  ∃ move suggestions,
    Play.ai_move Z (λ idx, idx) corner_position "W" 1 [0; 1; 2; 3] =
      Play.Chosen move suggestions ∧
    first_legal corner_position "W" [0; 1; 2; 3] move ∧
    Z.of_nat (length suggestions) ≤ Z.max 0 1.
Proof.
  apply (ai_move_first_legal Z (λ idx, idx) corner_position "W" 1 [0; 1; 2; 3]).
  - apply (bool_decide_unpack _). reflexivity.
  - apply (bool_decide_unpack _). reflexivity.
Defined.

End AiExtras.

(** ** The window: the stones drawn and the board *)

Module GuiFacts.
Import Board Rules BoardFacts MoreFacts PlayFacts.

(** What the window shows at [q] for the board [st]: the stone at [q],
    nothing for an empty point or a point outside the board. *)
Definition shown (st : GoGameState) (q : coord) : option Z :=
  if decide (inb st q)
  then v ← at_ st q; if decide (v = 0) then None else Some v
  else None.

(** The stones of the canvas are those of the board. *)
Definition shows (cv : Gui.Canvas) (st : GoGameState) : Prop :=
  ∀ q, Gui.stones cv !! q = shown st q.

Lemma remove_captured_lookup (caps : list coord) (s : gmap coord Z) q :
  foldl (λ s c, match s !! c with
                | Some _ => delete c s
                | None => s
                end) s caps !! q =
  if decide (q ∈ caps) then None else s !! q.
Proof.
  revert s. induction caps as [|c caps IH]; intros s; cbn [foldl].
  - rewrite decide_False; [done|]. apply not_elem_of_nil.
  - rewrite IH. destruct (decide (q ∈ caps)) as [Hin|Hin].
    + rewrite decide_True by (rewrite elem_of_cons; tauto). done.
    + destruct (decide (q = c)) as [->|Hqc].
      * rewrite decide_True by (rewrite elem_of_cons; tauto).
        destruct (s !! c) eqn:Hc; [apply lookup_delete_eq|done].
      * rewrite decide_False by (rewrite elem_of_cons; tauto).
        destruct (s !! c) eqn:Hc; [by apply lookup_delete_ne|done].
Qed.

Lemma add_stone_lookup x y w caps cv q :
  Gui.stones (Gui.add_stone x y w caps cv) !! q =
  if decide (q ∈ caps) then None else <[(x, y) := w]> (Gui.stones cv) !! q.
Proof.
  unfold Gui.add_stone. destruct caps as [|c caps]; cbn [Gui.stones].
  - rewrite decide_False; [done|]. apply not_elem_of_nil.
  - apply remove_captured_lookup.
Qed.

Lemma captured_inb st p w q : captured st p w q → inb st q.
Proof. intros (n & Hn & _ & _ & _ & Hc). by apply (connected_inb st n). Qed.

Lemma color_value_nonzero color : color_value color ≠ 0.
Proof. unfold color_value. by destruct (String.eqb _ _). Qed.

(** The canvas after [add_stone] shows the board after [play_move]. *)
Lemma add_stone_shows st color x y st1 st2 caps cv :
  wf st → inb st (x, y) →
  placed st (x, y) (color_value color) st1 →
  captures_removed st1 (x, y) (color_value color) st2 →
  (∀ q, q ∈ caps ↔ captured st1 (x, y) (color_value color) q) →
  shows cv st →
  shows (Gui.add_stone x y (color_value color) caps cv) st2.
Proof.
  intros Hwf Hp (Hwf1 & Hs1 & Hat1) (Hwf2 & Hs2 & Hat2) Hcaps Hcv q.
  rewrite add_stone_lookup. unfold shown.
  assert (Hinb : ∀ r, inb st2 r ↔ inb st r).
  { intros r. unfold inb. by rewrite Hs2, Hs1. }
  assert (Hinb1 : ∀ r, inb st1 r ↔ inb st r).
  { intros r. unfold inb. by rewrite Hs1. }
  destruct (decide (inb st2 q)) as [Hq|Hq].
  - apply Hinb in Hq. destruct (Hat2 q) as [Hcap Hkeep]; [by apply Hinb1|].
    destruct (decide (q ∈ caps)) as [Hin|Hin].
    + rewrite Hcap by (by apply Hcaps). cbn. by rewrite decide_True.
    + rewrite Hkeep by (by rewrite <- Hcaps). rewrite (Hat1 q Hq).
      destruct (decide (q = (x, y))) as [->|Hne].
      * rewrite lookup_insert_eq. cbn.
        rewrite decide_False; [done|]. apply color_value_nonzero.
      * rewrite lookup_insert_ne by done. rewrite Hcv. unfold shown.
        by rewrite decide_True.
  - assert (Hq' : ¬ inb st q) by (by rewrite <- Hinb).
    rewrite decide_False.
    + rewrite lookup_insert_ne by (intros <-; done).
      rewrite Hcv. unfold shown. by rewrite decide_False.
    + intros Hin. apply Hcaps, captured_inb, Hinb1 in Hin. done.
Qed.

Lemma played_shows st color x y caps st' cv :
  wf st → inb st (x, y) → shows cv st →
  play_move color (x, y) st = (Ok caps, st') →
  wf st' ∧ size st' = size st ∧
  shows (Gui.add_stone x y (color_value color) caps cv) st'.
Proof.
  intros Hwf Hp Hcv Hrun.
  destruct (play_move_cases st color x y Hwf Hp)
    as [(v & _ & _ & Hrun')|(_ & st1 & st2 & caps' & Hpl & Hrm & Hcaps & [[_ Hrun']|[_ Hrun']])];
    rewrite Hrun in Hrun'; [done..|]. injection Hrun' as -> ->.
  pose proof Hpl as (_ & Hs1 & _). pose proof Hrm as (Hwf2 & Hs2 & _).
  split; [done|]. split; [congruence|].
  by apply (add_stone_shows st color x y st1 st2).
Qed.

(** The window and its board agree: the board is well-formed, of the
    size of the window, and the canvas shows its stones. *)
Definition consistent (g : Gui.Game) : Prop :=
  wf (Gui.game_state g) ∧ Gui.board_size g = size (Gui.game_state g) ∧
  shows (Gui.board_canvas g) (Gui.game_state g).

(** A game of size 3 in which Black, the human player, is to move. *)
Definition corner_game : Gui.Game :=
  {| Gui.board_size := 3; Gui.human_color := "B"; Gui.ai_color := "W";
     Gui.current_player := "B"; Gui.game_active := true; Gui.move_count := 2;
     Gui.game_state := {| size := 3; board := [[0; -1; 0]; [-1; 0; 0]; [0; 0; 0]] |};
     Gui.board_canvas :=
       {| Gui.stones := {[ (1, 0) := -1; (0, 1) := -1 ]};
          Gui.last_move := Some (0, 1); Gui.captured_stones := [] |} |}.

Lemma corner_game_shows :
  shows (Gui.board_canvas corner_game) (Gui.game_state corner_game).
Proof.
  intros [x y]. cbn [corner_game Gui.board_canvas Gui.game_state Gui.stones].
  unfold shown. destruct (decide _) as [[Hx Hy]|Hout]; cbn in *.
  - assert (Hc : (x = 0 ∨ x = 1 ∨ x = 2) ∧ (y = 0 ∨ y = 1 ∨ y = 2)) by lia.
    destruct Hc as [[-> | [-> | ->]] [-> | [-> | ->]]]; reflexivity.
  - rewrite lookup_insert_ne, lookup_singleton_ne; [done| |];
      intros [= Hx Hy]; apply Hout; unfold inb; cbn; lia.
Qed.

(** The same game with White, the model, to move. *)
Definition corner_game_reply : Gui.Game :=
  {| Gui.board_size := 3; Gui.human_color := "W"; Gui.ai_color := "B";
     Gui.current_player := "B"; Gui.game_active := true; Gui.move_count := 2;
     Gui.game_state := Gui.game_state corner_game;
     Gui.board_canvas := Gui.board_canvas corner_game |}.

End GuiFacts.

Module GuiExtras.
Import Board Rules BoardFacts MoreFacts PlayFacts AiFacts GuiFacts.

(** [add_stone] puts the stone at the point and removes the captured
    stones: afterwards a point holds no stone when it is in the list of
    captured points, the new stone when it is the point played, and what
    it held otherwise. *)
Theorem add_stone_stones x y w caps cv q :
  Gui.stones (Gui.add_stone x y w caps cv) !! q =
    (if decide (q ∈ caps) then None
     else if decide (q = (x, y)) then Some w
     else Gui.stones cv !! q) ∧
  Gui.last_move (Gui.add_stone x y w caps cv) = Some (x, y).
Proof.
  split.
  - rewrite add_stone_lookup. destruct (decide (q ∈ caps)); [done|].
    destruct (decide (q = (x, y))) as [->|Hne].
    + apply lookup_insert_eq.
    + by apply lookup_insert_ne.
  - unfold Gui.add_stone. by destruct caps.
Qed.

(** A click of [_on_board_click] at a point of the board, when the canvas
    shows the stones of a well-formed board: no exception leaves the
    handler, and the canvas shows the stones of the board afterwards,
    captures included. *)
Theorem click_keeps_canvas x y g :
  wf (Gui.game_state g) →
  shows (Gui.board_canvas g) (Gui.game_state g) →
  inb (Gui.game_state g) (x, y) →
  ∃ g', Gui._on_board_click x y g = (g', None) ∧
        wf (Gui.game_state g') ∧
        size (Gui.game_state g') = size (Gui.game_state g) ∧
        Gui.board_size g' = Gui.board_size g ∧
        shows (Gui.board_canvas g') (Gui.game_state g').
Proof.
  intros Hwf Hcv Hp. unfold Gui._on_board_click.
  destruct (_ || _); [by exists g|].
  destruct (Gui.stones (Gui.board_canvas g) !! (x, y)) eqn:Hst; [by exists g|].
  destruct (play_move_cases (Gui.game_state g) (Gui.current_player g) x y Hwf Hp)
    as [(v & _ & _ & ->)|(_ & st1 & st2 & caps & Hpl & Hrm & Hcaps & [[_ ->]|[_ ->]])].
  - cbn. eexists. split; [done|]. by cbn.
  - cbn. eexists. split; [done|]. by cbn.
  - eexists. split; [done|]. cbn.
    destruct Hpl as (Hwf1 & Hs1 & Hat1), Hrm as (Hwf2 & Hs2 & Hat2).
    split; [done|]. split; [congruence|]. split; [done|].
    by apply (add_stone_shows (Gui.game_state g) (Gui.current_player g) x y st1 st2).
Qed.

Lemma click_keeps_canvas_witness :
  ∃ g', Gui._on_board_click 0 0 corner_game = (g', None) ∧
        wf (Gui.game_state g') ∧
        size (Gui.game_state g') = size (Gui.game_state corner_game) ∧
        Gui.board_size g' = Gui.board_size corner_game ∧
        shows (Gui.board_canvas g') (Gui.game_state g').
Proof.
  apply (click_keeps_canvas 0 0 corner_game).
  - apply (bool_decide_unpack _). reflexivity.
  - exact corner_game_shows.
  - apply (bool_decide_unpack _). reflexivity.
Defined.

(** What a click of the player to move does at an empty point of the
    board: when [play_move] accepts the move, the board is the one it
    leaves, the turn passes to the other colour, the move is counted, and
    the game stays active unless the count before the move had reached the
    number of points; when [play_move] refuses it (suicide), the error is
    caught and the game is as it was before the click. *)
Theorem click_outcomes x y g :
  wf (Gui.game_state g) →
  inb (Gui.game_state g) (x, y) →
  Gui.game_active g = true →
  Gui.current_player g = Gui.human_color g →
  Gui.stones (Gui.board_canvas g) !! (x, y) = None →
  at_ (Gui.game_state g) (x, y) = Some 0 →
  ∃ g', Gui._on_board_click x y g = (g', None) ∧
    Gui.human_color g' = Gui.human_color g ∧
    ((∃ caps,
        play_move (Gui.current_player g) (x, y) (Gui.game_state g) =
          (Ok caps, Gui.game_state g') ∧
        Gui.current_player g' =
          (if String.eqb (Gui.current_player g) "B" then "W" else "B") ∧
        Gui.move_count g' = Gui.move_count g + 1 ∧
        Gui.game_active g' =
          negb (Gui.move_count g >=? Gui.board_size g * Gui.board_size g) ∧
        Gui.last_move (Gui.board_canvas g') = Some (x, y)) ∨
     (play_move (Gui.current_player g) (x, y) (Gui.game_state g) =
        (Raise SuicideMove, Gui.game_state g) ∧
      g' = g)).
Proof.
  intros Hwf Hp Hact Hturn Hst Hat. unfold Gui._on_board_click.
  rewrite Hact, Hturn, String.eqb_refl, Hst. cbn [negb orb]. rewrite <- Hturn.
  destruct (play_move_cases (Gui.game_state g) (Gui.current_player g) x y Hwf Hp)
    as [(v & Hv & Hv0 & _)|(_ & st1 & st2 & caps & _ & _ & _ & [[_ Hrun]|[_ Hrun]])].
  - congruence.
  - rewrite Hrun. cbn. exists g. split; [|split; [done|by right]].
    clear Hrun. destruct g. cbn in *. congruence.
  - rewrite Hrun. eexists. split; [done|]. cbn. split; [done|]. left.
    exists caps. split; [done|]. split; [done|]. split; [done|].
    split; [by destruct (_ >=? _)|].
    unfold Gui.add_stone. by destruct caps.
Qed.

Lemma click_outcomes_witness :
  ∃ g', Gui._on_board_click 0 0 corner_game = (g', None) ∧
    Gui.human_color g' = Gui.human_color corner_game ∧
    ((∃ caps,
        play_move (Gui.current_player corner_game) (0, 0) (Gui.game_state corner_game) =
          (Ok caps, Gui.game_state g') ∧
        Gui.current_player g' =
          (if String.eqb (Gui.current_player corner_game) "B" then "W" else "B") ∧
        Gui.move_count g' = Gui.move_count corner_game + 1 ∧
        Gui.game_active g' =
          negb (Gui.move_count corner_game >=?
                Gui.board_size corner_game * Gui.board_size corner_game) ∧
        Gui.last_move (Gui.board_canvas g') = Some (0, 0)) ∨
     (play_move (Gui.current_player corner_game) (0, 0) (Gui.game_state corner_game) =
        (Raise SuicideMove, Gui.game_state corner_game) ∧
      g' = corner_game)).
Proof.
  apply (click_outcomes 0 0 corner_game).
  - apply (bool_decide_unpack _). reflexivity.
  - apply (bool_decide_unpack _). reflexivity.
  - reflexivity.
  - reflexivity.
  - reflexivity.
  - reflexivity.
Defined.

(** [_get_ai_move] of the window, whose [board_size] is the size of its
    well-formed board: it picks the move [ai_move] of [play.py] picks for
    the player to move, and its suggestions are all the empty points of
    [order], in that order, whatever [topk] is in [play.py]. *)
Theorem get_ai_move_agrees (P : Type) (probs : Z → P) g topk order :
  wf (Gui.game_state g) → Gui.board_size g = size (Gui.game_state g) →
  Forall (λ idx, 0 ≤ idx < Gui.board_size g * Gui.board_size g) order →
  ∃ move kept,
    Play.ai_move P probs (Gui.game_state g) (Gui.current_player g) topk order =
      Play.Chosen move kept ∧
    Gui._get_ai_move P probs g order =
      Play.Chosen move
        (map (suggestion probs (Gui.board_size g))
           (empty_indices (Gui.game_state g) order)).
Proof.
  intros Hwf Hsize Horder. unfold Play.ai_move, Gui._get_ai_move.
  rewrite Hsize in *.
  destruct (get_ai_loop_spec probs (Gui.game_state g) (Gui.current_player g)
              topk order Hwf Horder [] []) as (move & kept & Hplay & Hgui).
  exists move, kept. split; [done|]. by rewrite Hgui.
Qed.

Lemma get_ai_move_agrees_witness :
  ∃ move kept,
    Play.ai_move Z (λ idx, idx) (Gui.game_state corner_game)
      (Gui.current_player corner_game) 1 [0; 1; 4] = Play.Chosen move kept ∧
    Gui._get_ai_move Z (λ idx, idx) corner_game [0; 1; 4] =
      Play.Chosen move
        (map (suggestion (λ idx, idx) (Gui.board_size corner_game))
           (empty_indices (Gui.game_state corner_game) [0; 1; 4])).
Proof.
  apply (get_ai_move_agrees Z (λ idx, idx) corner_game 1 [0; 1; 4]).
  - apply (bool_decide_unpack _). reflexivity.
  - reflexivity.
  - apply (bool_decide_unpack _). reflexivity.
Defined.

(** [_restart_game] of a window whose size [GoGameState] accepts: the
    window and the new board agree, the board is empty, Black is to move
    and no move is counted.  For another size the [ValueError] of
    [GoGameState] leaves it. *)
Theorem restart_game_consistent g :
  (1 ≤ Gui.board_size g ≤ 25 →
   ∃ g', Gui._restart_game g = Ok g' ∧ consistent g' ∧
         stone_count (Gui.game_state g') = 0%nat ∧
         Gui.board_size g' = Gui.board_size g ∧
         Gui.current_player g' = "B" ∧ Gui.game_active g' = true ∧
         Gui.move_count g' = 0) ∧
  (¬ 1 ≤ Gui.board_size g ≤ 25 →
   ∃ e, Gui._restart_game g = Raise e ∧ is_ValueError e = true).
Proof.
  unfold Gui._restart_game. split; intros Hn.
  - destruct (new (Gui.board_size g)) as [st|e|] eqn:Hnew.
    + destruct (new_wf _ _ Hnew) as [Hwf Hs].
      eexists. split; [done|]. cbn. split; [|by rewrite (stone_count_new _ _ Hnew)].
      split; [done|]. split; [done|]. intros q. cbn. rewrite lookup_empty. unfold shown.
      destruct (decide (inb st q)) as [Hq|Hq]; [|done].
      by rewrite (new_at _ _ _ Hnew Hq).
    + revert Hnew. unfold new. destruct (Z.leb_spec (Gui.board_size g) 0); [lia|].
      by destruct (Z.ltb_spec 25 (Gui.board_size g)); [lia|].
    + revert Hnew. unfold new. by destruct (_ || _).
  - unfold new. destruct (Z.leb_spec (Gui.board_size g) 0); cbn [orb]; [by eexists|].
    destruct (Z.ltb_spec 25 (Gui.board_size g)); [by eexists|lia].
Qed.

Lemma restart_game_consistent_witness :
  (1 ≤ Gui.board_size corner_game ≤ 25 →
   ∃ g', Gui._restart_game corner_game = Ok g' ∧ consistent g' ∧
         stone_count (Gui.game_state g') = 0%nat ∧
         Gui.board_size g' = Gui.board_size corner_game ∧
         Gui.current_player g' = "B" ∧ Gui.game_active g' = true ∧
         Gui.move_count g' = 0) ∧
  (¬ 1 ≤ Gui.board_size corner_game ≤ 25 →
   ∃ e, Gui._restart_game corner_game = Raise e ∧ is_ValueError e = true).
Proof. apply (restart_game_consistent corner_game). Defined.

(** The turn of the model in [_ai_move], when the window and its board
    agree and the indices are those of the board: the call ends without
    an exception, so that the game is not stopped by [except Exception];
    the move is the first of [order] that [play_move] accepts, and it is
    played on the board, whose stones the canvas shows afterwards; when no
    index is a legal move the turn is passed with the board as it was.  The
    move is counted and the turn goes to the other colour. *)
Theorem ai_turn_plays_legal_move (P : Type) (probs : Z → P) g order :
  consistent g →
  Forall (λ idx, 0 ≤ idx < Gui.board_size g * Gui.board_size g) order →
  Gui.game_active g = true → Gui.current_player g = Gui.ai_color g →
  ∃ g' move,
    Gui._ai_move P probs g order = Some g' ∧
    first_legal (Gui.game_state g) (Gui.current_player g) order move ∧
    consistent g' ∧
    Gui.move_count g' = Gui.move_count g + 1 ∧
    Gui.current_player g' =
      (if String.eqb (Gui.current_player g) "B" then "W" else "B") ∧
    Gui.game_active g' =
      negb (Gui.move_count g >=? Gui.board_size g * Gui.board_size g) ∧
    match move with
    | None => Gui.game_state g' = Gui.game_state g ∧
              Gui.board_canvas g' = Gui.board_canvas g
    | Some c => ∃ caps,
        play_move (Gui.current_player g) c (Gui.game_state g) =
          (Ok caps, Gui.game_state g') ∧
        Gui.last_move (Gui.board_canvas g') = Some c
    end.
Proof.
  intros (Hwf & Hsize & Hcv) Horder Hact Hturn. rewrite Hsize in Horder.
  destruct (get_ai_loop_spec probs (Gui.game_state g) (Gui.current_player g)
              0 order Hwf Horder [] []) as (move & kept & Hplay & Hgui).
  destruct (ai_loop_spec probs (Gui.game_state g) (Gui.current_player g)
              0 order Hwf Horder []) as (move' & kept' & Hplay' & Hfirst & _).
  rewrite Hplay in Hplay'. injection Hplay' as <- <-.
  unfold Gui._ai_move, Gui._get_ai_move.
  assert (Hcond : negb (Gui.game_active g)
                  || negb (String.eqb (Gui.current_player g) (Gui.ai_color g)) = false)
    by (by rewrite Hact, Hturn, String.eqb_refl).
  rewrite Hcond. clear Hcond.
  assert (Hgui' : Gui.get_ai_loop P probs (Gui.game_state g) (Gui.current_player g)
                    (Gui.board_size g) order None [] =
                  Play.Chosen move
                    ([] ++ map (suggestion probs (size (Gui.game_state g)))
                             (empty_indices (Gui.game_state g) order)))
    by (by rewrite Hsize).
  rewrite Hgui'. clear Hgui'. destruct move as [[x y]|].
  - pose proof Hfirst as (pre & idx & post & _ & _ & Hp & (caps & st' & Hrun) & _).
    rewrite Hrun.
    destruct (played_shows _ _ _ _ _ _ _ Hwf Hp Hcv Hrun) as (Hwf' & Hs' & Hcv').
    eexists _, (Some (x, y)). split; [done|]. split; [exact Hfirst|].
    split; [split; [exact Hwf'|split; [|exact Hcv']]|].
    { change (Gui.board_size g = size st'). congruence. }
    split; [reflexivity|]. split; [reflexivity|]. split.
    { unfold Gui.count_move, Gui._switch_player.
      cbn [Gui.game_active Gui.move_count Gui.board_size].
      rewrite Hact. by destruct (_ >=? _). }
    exists caps. split; [exact Hrun|].
    unfold Gui.count_move, Gui._switch_player, Gui.add_stone.
    cbn [Gui.board_canvas]. by destruct caps.
  - eexists _, None. split; [done|]. split; [exact Hfirst|].
    split; [split; [exact Hwf|split; [exact Hsize|exact Hcv]]|].
    split; [reflexivity|]. split; [reflexivity|]. split; [|done].
    unfold Gui.count_move, Gui._switch_player.
    cbn [Gui.game_active Gui.move_count Gui.board_size].
    rewrite Hact. by destruct (_ >=? _).
Qed.

Lemma corner_game_reply_consistent : consistent corner_game_reply.
Proof.
  split; [apply (bool_decide_unpack _); reflexivity|].
  split; [reflexivity|exact corner_game_shows].
Qed.

Lemma ai_turn_plays_legal_move_witness :
  ∃ g' move,
    Gui._ai_move Z (λ idx, idx) corner_game_reply [1; 0; 4] = Some g' ∧
    first_legal (Gui.game_state corner_game_reply)
      (Gui.current_player corner_game_reply) [1; 0; 4] move ∧
    consistent g' ∧
    Gui.move_count g' = Gui.move_count corner_game_reply + 1 ∧
    Gui.current_player g' =
      (if String.eqb (Gui.current_player corner_game_reply) "B" then "W" else "B") ∧
    Gui.game_active g' =
      negb (Gui.move_count corner_game_reply >=?
            Gui.board_size corner_game_reply * Gui.board_size corner_game_reply) ∧
    match move with
    | None => Gui.game_state g' = Gui.game_state corner_game_reply ∧
              Gui.board_canvas g' = Gui.board_canvas corner_game_reply
    | Some c => ∃ caps,
        play_move (Gui.current_player corner_game_reply) c
          (Gui.game_state corner_game_reply) = (Ok caps, Gui.game_state g') ∧
        Gui.last_move (Gui.board_canvas g') = Some c
    end.
Proof.
  apply (ai_turn_plays_legal_move Z (λ idx, idx) corner_game_reply [1; 0; 4]).
  - exact corner_game_reply_consistent.
  - apply (bool_decide_unpack _). reflexivity.
  - reflexivity.
  - reflexivity.
Defined.

End GuiExtras.

(** ** Counting the stones of a board *)

Module CountFacts.
Import Board Rules BoardFacts MoreFacts PlayFacts GuiFacts.

(** The points of a board of size [n], row by row. *)
Definition cells (n : Z) : list coord :=
  concat ((λ y, (λ x, (x, y)) <$> seqZ 0 n) <$> seqZ 0 n).

Lemma elem_of_cells n q : q ∈ cells n ↔ 0 ≤ q.1 < n ∧ 0 ≤ q.2 < n.
Proof.
  unfold cells. rewrite elem_of_concat. split.
  - intros (l & Hq & Hl). apply list_elem_of_fmap in Hl as (y & -> & Hy).
    apply list_elem_of_fmap in Hq as (x & -> & Hx).
    apply elem_of_seqZ in Hx, Hy. cbn. lia.
  - intros [Hx Hy]. destruct q as [x y]. cbn in *.
    exists ((λ x, (x, y)) <$> seqZ 0 n). split.
    + apply list_elem_of_fmap. exists x. split; [done|]. apply elem_of_seqZ. lia.
    + apply list_elem_of_fmap. exists y. split; [done|]. apply elem_of_seqZ. lia.
Qed.

Lemma NoDup_rows (xs ys : list Z) :
  NoDup xs → NoDup ys → NoDup (concat ((λ y, (λ x, (x, y)) <$> xs) <$> ys)).
Proof.
  intros Hxs. induction 1 as [|y ys Hy Hys IH]; cbn; [apply NoDup_nil_2|].
  apply NoDup_app. split; [|split; [|done]].
  - apply NoDup_fmap_2; [|done]. by intros a b [= ->].
  - intros q Hq Hq'. apply list_elem_of_fmap in Hq as (x & -> & _).
    apply elem_of_concat in Hq' as (l & Hq' & Hl).
    apply list_elem_of_fmap in Hl as (y' & -> & Hy').
    apply list_elem_of_fmap in Hq' as (x' & [= -> ->] & _). done.
Qed.

Lemma NoDup_cells n : NoDup (cells n).
Proof. apply NoDup_rows; apply NoDup_seqZ. Qed.

Lemma concat_rows {A} (f : coord → A) (xs ys : list Z) :
  concat ((λ y, (λ x, f (x, y)) <$> xs) <$> ys) =
  f <$> concat ((λ y, (λ x, (x, y)) <$> xs) <$> ys).
Proof.
  induction ys as [|y ys IH]; cbn; [done|].
  rewrite fmap_app, IH. f_equal. by rewrite <- list_fmap_compose.
Qed.

Lemma filter_fmap_length {A B} (f : A → B) (P : B → Prop) (Q : A → Prop)
    `{!∀ b, Decision (P b)} `{!∀ a, Decision (Q a)} (l : list A) :
  (∀ a, Q a ↔ P (f a)) →
  length (filter P (f <$> l)) = length (filter Q l).
Proof.
  intros HPQ. induction l as [|a l IH]; [done|].
  rewrite fmap_cons, !filter_cons.
  destruct (decide (P (f a))) as [HP|HP], (decide (Q a)) as [HQ|HQ];
    cbn [length]; rewrite ?IH; try done; by apply HPQ in HQ || apply HPQ in HP.
Qed.

(** The rows of a well-formed board, by the content of its points. *)
Lemma board_rows st :
  wf st →
  board st =
  (λ y, (λ x, default 0 (at_ st (x, y))) <$> seqZ 0 (size st)) <$> seqZ 0 (size st).
Proof.
  intros Hwf. pose proof Hwf as (Hs & Hlen & Hrows).
  apply list_eq. intros r. rewrite list_lookup_fmap.
  destruct (decide (Z.of_nat r < size st)) as [Hr|Hr].
  - rewrite lookup_seqZ_lt by done. cbn.
    destruct (lookup_lt_is_Some_2 (board st) r) as [row Hrow]; [lia|].
    rewrite Hrow. f_equal.
    pose proof (Forall_lookup_1 _ _ _ _ Hrows Hrow) as Hrl. cbn in Hrl.
    apply list_eq. intros c. rewrite list_lookup_fmap.
    destruct (decide (Z.of_nat c < size st)) as [Hc|Hc].
    + rewrite lookup_seqZ_lt by done. cbn.
      rewrite (at_nat st (0 + Z.of_nat c, 0 + Z.of_nat r) Hwf) by (split; cbn; lia).
      cbn [fst snd]. rewrite !Z.add_0_l, !Nat2Z.id, Hrow. cbn.
      destruct (lookup_lt_is_Some_2 row c) as [v Hv]; [lia|]. by rewrite Hv.
    + rewrite lookup_seqZ_ge by lia. cbn. apply lookup_ge_None_2. lia.
  - rewrite lookup_seqZ_ge by lia. cbn. apply lookup_ge_None_2. lia.
Qed.

(** The number of stones is that of the points that hold one. *)
Lemma stone_count_cells st :
  wf st →
  stone_count st = length (filter (λ q, default 0 (at_ st q) ≠ 0) (cells (size st))).
Proof.
  intros Hwf. unfold stone_count, cells. rewrite (board_rows st Hwf) at 1.
  rewrite (concat_rows (λ q, default 0 (at_ st q))).
  by apply filter_fmap_length.
Qed.

Lemma captured_at st p w q : captured st p w q → at_ st q = Some (- w).
Proof. intros (n & _ & _ & Hn & _ & Hc). by rewrite (connected_at st n q Hc). Qed.

End CountFacts.

Module CountExtras.
Import Board Rules BoardFacts MoreFacts PlayFacts GuiFacts CountFacts.

(** A move that [play_move] accepts, at a point of a well-formed board,
    adds one stone and removes the captured ones: the number of stones
    afterwards, plus the number of distinct points of the list returned,
    is one more than before.  The list itself can name a point twice, see
    [two_sided_capture] below. *)
Theorem stone_conservation st color x y caps st' :
  wf st → inb st (x, y) →
  play_move color (x, y) st = (Ok caps, st') →
  (stone_count st' + length (remove_dups caps) = S (stone_count st))%nat.
Proof.
  intros Hwf Hp Hrun.
  destruct (play_move_cases st color x y Hwf Hp)
    as [(v & _ & _ & Hrun')|(Hat & st1 & st2 & caps' & Hpl & Hrm & Hcaps & [[_ Hrun']|[_ Hrun']])];
    [congruence..|].
  rewrite Hrun in Hrun'. injection Hrun' as -> ->.
  destruct Hpl as (Hwf1 & Hs1 & Hat1), Hrm as (Hwf2 & Hs2 & Hat2).
  pose proof (color_value_nonzero color) as Hw. set (w := color_value color) in *.
  rewrite (stone_count_cells st Hwf), (stone_count_cells st2 Hwf2), Hs2, Hs1.
  set (cs := cells (size st)).
  assert (Hcs : ∀ q, q ∈ cs ↔ inb st q) by (intros q; apply elem_of_cells).
  assert (Hcap : ∀ q, q ∈ caps' → inb st q ∧ q ≠ (x, y) ∧ at_ st q = Some (- w)).
  { intros q Hq%Hcaps. pose proof (captured_at _ _ _ _ Hq) as Hv.
    apply captured_inb in Hq. apply (inb_size st) in Hq; [|done].
    split; [done|]. rewrite (Hat1 q Hq) in Hv.
    destruct (decide (q = (x, y))); [injection Hv; lia|done]. }
  assert (Hat2' : ∀ q, inb st q →
            at_ st2 q = if decide (q ∈ caps') then Some 0
                        else if decide (q = (x, y)) then Some w else at_ st q).
  { intros q Hq. destruct (Hat2 q) as [Hcapd Hkeep]; [by apply (inb_size st)|].
    destruct (decide (q ∈ caps')) as [Hin|Hin].
    - by apply Hcapd, Hcaps.
    - rewrite Hkeep by (by rewrite <- Hcaps). by apply Hat1. }
  rewrite <- length_app.
  change (S (length ?l)) with (length ((x, y) :: l)).
  apply Permutation_length, NoDup_Permutation.
  - apply NoDup_app. split; [apply NoDup_filter, NoDup_cells|].
    split; [|apply NoDup_remove_dups].
    intros q [Hnz Hq%Hcs]%list_elem_of_filter Hin.
    apply (proj1 (elem_of_remove_dups caps' q)) in Hin.
    rewrite (Hat2' q Hq), decide_True in Hnz by done. by apply Hnz.
  - apply NoDup_cons_2; [|apply NoDup_filter, NoDup_cells].
    intros [Hnz _]%list_elem_of_filter. rewrite Hat in Hnz. by apply Hnz.
  - intros q. rewrite elem_of_app, elem_of_cons, !list_elem_of_filter,
      elem_of_remove_dups, !Hcs. split.
    + intros [[Hnz Hq]|Hin].
      * rewrite (Hat2' q Hq) in Hnz.
        destruct (decide (q ∈ caps')); [by destruct Hnz|].
        destruct (decide (q = (x, y))); [by left|by right].
      * destruct (Hcap q Hin) as (Hq & _ & Hv). right. split; [|done].
        rewrite Hv. cbn. lia.
    + intros [->|[Hnz Hq]].
      * left. split; [|done]. rewrite (Hat2' _ Hp).
        rewrite decide_False by (intros Hin; by destruct (Hcap _ Hin) as (_ & ? & _)).
        by rewrite decide_True.
      * destruct (decide (q ∈ caps')) as [Hin|Hin]; [by right|].
        left. split; [|done]. rewrite (Hat2' q Hq), decide_False by done.
        destruct (decide (q = (x, y))) as [->|_]; [done|done].
Qed.

(** A white group that touches the point (1, 1) on two sides: Black
    captures it there, and the group is listed once for each side. *)
Definition two_sided_capture : GoGameState :=
  {| size := 3; board := [[-1; -1; 1]; [-1; 0; 0]; [1; 0; 0]] |}.

Definition two_sided_capture_after : GoGameState :=
  {| size := 3; board := [[0; 0; 1]; [0; 1; 0]; [1; 0; 0]] |}.
Definition two_sided_captured : list coord :=
  [(0, 1); (0, 0); (1, 0); (1, 0); (0, 0); (0, 1)].

Example two_sided_capture_listed_twice :
  play_move "B" (1, 1) two_sided_capture = (Ok two_sided_captured, two_sided_capture_after).
Proof. reflexivity. Qed.

Lemma stone_conservation_witness :
  (stone_count two_sided_capture_after + length (remove_dups two_sided_captured)
   = S (stone_count two_sided_capture))%nat.
Proof.
  apply (stone_conservation two_sided_capture "B" 1 1).
  - apply (bool_decide_unpack _). reflexivity.
  - apply (bool_decide_unpack _). reflexivity.
  - reflexivity.
Defined.

(** Every point of the board holds [1], [-1] or [0]. *)
Definition stones_only (st : GoGameState) : Prop :=
  ∀ q v, inb st q → at_ st q = Some v → v = 1 ∨ v = -1 ∨ v = 0.

(** [play_move] at a point of a well-formed board whose points hold only
    [1], [-1] and [0] leaves such a board, whether it returns or raises. *)
Theorem play_move_keeps_stones st color x y r st' :
  wf st → inb st (x, y) → stones_only st →
  play_move color (x, y) st = (r, st') →
  stones_only st'.
Proof.
  intros Hwf Hp Hst Hrun.
  destruct (play_move_cases st color x y Hwf Hp)
    as [(v & _ & _ & Hrun')|(Hat & st1 & st2 & caps & Hpl & Hrm & Hcaps & [[_ Hrun']|[_ Hrun']])];
    rewrite Hrun in Hrun'; injection Hrun' as -> ->; [done..|].
  destruct Hpl as (Hwf1 & Hs1 & Hat1), Hrm as (Hwf2 & Hs2 & Hat2).
  intros q v Hq Hv. apply (inb_size st1) in Hq; [|done].
  destruct (Hat2 q Hq) as [Hcapd Hkeep]. apply (inb_size st) in Hq; [|done].
  destruct (decide (q ∈ caps)) as [Hin|Hin].
  - rewrite Hcapd in Hv by (by apply Hcaps). injection Hv as <-. auto.
  - rewrite Hkeep, (Hat1 q Hq) in Hv by (by rewrite <- Hcaps).
    destruct (decide (q = (x, y))).
    + injection Hv as <-. unfold color_value. destruct (String.eqb _ _); auto.
    + by apply (Hst q).
Qed.

Lemma play_move_keeps_stones_witness : stones_only two_sided_capture_after.
Proof.
  apply (play_move_keeps_stones two_sided_capture "B" 1 1 (Ok two_sided_captured)).
  - apply (bool_decide_unpack _). reflexivity.
  - apply (bool_decide_unpack _). reflexivity.
  - intros [a b] v [Ha Hb]. cbn in Ha, Hb.
    assert (Hc : (a = 0 ∨ a = 1 ∨ a = 2) ∧ (b = 0 ∨ b = 1 ∨ b = 2)) by lia.
    destruct Hc as [[-> | [-> | ->]] [-> | [-> | ->]]]; intros [= <-]; auto.
  - reflexivity.
Defined.

End CountExtras.
